(** * Crypto-misuse detection: rule engine, normalizer and feature extractor

    A shallow embedding of [baselines/rule_based.py],
    [preprocessing/normalizer.py] and [preprocessing/parser.py].

    Text.  A Python [str] is modelled as a list of 8-bit characters.  The
    character classes of Python's [re] and [str] methods (white space, word
    characters, digits, letter case, line boundaries) are reproduced for
    the ASCII range; the 128 codes above it are given no class and no
    case.  Read as Latin-1, none of them is matched by a letter of the
    patterns under [re.IGNORECASE], which is all that the rules ask of
    them.  Python's [str.upper] and [str.lower] do more beyond ASCII: a
    statement about letter case is about the case of the ASCII letters, or
    is restricted to ASCII text, and says so.

    Regular expressions.  Every pattern of the three modules is written as
    a term of [regex], and run by a backtracking matcher [m] that tries
    the alternatives in the order of Python's [re]: the left branch of [|]
    first, greedy repetitions longest first, lazy ones shortest first.
    [search], [findall], [finditer] and [sub] are the scanning loops of
    [re] over that matcher. *)

From Stdlib Require Import DecimalString Ascii String List Bool Arith Lia.
Import ListNotations.

Set Implicit Arguments.
Open Scope list_scope.
Open Scope bool_scope.

(** ** Characters and text *)

Definition str := list ascii.

(** [T "abc"] is the text of a literal. *)
Definition T (s : string) : str := list_ascii_of_string s.

(** The double quote, written on its own because it is the delimiter of
    literals. *)
Definition DQ : ascii := ascii_of_nat 34.
Definition TAB : ascii := ascii_of_nat 9.
Definition LF : ascii := ascii_of_nat 10.
Definition CR : ascii := ascii_of_nat 13.
Definition SP : ascii := ascii_of_nat 32.

Definition code (c : ascii) : nat := nat_of_ascii c.

Definition between (lo hi : nat) (c : ascii) : bool :=
  (lo <=? code c) && (code c <=? hi).

Definition is_upper (c : ascii) : bool := between 65 90 c.
Definition is_lower (c : ascii) : bool := between 97 122 c.
Definition is_digit (c : ascii) : bool := between 48 57 c.

(** [\w]: letters, digits and the underscore. *)
Definition is_word (c : ascii) : bool :=
  is_upper c || is_lower c || is_digit c || (code c =? 95).

(** [\s] and [str.isspace]: TAB LF VT FF CR, FS GS RS US and the space. *)
Definition is_space (c : ascii) : bool := between 9 13 c || between 28 32 c.

(** The line boundaries of [str.splitlines]: LF VT FF CR, FS GS RS. *)
Definition is_linebreak (c : ascii) : bool :=
  between 10 13 c || between 28 30 c.

Definition lower (c : ascii) : ascii :=
  if is_upper c then ascii_of_nat (code c + 32) else c.

Definition upper (c : ascii) : ascii :=
  if is_lower c then ascii_of_nat (code c - 32) else c.

Definition ceqb (a b : ascii) : bool := Ascii.eqb a b.

(** ** Regular expressions *)

(** Members of a bracketed set. *)
Inductive item : Type :=
| IChar (c : ascii)            (* a character *)
| IRange (lo hi : ascii)       (* lo-hi *)
| ISpace                       (* \s *)
| IWord                        (* \w *)
| IDigit.                      (* \d *)

(** What consumes one character. *)
Inductive cset : Type :=
| CLit (c : ascii)                       (* a literal character *)
| CAny                                   (* . *)
| CSet (neg : bool) (items : list item). (* [...] and [^...] *)

Inductive regex : Type :=
| Eps
| Chr (cs : cset)
| Cat (r1 r2 : regex)
| Alt (r1 r2 : regex)
| Rep (r : regex) (lo : nat) (hi : option nat) (greedy : bool)
| Group (r : regex)            (* the capturing group *)
| Bol                          (* ^ *)
| WordB.                       (* \b *)

Record flags : Type := Flags {
  IGNORECASE : bool;
  DOTALL : bool;
  MULTILINE : bool
}.

Definition no_flags : flags := Flags false false false.
Definition ignorecase : flags := Flags true false false.

(** A compiled pattern: [re.compile(r, flags)]. *)
Record pattern : Type := Pattern { pat_flags : flags; pat_re : regex }.

(** Membership of one character in a set member.  Under [IGNORECASE] the
    set is lowered and the character is lowered before the test, as
    [re] does; for a range that is the test of both cases of the
    character. *)
Definition item_ok (fl : flags) (c : ascii) (i : item) : bool :=
  match i with
  | IChar x =>
      if IGNORECASE fl then ceqb (lower c) (lower x) else ceqb c x
  | IRange lo hi =>
      if IGNORECASE fl
      then between (code lo) (code hi) (lower c)
           || between (code lo) (code hi) (upper c)
      else between (code lo) (code hi) c
  | ISpace => is_space c
  | IWord => is_word c
  | IDigit => is_digit c
  end.

Definition char_ok (fl : flags) (cs : cset) (c : ascii) : bool :=
  match cs with
  | CLit x =>
      if IGNORECASE fl then ceqb (lower c) (lower x) else ceqb c x
  | CAny => DOTALL fl || negb (ceqb c LF)
  | CSet neg items => xorb neg (existsb (item_ok fl c) items)
  end.

(** ** The matcher *)

(** A position in the text: what was read (last character first), what
    is left, and the text of the capturing group if it has matched. *)
Record pos : Type := Pos {
  before : list ascii;
  after : list ascii;
  grp : option (list ascii)
}.

Definition start_pos (bef aft : list ascii) : pos := Pos bef aft None.

Definition advance (s : pos) : pos :=
  match after s with
  | [] => s
  | c :: t => Pos (c :: before s) t (grp s)
  end.

(** The text read between an earlier position [s] and a later one [s']. *)
Definition text_between (s s' : pos) : list ascii :=
  rev (firstn (length (before s') - length (before s)) (before s')).

Definition capture (s s' : pos) : pos :=
  Pos (before s') (after s') (Some (text_between s s')).

Definition prev_is (p : ascii -> bool) (s : pos) : bool :=
  match before s with [] => false | c :: _ => p c end.

Definition next_is (p : ascii -> bool) (s : pos) : bool :=
  match after s with [] => false | c :: _ => p c end.

(** [^]: the start of the text, and under [MULTILINE] also just after a
    newline. *)
Definition at_bol (fl : flags) (s : pos) : bool :=
  match before s with
  | [] => true
  | c :: _ => MULTILINE fl && ceqb c LF
  end.

(** [\b]: exactly one side is a word character. *)
Definition at_wordb (s : pos) : bool :=
  xorb (prev_is is_word s) (next_is is_word s).

Definition shorter (s' s : pos) : bool :=
  length (after s') <? length (after s).

Definition allows (hi : option nat) (i : nat) : bool :=
  match hi with None => true | Some h => i <? h end.

Definition cont : Type := pos -> option pos.

(** The loop of a repetition.  [i] iterations are done; each further one
    has to read at least one character, so [fuel], the length of what is
    left, bounds them.  Greedy: one more iteration before leaving the
    loop; lazy: the other way round. *)
Fixpoint rep_loop (body : pos -> cont -> option pos) (lo : nat)
    (hi : option nat) (greedy : bool) (k : cont)
    (fuel i : nat) (s : pos) {struct fuel} : option pos :=
  let more (_ : unit) : option pos :=
    match fuel with
    | 0 => None
    | S fuel' =>
        if allows hi i
        then body s (fun s' =>
               if shorter s' s
               then rep_loop body lo hi greedy k fuel' (S i) s'
               else None)
        else None
    end in
  if i <? lo then more tt
  else if greedy
       then match more tt with Some e => Some e | None => k s end
       else match k s with Some e => Some e | None => more tt end.

Fixpoint m (fl : flags) (r : regex) {struct r} : pos -> cont -> option pos :=
  match r with
  | Eps => fun s k => k s
  | Chr cs => fun s k =>
      match after s with
      | [] => None
      | c :: _ => if char_ok fl cs c then k (advance s) else None
      end
  | Cat r1 r2 => fun s k => m fl r1 s (fun s' => m fl r2 s' k)
  | Alt r1 r2 => fun s k =>
      match m fl r1 s k with
      | Some e => Some e
      | None => m fl r2 s k
      end
  | Rep r1 lo hi greedy => fun s k =>
      rep_loop (m fl r1) lo hi greedy k (length (after s)) 0 s
  | Group r1 => fun s k => m fl r1 s (fun s' => k (capture s s'))
  | Bol => fun s k => if at_bol fl s then k s else None
  | WordB => fun s k => if at_wordb s then k s else None
  end.

(** A match that starts at [s].  [must_advance] refuses the empty match,
    as [re] does just after an empty match at the same place. *)
Definition match_at (p : pattern) (must_advance : bool) (s : pos)
  : option pos :=
  m (pat_flags p) (pat_re p) s
    (fun e =>
       if must_advance && (length (after e) =? length (after s))
       then None else Some e).

(** [pattern.search]: the leftmost match, if any. *)
Fixpoint search_from (p : pattern) (bef aft : list ascii)
  : option (pos * pos) :=
  match match_at p false (start_pos bef aft) with
  | Some e => Some (start_pos bef aft, e)
  | None =>
      match aft with
      | [] => None
      | c :: t => search_from p (c :: bef) t
      end
  end.

Definition search (p : pattern) (code : str) : bool :=
  match search_from p [] code with Some _ => true | None => false end.

Definition matched_len (s e : pos) : nat :=
  length (after s) - length (after e).

(** The scanning loop shared by [finditer], [findall] and [sub]: the
    matches from left to right, none overlapping another.  [on_match] is
    applied to each match and [on_char] to each character outside the
    matches.  [skip] counts the characters still inside the last match.
    After an empty match the same place is tried once more for a match
    that is not empty, then the scan moves on by one character. *)
Fixpoint scan (B : Type) (p : pattern) (on_match : pos -> pos -> B -> B)
    (on_char : ascii -> B -> B) (nil : B)
    (bef aft : list ascii) (skip : nat) {struct aft} : B :=
  let s := start_pos bef aft in
  match aft with
  | [] =>
      match skip with
      | S _ => nil
      | 0 =>
          match match_at p false s with
          | Some e => on_match s e nil
          | None => nil
          end
      end
  | c :: t =>
      match skip with
      | S n => scan p on_match on_char nil (c :: bef) t n
      | 0 =>
          match match_at p false s with
          | None => on_char c (scan p on_match on_char nil (c :: bef) t 0)
          | Some e =>
              match matched_len s e with
              | S n => on_match s e (scan p on_match on_char nil (c :: bef) t n)
              | 0 =>
                  on_match s e
                    match match_at p true s with
                    | Some e2 =>
                        on_match s e2
                          (scan p on_match on_char nil (c :: bef) t
                             (matched_len s e2 - 1))
                    | None =>
                        on_char c (scan p on_match on_char nil (c :: bef) t 0)
                    end
              end
          end
      end
  end.

(** [re.findall] for a pattern without a capturing group: the texts of
    the matches. *)
Definition findall_from (p : pattern) (bef aft : list ascii) (skip : nat)
  : list str :=
  scan p (fun s e acc => text_between s e :: acc) (fun _ acc => acc)
       [] bef aft skip.

Definition findall (p : pattern) (code : str) : list str :=
  findall_from p [] code 0.

(** [match.group(1)] over [pattern.finditer]. *)
Definition finditer_group (p : pattern) (code : str) : list (option str) :=
  scan p (fun _ e acc => grp e :: acc) (fun _ acc => acc) [] [] code 0.

(** [re.sub] with a replacement that has no escape in it. *)
Definition sub_from (p : pattern) (repl : str) (bef aft : list ascii)
    (skip : nat) : str :=
  scan p (fun _ _ acc => repl ++ acc) (fun c acc => c :: acc) [] bef aft skip.

Definition sub (p : pattern) (repl : str) (code : str) : str :=
  sub_from p repl [] code 0.

(** ** Writing patterns *)

Fixpoint lits (w : list ascii) : regex :=
  match w with
  | [] => Eps
  | c :: t => Cat (Chr (CLit c)) (lits t)
  end.

Definition lit (s : string) : regex := lits (T s).
Definition chr (c : ascii) : regex := Chr (CLit c).
Definition oneof (items : list item) : regex := Chr (CSet false items).
Definition noneof (items : list item) : regex := Chr (CSet true items).
Definition ws : regex := oneof [ISpace].        (* \s *)
Definition wordc : regex := oneof [IWord].      (* \w *)
Definition digit : regex := oneof [IDigit].     (* \d *)
Definition star (r : regex) : regex := Rep r 0 None true.       (* r* *)
Definition plus (r : regex) : regex := Rep r 1 None true.       (* r+ *)
Definition opt (r : regex) : regex := Rep r 0 (Some 1) true.    (* r? *)
Definition lazy_star (r : regex) : regex := Rep r 0 None false. (* r*? *)
Definition seq (rs : list regex) : regex := fold_right Cat Eps rs.
Fixpoint alts (rs : list regex) : regex :=
  match rs with
  | [] => Eps
  | [r] => r
  | r :: rest => Alt r (alts rest)
  end.

(** ** baselines/rule_based.py

    The source pattern is quoted above each definition, with [\q] for
    its escaped double quote. *)

(** 1. [Cipher\.getInstance\s*\(\s*\q[^\q]*ECB[^\q]*\q] *)
Definition ecb_mode : regex :=
  seq [lit "Cipher.getInstance"; star ws; lit "("; star ws; chr DQ;
       star (noneof [IChar DQ]); lit "ECB"; star (noneof [IChar DQ]); chr DQ].

(** 2. [MessageDigest\.getInstance\s*\(\s*\qMD5\q\s*\)] *)
Definition md5_hash : regex :=
  seq [lit "MessageDigest.getInstance"; star ws; lit "("; star ws; chr DQ;
       lit "MD5"; chr DQ; star ws; lit ")"].

(** 3. [MessageDigest\.getInstance\s*\(\s*\qSHA-?1\q\s*\)] *)
Definition sha1_hash : regex :=
  seq [lit "MessageDigest.getInstance"; star ws; lit "("; star ws; chr DQ;
       lit "SHA"; opt (lit "-"); lit "1"; chr DQ; star ws; lit ")"].

(** 4. [new\s+SecretKeySpec\s*\(\s*new\s+byte\s*\[\s*\]\s*\{] *)
Definition hardcoded_key : regex :=
  seq [lit "new"; plus ws; lit "SecretKeySpec"; star ws; lit "("; star ws;
       lit "new"; plus ws; lit "byte"; star ws; lit "["; star ws; lit "]";
       star ws; lit "{"].

(** 5. [new\s+SecretKeySpec\s*\(\s*\q[^\q]+\q\.getBytes] *)
Definition hardcoded_key_string : regex :=
  seq [lit "new"; plus ws; lit "SecretKeySpec"; star ws; lit "("; star ws;
       chr DQ; plus (noneof [IChar DQ]); chr DQ; lit ".getBytes"].

(** 6. [new\s+IvParameterSpec\s*\(\s*new\s+byte\s*\[\s*\]\s*\{] *)
Definition static_iv : regex :=
  seq [lit "new"; plus ws; lit "IvParameterSpec"; star ws; lit "("; star ws;
       lit "new"; plus ws; lit "byte"; star ws; lit "["; star ws; lit "]";
       star ws; lit "{"].

(** 7. [new\s+Random\s*\(] *)
Definition insecure_random : regex :=
  seq [lit "new"; plus ws; lit "Random"; star ws; lit "("].

(** 8. [Cipher\.getInstance\s*\(\s*\qDES[^e]] *)
Definition des_usage : regex :=
  seq [lit "Cipher.getInstance"; star ws; lit "("; star ws; chr DQ;
       lit "DES"; noneof [IChar "e"]].

(** 9. [Cipher\.getInstance\s*\(\s*\q[^\q]*NoPadding[^\q]*\q] *)
Definition no_padding : regex :=
  seq [lit "Cipher.getInstance"; star ws; lit "("; star ws; chr DQ;
       star (noneof [IChar DQ]); lit "NoPadding"; star (noneof [IChar DQ]);
       chr DQ].

(** 10. [PBEKeySpec\s*\([^)]*,\s*(?:[1-9]\d{0,2})\s*[,)]] *)
Definition low_pbe_iterations : regex :=
  seq [lit "PBEKeySpec"; star ws; lit "("; star (noneof [IChar ")"]);
       lit ","; star ws;
       Cat (oneof [IRange "1" "9"]) (Rep digit 0 (Some 2) true);
       star ws; oneof [IChar ","; IChar ")"]].

(** Each rule is a name and a compiled pattern; the first nine are
    compiled with [re.IGNORECASE], the tenth with no flag. *)
Definition _RULES : list (string * pattern) :=
  [ ("ecb_mode"%string, Pattern ignorecase ecb_mode);
    ("md5_hash"%string, Pattern ignorecase md5_hash);
    ("sha1_hash"%string, Pattern ignorecase sha1_hash);
    ("hardcoded_key"%string, Pattern ignorecase hardcoded_key);
    ("hardcoded_key_string"%string, Pattern ignorecase hardcoded_key_string);
    ("static_iv"%string, Pattern ignorecase static_iv);
    ("insecure_random"%string, Pattern ignorecase insecure_random);
    ("des_usage"%string, Pattern ignorecase des_usage);
    ("no_padding"%string, Pattern ignorecase no_padding);
    ("low_pbe_iterations"%string, Pattern no_flags low_pbe_iterations) ].

(** The loop of [predict]: it returns at the first rule that matches. *)
Fixpoint predict_rules (rules : list (string * pattern)) (code : str)
  : string :=
  match rules with
  | [] => "secure"
  | (_, p) :: rest =>
      if search p code then "insecure" else predict_rules rest code
  end.

Definition predict (code : str) : string := predict_rules _RULES code.

Definition predict_batch (snippets : list str) : list string :=
  map predict snippets.

(** The loop of [predict_detailed]: every rule is tried, and the names of
    those that match are appended in turn. *)
Fixpoint triggered_by (rules : list (string * pattern)) (code : str)
    (triggered : list string) : list string :=
  match rules with
  | [] => triggered
  | (rule_name, p) :: rest =>
      if search p code
      then triggered_by rest code (triggered ++ [rule_name])
      else triggered_by rest code triggered
  end.

Record detailed : Type := Detailed {
  label : string;
  triggered_rules : list string
}.

Definition predict_detailed (code : str) : detailed :=
  let triggered := triggered_by _RULES code [] in
  {| label := match triggered with [] => "secure" | _ :: _ => "insecure" end;
     triggered_rules := triggered |}.

(** ** preprocessing/normalizer.py *)

(** [/\*.*?\*/] with [re.DOTALL] *)
Definition block_comment : pattern :=
  Pattern (Flags false true false)
          (seq [lit "/*"; lazy_star (Chr CAny); lit "*/"]).

(** [//[^\n]*] *)
Definition line_comment : pattern :=
  Pattern no_flags (seq [lit "//"; star (noneof [IChar LF])]).

Definition _remove_comments (code : str) : str :=
  let code := sub block_comment [] code in
  let code := sub line_comment [] code in
  code.

(** [code.replace("\t", " ")] *)
Definition replace_tabs (code : str) : str :=
  map (fun c => if ceqb c TAB then SP else c) code.

(** [ {2,}] *)
Definition spaces : pattern := Pattern no_flags (Rep (chr SP) 2 None true).

(** [str.splitlines]: the lines without their boundaries; CR LF is one
    boundary, and a boundary at the end of the text opens no line. *)
Fixpoint splitlines (s : str) : list str :=
  match s with
  | [] => []
  | c :: t =>
      if is_linebreak c
      then [] :: (if ceqb c CR
                  then match t with
                       | [] => []
                       | d :: t' => if ceqb d LF then splitlines t'
                                    else splitlines t
                       end
                  else splitlines t)
      else match splitlines t with
           | [] => [[c]]
           | l :: ls => (c :: l) :: ls
           end
  end.

Fixpoint lstrip (s : str) : str :=
  match s with
  | [] => []
  | c :: t => if is_space c then lstrip t else s
  end.

Definition rstrip (s : str) : str := rev (lstrip (rev s)).

(** [str.strip] *)
Definition strip (s : str) : str := rstrip (lstrip s).

Definition nonempty (s : str) : bool :=
  match s with [] => false | _ :: _ => true end.

(** [sep.join(lines)] *)
Fixpoint join (sep : str) (lines : list str) : str :=
  match lines with
  | [] => []
  | l :: rest =>
      match rest with
      | [] => l
      | _ :: _ => l ++ sep ++ join sep rest
      end
  end.

Definition _normalize_whitespace (code : str) : str :=
  let code := replace_tabs code in
  let code := sub spaces [SP] code in
  let lines :=
    map strip (filter (fun line => nonempty (strip line)) (splitlines code)) in
  join [LF] lines.

(** [\b(?:int|long|byte|short|float|double|boolean|char|String|byte\[\]|char\[\]|Object|var)\s+(NAME)\s*[=;,)]]
    with [re.IGNORECASE], where the group [NAME] is [[a-z_]\w*] *)
Definition var_pattern : pattern :=
  Pattern ignorecase
    (seq [WordB;
          alts [lit "int"; lit "long"; lit "byte"; lit "short"; lit "float";
                lit "double"; lit "boolean"; lit "char"; lit "String";
                lit "byte[]"; lit "char[]"; lit "Object"; lit "var"];
          plus ws;
          Group (Cat (oneof [IRange "a" "z"; IChar "_"]) (star wordc));
          star ws;
          oneof [IChar "="; IChar ";"; IChar ","; IChar ")"]]).

Definition _protected : list str :=
  map T ["args"; "main"; "this"; "super"; "null"; "true"; "false";
         "System"; "out"; "println"; "String"; "Integer"; "key"]%string.

Definition str_eqb (a b : str) : bool :=
  if list_eq_dec ascii_dec a b then true else false.

Definition mem (x : str) (l : list str) : bool := existsb (str_eqb x) l.

(** The first loop of [_normalize_variables]: the declared names in the
    order they are first seen, the protected ones left out. *)
Fixpoint collect_names (found : list (option str)) (var_names : list str)
  : list str :=
  match found with
  | [] => var_names
  | None :: rest => collect_names rest var_names
  | Some name :: rest =>
      if negb (mem name _protected) && negb (mem name var_names)
      then collect_names rest (var_names ++ [name])
      else collect_names rest var_names
  end.

(** [rf"\b{re.escape(name)}\b"]: a collected name is made of word
    characters, which [re.escape] leaves as they are. *)
Definition name_pattern (name : str) : pattern :=
  Pattern no_flags (seq [WordB; lits name; WordB]).

(** [f"VAR{idx}"] *)
Definition placeholder (idx : nat) : str :=
  T "VAR" ++ T (DecimalString.NilZero.string_of_uint (Nat.to_uint idx)).

(** The second loop: each name in turn, over the code as the earlier
    substitutions left it. *)
Fixpoint rename_all (idx : nat) (var_names : list str) (code : str) : str :=
  match var_names with
  | [] => code
  | name :: rest =>
      rename_all (S idx) rest (sub (name_pattern name) (placeholder idx) code)
  end.

Definition _normalize_variables (code : str) : str :=
  let var_names := collect_names (finditer_group var_pattern code) [] in
  rename_all 0 var_names code.

Definition normalize (code : str)
    (remove_comments normalize_whitespace normalize_variables : bool) : str :=
  let code := if remove_comments then _remove_comments code else code in
  let code := if normalize_whitespace then _normalize_whitespace code
              else code in
  let code := if normalize_variables then _normalize_variables code
              else code in
  code.

(** ** preprocessing/parser.py *)

(** [Name\s*\(] and [Name\.getInstance\s*\(] *)
Definition call (name : string) : pattern :=
  Pattern no_flags (seq [lit name; star ws; lit "("]).

Definition _API_CALL_PATTERNS : list pattern :=
  map call
    ["Cipher.getInstance"; "MessageDigest.getInstance"; "SecretKeySpec";
     "KeyGenerator.getInstance"; "SecureRandom";
     "KeyPairGenerator.getInstance"; "Mac.getInstance";
     "Signature.getInstance"; "KeyStore.getInstance"; "PBEKeySpec";
     "PBEParameterSpec"; "IvParameterSpec"; "GCMParameterSpec";
     "TrustManagerFactory.getInstance"; "SSLContext.getInstance"]%string.

Definition _CRYPTO_KEYWORDS : list str :=
  map T
    ["AES"; "DES"; "DESede"; "3DES"; "Blowfish"; "RC4"; "RC2"; "ChaCha20";
     "ECB"; "CBC"; "CTR"; "GCM"; "OFB"; "CFB";
     "PKCS5Padding"; "NoPadding"; "PKCS7Padding";
     "MD5"; "SHA-1"; "SHA1"; "SHA-256"; "SHA-512"; "SHA256"; "SHA512";
     "RSA"; "DSA"; "ECDSA"; "ECDH";
     "PBKDF2"; "PBEWith"; "HmacSHA";
     "SecureRandom"; "java.util.Random";
     "TLS"; "SSL"; "TLSv1"; "TLSv1.2"; "TLSv1.3"]%string.

(** [new\s+byte\s*\[\s*\]\s*\{[^}]+\}] *)
Definition byte_array_literal : regex :=
  seq [lit "new"; plus ws; lit "byte"; star ws; lit "["; star ws; lit "]";
       star ws; lit "{"; plus (noneof [IChar "}"]); lit "}"].

(** [\q[A-Za-z0-9/+=]{8,}\q\.getBytes] *)
Definition string_key : regex :=
  seq [chr DQ;
       Rep (oneof [IRange "A" "Z"; IRange "a" "z"; IRange "0" "9";
                   IChar "/"; IChar "+"; IChar "="]) 8 None true;
       chr DQ; lit ".getBytes"].

(** [\q[0-9a-fA-F]{16,}\q] *)
Definition hex_literal : regex :=
  seq [chr DQ;
       Rep (oneof [IRange "0" "9"; IRange "a" "f"; IRange "A" "F"]) 16 None true;
       chr DQ].

Definition _HARDCODED_PATTERNS : list pattern :=
  map (Pattern no_flags) [byte_array_literal; string_key; hex_literal].

(** [for pattern in patterns: matches.extend(re.findall(pattern, code))] *)
Definition findall_each (patterns : list pattern) (code : str) : list str :=
  flat_map (fun p => findall p code) patterns.

Definition _extract_api_calls (code : str) : list str :=
  findall_each _API_CALL_PATTERNS code.

(** [str.upper] *)
Definition str_upper (s : str) : str := map upper s.

Fixpoint starts_with (w s : str) : bool :=
  match w, s with
  | [], _ => true
  | _ :: _, [] => false
  | a :: w', b :: s' => ceqb a b && starts_with w' s'
  end.

(** [w in s] for two strings *)
Fixpoint contains (w s : str) : bool :=
  starts_with w s ||
  match s with
  | [] => false
  | _ :: s' => contains w s'
  end.

Definition _extract_crypto_keywords (code : str) : list str :=
  let code_upper := str_upper code in
  filter (fun kw => contains (str_upper kw) code_upper) _CRYPTO_KEYWORDS.

(** [^\s*import\s+] with [re.MULTILINE] *)
Definition import_line : pattern :=
  Pattern (Flags false false true)
          (seq [Bol; star ws; lit "import"; plus ws]).

(** [\b(?:class|interface|enum)\s+\w+] *)
Definition type_decl : pattern :=
  Pattern no_flags
    (seq [WordB; alts [lit "class"; lit "interface"; lit "enum"];
          plus ws; plus wordc]).

(** [(?:public|private|protected|static|\s)+[\w<>\[\]]+\s+\w+\s*\(] *)
Definition method_sig : pattern :=
  Pattern no_flags
    (seq [plus (alts [lit "public"; lit "private"; lit "protected";
                      lit "static"; ws]);
          plus (oneof [IWord; IChar "<"; IChar ">"; IChar "["; IChar "]"]);
          plus ws; plus wordc; star ws; lit "("]).

Record structural : Type := Structural {
  import_count : nat;
  class_count : nat;
  method_count : nat
}.

Definition _extract_structural_tokens (code : str) : structural :=
  {| import_count := length (findall import_line code);
     class_count := length (findall type_decl code);
     method_count := length (findall method_sig code) |}.

Definition _extract_hardcoded_secrets (code : str) : list str :=
  findall_each _HARDCODED_PATTERNS code.

Record features : Type := Features {
  api_calls : list str;
  crypto_keywords : list str;
  structural_tokens : structural;
  hardcoded_secrets : list str
}.

Definition extract_features (code : str) : features :=
  {| api_calls := _extract_api_calls code;
     crypto_keywords := _extract_crypto_keywords code;
     structural_tokens := _extract_structural_tokens code;
     hardcoded_secrets := _extract_hardcoded_secrets code |}.

(** ** The patterns of the three modules

    The loop of a repetition asks every iteration to read something.
    That is what [re] does as long as the repeated expression cannot
    match the empty text, which holds for every repetition of every
    pattern here ([loops_consume], checked below on [all_patterns]). *)

Fixpoint nullable (r : regex) : bool :=
  match r with
  | Eps | Bol | WordB => true
  | Chr _ => false
  | Cat r1 r2 => nullable r1 && nullable r2
  | Alt r1 r2 => nullable r1 || nullable r2
  | Rep r1 lo _ _ => (lo =? 0) || nullable r1
  | Group r1 => nullable r1
  end.

Fixpoint loops_consume (r : regex) : bool :=
  match r with
  | Eps | Chr _ | Bol | WordB => true
  | Cat r1 r2 | Alt r1 r2 => loops_consume r1 && loops_consume r2
  | Rep r1 _ _ _ => negb (nullable r1) && loops_consume r1
  | Group r1 => loops_consume r1
  end.

Definition all_patterns : list pattern :=
  map snd _RULES
  ++ [block_comment; line_comment; spaces; var_pattern]
  ++ _API_CALL_PATTERNS ++ _HARDCODED_PATTERNS
  ++ [import_line; type_decl; method_sig].

(** ** What a pattern matches

    The matcher is a program; [Matches fl r s e] says in the usual way
    which stretches of text, from position [s] to position [e], the
    expression [r] matches.  The two are related below ([m_matches]). *)

Fixpoint iter (R : pos -> pos -> Prop) (n : nat) (s e : pos) : Prop :=
  match n with
  | 0 => e = s
  | S n' => exists s1, R s s1 /\ iter R n' s1 e
  end.

Definition upto (hi : option nat) (n : nat) : Prop :=
  match hi with None => True | Some h => n <= h end.

Fixpoint Matches (fl : flags) (r : regex) (s e : pos) : Prop :=
  match r with
  | Eps => e = s
  | Chr cs =>
      exists c t, after s = c :: t /\ char_ok fl cs c = true /\ e = advance s
  | Cat r1 r2 => exists s1, Matches fl r1 s s1 /\ Matches fl r2 s1 e
  | Alt r1 r2 => Matches fl r1 s e \/ Matches fl r2 s e
  | Rep r1 lo hi _ =>
      exists n, lo <= n /\ upto hi n /\
        iter (fun a b => Matches fl r1 a b /\ shorter b a = true) n s e
  | Group r1 => exists s1, Matches fl r1 s s1 /\ e = capture s s1
  | Bol => at_bol fl s = true /\ e = s
  | WordB => at_wordb s = true /\ e = s
  end.

(** The words of an expression that looks at nothing but the characters
    it reads (no [^], no [\b], no group): [plain] expressions. *)
Fixpoint plain (r : regex) : bool :=
  match r with
  | Eps | Chr _ => true
  | Cat r1 r2 | Alt r1 r2 => plain r1 && plain r2
  | Rep r1 _ _ _ => plain r1
  | Group _ | Bol | WordB => false
  end.

Fixpoint Lang (fl : flags) (r : regex) (w : str) : Prop :=
  match r with
  | Eps => w = []
  | Chr cs => exists c, w = [c] /\ char_ok fl cs c = true
  | Cat r1 r2 => exists w1 w2, w = w1 ++ w2 /\ Lang fl r1 w1 /\ Lang fl r2 w2
  | Alt r1 r2 => Lang fl r1 w \/ Lang fl r2 w
  | Rep r1 lo hi _ =>
      exists ws, w = concat ws /\ lo <= length ws /\ upto hi (length ws) /\
        Forall (fun x => Lang fl r1 x /\ x <> []) ws
  | Group _ | Bol | WordB => False
  end.

(** From [s], reading the word [w] leads to [e]. *)
Definition reads (s : pos) (w : str) (e : pos) : Prop :=
  after s = w ++ after e /\ before e = rev w ++ before s /\ grp e = grp s.

(** No entry twice, as a test. *)
Fixpoint nodupb (l : list str) : bool :=
  match l with
  | [] => true
  | x :: t => negb (mem x t) && nodupb t
  end.

(** Two texts that differ in the case of their ASCII letters only: every
    other character is the same in both. *)
Definition same_letters (a b : str) : Prop := map lower a = map lower b.









(** The first position from which the continuation [k] succeeds, going
    from left to right. *)
Fixpoint first_from (k : cont) (g : option str) (bef aft : list ascii)
  : option pos :=
  match k (Pos bef aft g) with
  | Some e => Some e
  | None =>
      match aft with
      | [] => None
      | c :: t => first_from k g (c :: bef) t
      end
  end.

(** Where the first closer of a block comment starts in [t], and the
    length of the block comment at the head of a text, if there is one:
    the opener, the text up to the first closer, and the closer. *)
Fixpoint closer_index (t : str) : option nat :=
  match t with
  | [] => None
  | _ :: t' =>
      if starts_with (T "*/") t then Some 0
      else option_map S (closer_index t')
  end.

Definition block_len (aft : str) : option nat :=
  if starts_with (T "/*") aft
  then option_map (fun i => i + 4) (closer_index (skipn 2 aft))
  else None.

(** The position [n] characters further. *)
Definition jump (n : nat) (s : pos) : pos :=
  Pos (rev (firstn n (after s)) ++ before s) (skipn n (after s)) (grp s).

(** The length of the longest prefix whose characters all satisfy [p]. *)
Fixpoint run_len (p : ascii -> bool) (s : str) : nat :=
  match s with
  | [] => 0
  | c :: t => if p c then S (run_len p t) else 0
  end.

Definition is_sp (c : ascii) : bool := ceqb c SP.

(** Every run of spaces brought down to one space; [prev_sp] tells that
    the character before was a space already written. *)
Fixpoint squeeze (prev_sp : bool) (s : str) : str :=
  match s with
  | [] => []
  | c :: t =>
      if is_sp c
      then if prev_sp then squeeze true t else c :: squeeze true t
      else c :: squeeze false t
  end.

(** No two spaces in a row. *)
Fixpoint single_spaced (s : str) : bool :=
  match s with
  | [] => true
  | c :: t =>
      negb (is_sp c && match t with [] => false | d :: _ => is_sp d end)
      && single_spaced t
  end.

Definition head_is (p : ascii -> bool) (s : str) : bool :=
  match s with [] => false | c :: _ => p c end.

(** [l] is a stretch of [s]. *)
Definition substr (l s : str) : Prop := exists pre post, s = pre ++ l ++ post.

(** What a line of normalized text looks like: not empty, no white space
    at either end, no line boundary, no tab, no two spaces in a row. *)
Definition clean (l : str) : Prop :=
  l <> [] /\ strip l = l /\
  Forall (fun c => is_linebreak c = false) l /\
  Forall (fun c => ceqb c TAB = false) l /\
  single_spaced l = true.

(** [re.fullmatch], as a test. *)
Definition full_match (fl : flags) (r : regex) (w : str) : bool :=
  match m fl r (start_pos [] w)
          (fun e => match after e with [] => Some e | _ :: _ => None end)
  with
  | Some _ => true
  | None => false
  end.

(** The words of [byte_array_literal]. *)
Definition byte_array_word (w : str) : Prop :=
  exists w1 w2 w3 w4 body,
    w = T "new" ++ w1 ++ T "byte" ++ w2 ++ T "[" ++ w3 ++ T "]" ++ w4
          ++ T "{" ++ body ++ T "}" /\
    w1 <> [] /\
    Forall (fun x => is_space x = true) w1 /\
    Forall (fun x => is_space x = true) w2 /\
    Forall (fun x => is_space x = true) w3 /\
    Forall (fun x => is_space x = true) w4 /\
    body <> [] /\
    Forall (fun x => negb (ceqb x "}") = true) body.

Definition byte_array_pattern : pattern := Pattern no_flags byte_array_literal.

(** The scenario of the specification. *)
Definition example_literal : str := T "new byte[] {0x01,0x02}".

Definition example_key : str :=
  T "new SecretKeySpec(" ++ example_literal ++ T ", " ++ [DQ] ++ T "AES"
    ++ [DQ] ++ T ")".

(** * Further properties: definitions *)

(** Whether the rule called [name] is among the triggered rules. *)
Definition triggers (name : string) (code : str) : Prop :=
  In name (triggered_rules (predict_detailed code)).

Definition has_keyword (kw : string) (code : str) : Prop :=
  In (T kw) (crypto_keywords (extract_features code)).

(** A text of ASCII characters only.  On such a text [re.IGNORECASE],
    [str.upper] and [str.lower] are the change of case of the letters A to
    Z, one character for one character. *)
Definition is_ascii (c : ascii) : bool := code c <? 128.

Definition ascii_text (s : str) : Prop := forallb is_ascii s = true.


(** ** datasets/cryptoapi_bench.py *)

(** [str.lower] *)
Definition str_lower (s : str) : str := map lower s.

Definition insecure_patterns : list str :=
  map T ["incorrect"; "misuse"; "insecure"; "bad"; "broken"; "weak"]%string.

Definition secure_patterns : list str :=
  map T ["correct"; "secure"; "good"; "safe"; "proper"]%string.

(** [for pat in patterns: if pat in name_lower: return ...]: whether the
    loop returns. *)
Fixpoint any_in (patterns : list str) (name_lower : str) : bool :=
  match patterns with
  | [] => false
  | pat :: rest =>
      if contains pat name_lower then true else any_in rest name_lower
  end.

Definition _infer_label (filename : str) : option string :=
  let name_lower := str_lower filename in
  if any_in insecure_patterns name_lower then Some "insecure"%string
  else if any_in secure_patterns name_lower then Some "secure"%string
  else None.

(** ** datasets/owasp_benchmark.py *)

Definition CRYPTO_CWES : list str := map T ["327"; "328"; "330"; "338"]%string.

(** [BenchmarkTest(\d+)] *)
Definition benchmark_test : pattern :=
  Pattern no_flags (seq [lit "BenchmarkTest"; Group (plus digit)]).

(** [match.group(1) if match else None] *)
Definition _extract_test_number (name : str) : option str :=
  match search_from benchmark_test [] name with
  | Some (_, e) => grp e
  | None => None
  end.

Definition _infer_label_from_filename (filename : str) : option string :=
  let name_lower := str_lower filename in
  if contains (T "insecure") name_lower || contains (T "bad") name_lower
  then Some "insecure"%string
  else if contains (T "secure") name_lower || contains (T "good") name_lower
  then Some "secure"%string
  else None.

(** The digits that a match of [benchmark_test] at the head of [aft]
    captures, if there is such a match. *)
Definition test_number_at (aft : str) : option str :=
  if starts_with (T "BenchmarkTest") aft
  then let rest := skipn 13 aft in
       let n := run_len is_digit rest in
       if 1 <=? n then Some (firstn n rest) else None
  else None.

(** A [dict] with string keys, as the list of its items, the latest
    assignment first: [get] and [in] see the first item of a key. *)
Definition dict (V : Type) : Type := list (str * V).

Fixpoint dict_get (V : Type) (d : dict V) (key : str) : option V :=
  match d with
  | [] => None
  | (k, v) :: rest => if str_eqb k key then Some v else dict_get rest key
  end.

(** [d[key] = v] *)
Definition dict_set (V : Type) (d : dict V) (key : str) (v : V) : dict V :=
  (key, v) :: d.

(** A row of [csv.DictReader]: the value of a column is a text, or [None]
    when the line is too short to have the column. *)
Definition row : Type := dict (option str).

(** [row.get(key, default)] *)
Definition row_get (r : row) (key : string) (default : option str)
  : option str :=
  match dict_get r (T key) with
  | Some v => v
  | None => default
  end.

(** [str(cwe_raw)] *)
Definition to_str (v : option str) : str :=
  match v with
  | Some s => s
  | None => T "None"
  end.

(** The body of the loop of [_load_expected_results] for one row.  The
    result is [None] when the body raises: [re.search] on a name that is
    [None], or [strip] on a value that is [None]. *)
Definition load_row (r : row) (labels_map : dict bool) (cwe_map : dict str)
  : option (dict bool * dict str) :=
  match row_get r "# test name" (row_get r "test name" (Some [])) with
  | None => None
  | Some test_name =>
      match _extract_test_number test_name with
      | None => Some (labels_map, cwe_map)
      | Some test_num =>
          match row_get r "real vulnerability" (Some []) with
          | None => None
          | Some v =>
              let is_vuln_str := str_lower (strip v) in
              let labels_map :=
                dict_set labels_map test_num (str_eqb is_vuln_str (T "true")) in
              let cwe_raw := row_get r "CWE" (row_get r "cwe" (Some [])) in
              let cwe_map := dict_set cwe_map test_num (strip (to_str cwe_raw)) in
              Some (labels_map, cwe_map)
          end
      end
  end.

(** The loop over the rows; an exception ends it, and the two maps are
    returned as they are at that point. *)
Fixpoint load_rows (rows : list row) (labels_map : dict bool)
    (cwe_map : dict str) : dict bool * dict str :=
  match rows with
  | [] => (labels_map, cwe_map)
  | r :: rest =>
      match load_row r labels_map cwe_map with
      | Some (labels_map', cwe_map') => load_rows rest labels_map' cwe_map'
      | None => (labels_map, cwe_map)
      end
  end.

(** [_load_expected_results], from the rows that the reader yields for the
    sheet of expected results; no sheet is no row. *)
Definition _load_expected_results (rows : list row) : dict bool * dict str :=
  load_rows rows [] [].

(** The body of the loop of [load_dataset] for one file name, up to the
    reading of the file: the label of the sample, or [None] when the file
    is passed over. *)
Definition sample_label (crypto_only : bool) (labels_map : dict bool)
    (cwe_map : dict str) (fname : str) : option string :=
  match _extract_test_number fname with
  | None => None
  | Some test_num =>
      if crypto_only
         && match cwe_map with [] => false | _ :: _ => true end
         && match dict_get cwe_map test_num with
            | Some cwe => nonempty cwe && negb (mem cwe CRYPTO_CWES)
            | None => false
            end
      then None
      else
        match dict_get labels_map test_num with
        | Some is_vulnerable =>
            Some (if is_vulnerable then "insecure" else "secure")%string
        | None => _infer_label_from_filename fname
        end
  end.

(** ** Further notions for the normalizer *)

(** The characters of a text that are not white space, in their order. *)
Definition visible (s : str) : str := filter (fun c => negb (is_space c)) s.

(** A text that neither starts nor ends with white space, and in which no
    line feed has white space beside it. *)
Definition tight (s : str) : Prop :=
  head_is is_space s = false /\ head_is is_space (rev s) = false /\
  forall c, is_space c = true -> ~ substr [LF; c] s /\ ~ substr [c; LF] s.

(** The text without its line comments, read from left to right:
    [in_comment] tells that the characters are inside a comment, which
    ends before the next line feed. *)
Fixpoint strip_line_comments (in_comment : bool) (s : str) : str :=
  match s with
  | [] => []
  | c :: t =>
      if in_comment
      then if ceqb c LF then c :: strip_line_comments false t
           else strip_line_comments true t
      else if starts_with (T "//") s then strip_line_comments true t
           else c :: strip_line_comments false t
  end.

Definition not_lf (c : ascii) : bool := negb (ceqb c LF).

(** [a] is [b] with some of its characters left out. *)
Inductive subseq : str -> str -> Prop :=
| subseq_nil : subseq [] []
| subseq_drop (c : ascii) (a b : str) : subseq a b -> subseq a (c :: b)
| subseq_keep (c : ascii) (a b : str) : subseq a b -> subseq (c :: a) (c :: b).

(** [str.split()]: the words of a text, the stretches between runs of
    white space. *)
Fixpoint words (s : str) : list str :=
  match s with
  | [] => []
  | c :: t =>
      if is_space c then words t
      else if head_is is_space t then [c] :: words t
           else match words t with
                | [] => [[c]]
                | w :: ws => (c :: w) :: ws
                end
  end.

(** ** Further notions for the feature extractor *)

(** [[A-Za-z0-9/+=]] and [[0-9a-fA-F]] *)
Definition key_char (c : ascii) : bool :=
  is_upper c || is_lower c || is_digit c
  || ceqb c "/" || ceqb c "+" || ceqb c "=".

Definition hex_char (c : ascii) : bool :=
  is_digit c || between 97 102 c || between 65 70 c.

(** ** Further notions for the rules *)

(** * Properties *)

(** ** The rule engine: [predict] against [predict_detailed] *)

Section RuleLoops.

Variable code : str.

Definition fires (r : string * pattern) : bool := search (snd r) code.

Lemma triggered_by_filter (rules : list (string * pattern))
    (acc : list string) :
  triggered_by rules code acc = acc ++ map fst (filter fires rules).
Proof.
  revert acc.
  induction rules as [|[name p] rest IH]; intros acc; simpl.
  - now rewrite app_nil_r.
  - unfold fires at 1; simpl.
    destruct (search p code); simpl; rewrite IH.
    + now rewrite <- app_assoc.
    + reflexivity.
Qed.

Lemma predict_rules_existsb (rules : list (string * pattern)) :
  predict_rules rules code
  = if existsb fires rules then "insecure"%string else "secure"%string.
Proof.
  induction rules as [|[name p] rest IH]; simpl; [reflexivity|].
  unfold fires at 1; simpl.
  destruct (search p code); simpl; [reflexivity | exact IH].
Qed.

Lemma filter_nil_existsb (rules : list (string * pattern)) :
  filter fires rules = [] <-> existsb fires rules = false.
Proof.
  induction rules as [|r rest IH]; simpl; [tauto|].
  destruct (fires r); simpl.
  - split; discriminate.
  - exact IH.
Qed.

End RuleLoops.

(** C1.  [predict] and [predict_detailed] give the same label on every
    snippet; the label is "insecure" exactly when the list of triggered
    rules is not empty, which is exactly when one of the ten registered
    patterns matches; otherwise the label is "secure" and the list is
    empty. *)
Theorem predict_agrees_with_predict_detailed (S : str) :
  label (predict_detailed S) = predict S /\
  (predict S = "insecure"%string
   <-> triggered_rules (predict_detailed S) <> []) /\
  (predict S = "insecure"%string
   <-> exists name p, In (name, p) _RULES /\ search p S = true) /\
  (predict S <> "insecure"%string
   -> predict S = "secure"%string /\
      label (predict_detailed S) = "secure"%string /\
      triggered_rules (predict_detailed S) = []) /\
  length _RULES = 10.
Proof.
  unfold predict_detailed, predict; cbn [label triggered_rules].
  rewrite triggered_by_filter, predict_rules_existsb. cbn [app].
  assert (Hex : existsb (fires S) _RULES = true
                <-> exists name p, In (name, p) _RULES /\ search p S = true).
  { rewrite existsb_exists. split.
    - intros [[name p] [Hin Hf]]. now exists name, p.
    - intros (name & p & Hin & Hf). now exists (name, p). }
  destruct (existsb (fires S) _RULES) eqn:E.
  - destruct (filter (fires S) _RULES) as [|r rest] eqn:F.
    + apply filter_nil_existsb in F. congruence.
    + cbn [map]. repeat split; try discriminate; try tauto.
      all: intros H; first [ now apply Hex | now contradiction H ].
  - assert (F : filter (fires S) _RULES = [])
      by now apply filter_nil_existsb.
    rewrite F. cbn [map]. repeat split; try discriminate; try tauto.
    intros H. apply Hex in H. discriminate.
Qed.

(** ** The scenarios of the specification, by evaluation *)

Example ecb_scenario :
  predict_detailed
    (T "Cipher.getInstance(" ++ [DQ] ++ T "AES/ECB/PKCS5Padding" ++ [DQ] ++ T ")")
  = {| label := "insecure"; triggered_rules := ["ecb_mode"%string] |}.
Proof. vm_compute. reflexivity. Qed.

Example sha256_scenario :
  predict_detailed
    (T "MessageDigest.getInstance(" ++ [DQ] ++ T "SHA-256" ++ [DQ] ++ T ")")
  = {| label := "secure"; triggered_rules := [] |}.
Proof. vm_compute. reflexivity. Qed.

Example des_scenarios :
  map (fun alg =>
         search (Pattern ignorecase des_usage)
                (T "Cipher.getInstance(" ++ [DQ] ++ T alg ++ [DQ] ++ T ")"))
      ["DES"; "DES/CBC/PKCS5Padding"; "DESede/CBC/PKCS5Padding";
       "desEDE"; "AES"]%string
  = [true; true; false; false; false].
Proof. vm_compute. reflexivity. Qed.

Example remove_comments_scenario :
  _remove_comments
    (T "int a; /* one" ++ [LF] ++ T "two */ int b; // three" ++ [LF] ++ T "int c;")
  = T "int a;  int b; " ++ [LF] ++ T "int c;".
Proof. vm_compute. reflexivity. Qed.

Example normalize_whitespace_scenario :
  _normalize_whitespace
    ([TAB] ++ T "int   a;  " ++ [LF; LF] ++ T "   " ++ [CR; LF] ++ T " b  c ")
  = T "int a;" ++ [LF] ++ T "b c".
Proof. vm_compute. reflexivity. Qed.

Example normalize_variables_scenario :
  _normalize_variables (T "int total = 0; String key = k; total = total + n;")
  = T "int VAR0 = 0; String key = k; VAR0 = VAR0 + n;".
Proof. vm_compute. reflexivity. Qed.

Example extract_features_scenario :
  extract_features
    (T "import javax.crypto.Cipher;" ++ [LF]
       ++ T "class A { void f() { Cipher.getInstance(" ++ [DQ] ++ T "AES"
       ++ [DQ] ++ T "); } }")
  = {| api_calls := [T "Cipher.getInstance("];
       crypto_keywords := [T "AES"];
       structural_tokens :=
         {| import_count := 1; class_count := 1; method_count := 1 |};
       hardcoded_secrets := [] |}.
Proof. vm_compute. reflexivity. Qed.

(** ** Every repetition of every pattern reads something *)

Lemma loops_consume_everywhere :
  forallb (fun p => loops_consume (pat_re p)) all_patterns = true.
Proof. vm_compute. reflexivity. Qed.

Lemma loops_consume_name (name : str) :
  loops_consume (pat_re (name_pattern name)) = true.
Proof.
  unfold name_pattern; cbn [pat_re seq fold_right loops_consume andb].
  rewrite andb_true_r. induction name as [|c t IH]; [reflexivity | exact IH].
Qed.

(** ** The matcher finds a match exactly when there is one *)

Lemma orelse_some (a b : option pos) :
  match a with Some e => Some e | None => b end <> None
  <-> a <> None \/ b <> None.
Proof.
  destruct a as [e|].
  - split; intros _; [left|]; discriminate.
  - split; [now right | intros [H|H]; [now contradiction H | exact H]].
Qed.

Lemma shorter_lt (a b : pos) :
  shorter b a = true <-> length (after b) < length (after a).
Proof. unfold shorter. apply Nat.ltb_lt. Qed.

Section MatcherCorrect.

Variable fl : flags.

Lemma rep_loop_matches (body : pos -> cont -> option pos)
    (R : pos -> pos -> Prop) (lo : nat) (hi : option nat) (g : bool)
    (k : cont) :
  (forall s k', body s k' <> None <-> exists e, R s e /\ k' e <> None) ->
  forall fuel i s, length (after s) <= fuel -> upto hi i ->
    (rep_loop body lo hi g k fuel i s <> None <->
     exists n e, lo <= i + n /\ upto hi (i + n) /\
       iter (fun a b => R a b /\ shorter b a = true) n s e /\ k e <> None).
Proof.
  intros Hbody.
  induction fuel as [|fuel IH]; intros i s Hlen Hhi.
  - (* nothing is left to read: no further iteration *)
    assert (Hstop : forall n e,
               iter (fun a b => R a b /\ shorter b a = true) n s e -> n = 0).
    { intros [|n] e Hit; simpl in Hit; [reflexivity|].
      destruct Hit as (s1 & [_ Hsh] & _). apply shorter_lt in Hsh. lia. }
    cbn [rep_loop]. split.
    + intros H. exists 0, s. rewrite Nat.add_0_r.
      destruct (i <? lo) eqn:Elo; [congruence|].
      apply Nat.ltb_ge in Elo.
      assert (Hk : k s <> None) by (destruct g; destruct (k s); congruence).
      repeat split; try assumption; reflexivity.
    + intros (n & e & Hlo & _ & Hit & Hk).
      pose proof (Hstop _ _ Hit) as ->. simpl in Hit. subst e.
      rewrite Nat.add_0_r in Hlo.
      apply Nat.ltb_ge in Hlo. rewrite Hlo.
      destruct g; destruct (k s); congruence.
  - cbn [rep_loop].
    set (more := if allows hi i
                 then body s (fun s' =>
                        if shorter s' s
                        then rep_loop body lo hi g k fuel (S i) s'
                        else None)
                 else None).
    assert (Hmore : more <> None <->
              exists n e, lo <= i + S n /\ upto hi (i + S n) /\
                iter (fun a b => R a b /\ shorter b a = true) (S n) s e /\
                k e <> None).
    { unfold more. split.
      - destruct (allows hi i) eqn:Eal; [|congruence].
        intros H. apply Hbody in H. destruct H as (s1 & HR & H).
        destruct (shorter s1 s) eqn:Esh; [|congruence].
        pose proof (proj1 (shorter_lt _ _) Esh) as Hlt.
        apply IH in H; [| lia |].
        + destruct H as (n & e & Hlo & Hup & Hit & Hk).
          exists n, e. rewrite Nat.add_succ_r.
          repeat split; try assumption. simpl. exists s1. now repeat split.
        + unfold allows, upto in *. destruct hi as [h|]; [|exact I].
          apply Nat.ltb_lt in Eal. lia.
      - intros (n & e & Hlo & Hup & Hit & Hk).
        simpl in Hit. destruct Hit as (s1 & [HR Hsh] & Hit).
        assert (Eal : allows hi i = true).
        { unfold allows, upto in *. destruct hi as [h|]; [|reflexivity].
          apply Nat.ltb_lt. lia. }
        rewrite Eal. apply Hbody. exists s1. split; [exact HR|].
        rewrite Hsh. apply shorter_lt in Hsh.
        apply IH; [lia | |].
        + unfold upto in *. destruct hi as [h|]; [lia | exact I].
        + exists n, e. rewrite Nat.add_succ_r in Hlo, Hup. now repeat split. }
    assert (Hzero : forall e, iter (fun a b => R a b /\ shorter b a = true) 0 s e
                              <-> e = s) by (intros; simpl; tauto).
    destruct (i <? lo) eqn:Elo.
    + apply Nat.ltb_lt in Elo. rewrite Hmore. split.
      * intros (n & e & H). now exists (S n), e.
      * intros ([|n] & e & Hlo & H); [lia|]. now exists n, e.
    + apply Nat.ltb_ge in Elo.
      assert (Hboth : more <> None \/ k s <> None <->
                exists n e, lo <= i + n /\ upto hi (i + n) /\
                  iter (fun a b => R a b /\ shorter b a = true) n s e /\
                  k e <> None).
      { rewrite Hmore. split.
        - intros [(n & e & H)|H]; [now exists (S n), e|].
          exists 0, s. rewrite Nat.add_0_r. now repeat split.
        - intros ([|n] & e & Hlo & Hup & Hit & Hk).
          + right. simpl in Hit. now subst e.
          + left. now exists n, e. }
      destruct g; rewrite orelse_some; rewrite <- Hboth; tauto.
Qed.

(** The matcher succeeds exactly when the expression matches some stretch
    of text from [s] after which the continuation succeeds. *)
Theorem m_matches (r : regex) :
  forall s k, m fl r s k <> None
              <-> exists e, Matches fl r s e /\ k e <> None.
Proof.
  induction r as [|cs|r1 IH1 r2 IH2|r1 IH1 r2 IH2|r1 IH1 lo hi g|r1 IH1| |];
    intros s k; cbn [m Matches].
  - split; [intros H; now exists s | now intros (e & -> & H)].
  - destruct (after s) as [|c t] eqn:Ea.
    + split; [congruence | now intros (e & (c & t & H & _) & _)].
    + destruct (char_ok fl cs c) eqn:Eok.
      * split.
        -- intros H. exists (advance s). split; [|exact H]. now exists c, t.
        -- now intros (e & (c' & t' & _ & _ & ->) & H).
      * split; [congruence|].
        intros (e & (c' & t' & H & Hok & _) & _).
        injection H as <- <-. congruence.
  - rewrite IH1. split.
    + intros (s1 & H1 & H). apply IH2 in H. destruct H as (e & H2 & H).
      exists e. split; [now exists s1 | exact H].
    + intros (e & (s1 & H1 & H2) & H). exists s1. split; [exact H1|].
      apply IH2. now exists e.
  - rewrite orelse_some, IH1, IH2. split.
    + intros [(e & H & Hk)|(e & H & Hk)]; exists e; tauto.
    + intros (e & [H|H] & Hk); [left | right]; now exists e.
  - rewrite (@rep_loop_matches (m fl r1) (Matches fl r1) lo hi g k IH1);
      [| lia | destruct hi; simpl; [lia | exact I]].
    cbn [Nat.add]. split.
    + intros (n & e & Hlo & Hup & Hit & Hk). exists e. split; [|exact Hk].
      now exists n.
    + intros (e & (n & Hlo & Hup & Hit) & Hk). now exists n, e.
  - rewrite IH1. split.
    + intros (s1 & H1 & H). exists (capture s s1). split; [|exact H].
      now exists s1.
    + intros (e & (s1 & H1 & ->) & H). now exists s1.
  - destruct (at_bol fl s).
    + split; [intros H; now exists s | now intros (e & [_ ->] & H)].
    + split; [congruence | now intros (e & [H _] & _)].
  - destruct (at_wordb s).
    + split; [intros H; now exists s | now intros (e & [_ ->] & H)].
    + split; [congruence | now intros (e & [H _] & _)].
Qed.

End MatcherCorrect.

(** ** Plain expressions as sets of words *)

Lemma pos_eq (a b : pos) :
  before a = before b -> after a = after b -> grp a = grp b -> a = b.
Proof. destruct a, b; simpl; intros -> -> ->; reflexivity. Qed.

Lemma reads_nil (s e : pos) : reads s [] e <-> e = s.
Proof.
  unfold reads; simpl. split.
  - intros (Ha & Hb & Hg). now apply pos_eq.
  - now intros ->.
Qed.

Lemma reads_app (s e : pos) (w1 w2 : str) :
  reads s (w1 ++ w2) e <-> exists s1, reads s w1 s1 /\ reads s1 w2 e.
Proof.
  unfold reads. split.
  - intros (Ha & Hb & Hg).
    exists (Pos (rev w1 ++ before s) (w2 ++ after e) (grp s)); simpl.
    rewrite Ha, Hb, rev_app_distr, <- !app_assoc. now repeat split.
  - intros (s1 & (Ha1 & Hb1 & Hg1) & (Ha2 & Hb2 & Hg2)).
    rewrite Ha1, Ha2, Hb2, Hb1, Hg2, Hg1, rev_app_distr, <- !app_assoc.
    now repeat split.
Qed.

Lemma reads_one (s e : pos) (c : ascii) :
  reads s [c] e <-> (exists t, after s = c :: t) /\ e = advance s.
Proof.
  unfold reads, advance; simpl. split.
  - intros (Ha & Hb & Hg). split; [now exists (after e)|].
    rewrite Ha. now apply pos_eq.
  - intros [(t & Ha) ->]. rewrite Ha; simpl. now repeat split.
Qed.

Lemma reads_length (s e : pos) (w : str) :
  reads s w e -> length (after s) = length w + length (after e).
Proof. intros (Ha & _). now rewrite Ha, length_app. Qed.

Lemma reads_shorter (s e : pos) (w : str) :
  reads s w e -> (shorter e s = true <-> w <> []).
Proof.
  intros H. apply reads_length in H. rewrite shorter_lt.
  destruct w; simpl in *; split; intros; try congruence; lia.
Qed.

Section PlainWords.

Variable fl : flags.

Lemma iter_words (r : regex) :
  (forall s e, Matches fl r s e <-> exists w, Lang fl r w /\ reads s w e) ->
  forall n s e,
    iter (fun a b => Matches fl r a b /\ shorter b a = true) n s e
    <-> exists ws, length ws = n /\
          Forall (fun x => Lang fl r x /\ x <> []) ws /\
          reads s (concat ws) e.
Proof.
  intros Hr. induction n as [|n IH]; intros s e; simpl.
  - split.
    + intros ->. exists []. simpl.
      split; [reflexivity | split; [constructor | now apply reads_nil]].
    + intros (ws & Hlen & _ & Hrd). apply length_zero_iff_nil in Hlen.
      subst ws. now apply reads_nil.
  - split.
    + intros (s1 & [Hm Hsh] & Hit). apply IH in Hit.
      destruct Hit as (ws & Hlen & Hall & Hrd).
      apply Hr in Hm. destruct Hm as (w & Hw & Hrw).
      exists (w :: ws). simpl. split; [now rewrite Hlen | split].
      * constructor; [|exact Hall]. split; [exact Hw|].
        now apply (reads_shorter Hrw).
      * apply reads_app. now exists s1.
    + intros ([|w ws] & Hlen & Hall & Hrd); [discriminate|].
      simpl in *. apply reads_app in Hrd. destruct Hrd as (s1 & Hrw & Hrd).
      inversion Hall as [|? ? [Hw Hne] Hall']; subst.
      exists s1. split.
      * split; [apply Hr; now exists w | now apply (reads_shorter Hrw)].
      * apply IH. exists ws.
        split; [lia | split; [exact Hall' | exact Hrd]].
Qed.

(** A plain expression matches from [s] to [e] exactly when the text in
    between is one of its words. *)
Theorem plain_matches (r : regex) :
  plain r = true ->
  forall s e, Matches fl r s e <-> exists w, Lang fl r w /\ reads s w e.
Proof.
  induction r as [|cs|r1 IH1 r2 IH2|r1 IH1 r2 IH2|r1 IH1 lo hi g|r1 IH1| |];
    cbn [plain]; intros Hp s e; try discriminate; cbn [Matches Lang].
  - split.
    + intros ->. exists []. split; [reflexivity | now apply reads_nil].
    + intros (w & -> & H). now apply reads_nil.
  - split.
    + intros (c & t & Ha & Hok & ->). exists [c]. split; [now exists c|].
      apply reads_one. split; [now exists t | reflexivity].
    + intros (w & (c & -> & Hok) & H). apply reads_one in H.
      destruct H as [(t & Ha) ->]. now exists c, t.
  - apply andb_prop in Hp. destruct Hp as [Hp1 Hp2].
    split.
    + intros (s1 & H1 & H2).
      apply (IH1 Hp1) in H1. apply (IH2 Hp2) in H2.
      destruct H1 as (w1 & Hw1 & Hr1). destruct H2 as (w2 & Hw2 & Hr2).
      exists (w1 ++ w2). split; [now exists w1, w2|].
      apply reads_app. now exists s1.
    + intros (w & (w1 & w2 & -> & Hw1 & Hw2) & H).
      apply reads_app in H. destruct H as (s1 & Hr1 & Hr2).
      exists s1. split; [apply (IH1 Hp1); now exists w1
                        | apply (IH2 Hp2); now exists w2].
  - apply andb_prop in Hp. destruct Hp as [Hp1 Hp2].
    rewrite (IH1 Hp1), (IH2 Hp2). split.
    + intros [(w & Hw & H)|(w & Hw & H)]; exists w; tauto.
    + intros (w & [Hw|Hw] & H); [left | right]; now exists w.
  - split.
    + intros (n & Hlo & Hup & Hit).
      apply (iter_words r1 (IH1 Hp)) in Hit.
      destruct Hit as (ws & Hlen & Hall & Hrd). subst n.
      exists (concat ws). split; [now exists ws | exact Hrd].
    + intros (w & (ws & -> & Hlo & Hup & Hall) & Hrd).
      exists (length ws). split; [exact Hlo | split; [exact Hup|]].
      apply (iter_words r1 (IH1 Hp)). now exists ws.
Qed.

End PlainWords.

(** ** [search] finds a match exactly when there is one *)

Lemma match_at_some (p : pattern) (s : pos) :
  match_at p false s <> None
  <-> exists e, Matches (pat_flags p) (pat_re p) s e.
Proof.
  unfold match_at. rewrite m_matches. simpl. split.
  - intros (e & H & _). now exists e.
  - intros (e & H). exists e. split; [exact H | discriminate].
Qed.

Lemma search_from_some (p : pattern) (aft bef : list ascii) :
  search_from p bef aft <> None
  <-> exists pre suf e, aft = pre ++ suf /\
        Matches (pat_flags p) (pat_re p) (start_pos (rev pre ++ bef) suf) e.
Proof.
  revert bef. induction aft as [|c t IH]; intros bef; cbn [search_from].
  - destruct (match_at p false (start_pos bef [])) as [e|] eqn:E.
    + split; [intros _ | discriminate].
      assert (H : match_at p false (start_pos bef []) <> None) by congruence.
      apply match_at_some in H. destruct H as (e' & H).
      now exists [], [], e'.
    + split; [congruence|]. intros (pre & suf & e & Heq & H).
      symmetry in Heq. apply app_eq_nil in Heq. destruct Heq as [-> ->].
      simpl in H.
      assert (H' : match_at p false (start_pos bef []) <> None)
        by (apply match_at_some; now exists e).
      congruence.
  - destruct (match_at p false (start_pos bef (c :: t))) as [e|] eqn:E.
    + split; [intros _ | discriminate].
      assert (H : match_at p false (start_pos bef (c :: t)) <> None)
        by congruence.
      apply match_at_some in H. destruct H as (e' & H).
      now exists [], (c :: t), e'.
    + rewrite IH. split.
      * intros (pre & suf & e & -> & H). exists (c :: pre), suf, e.
        split; [reflexivity|]. simpl. now rewrite <- app_assoc.
      * intros ([|c' pre] & suf & e & Heq & H).
        -- simpl in *. subst suf.
           assert (H' : match_at p false (start_pos bef (c :: t)) <> None)
             by (apply match_at_some; now exists e).
           congruence.
        -- injection Heq as <- ->. exists pre, suf, e.
           split; [reflexivity|]. simpl in H. now rewrite <- app_assoc in H.
Qed.

(** [pattern.search(code)] is true exactly when the expression matches
    somewhere in the text. *)
Theorem search_matches (p : pattern) (code : str) :
  search p code = true
  <-> exists pre suf e, code = pre ++ suf /\
        Matches (pat_flags p) (pat_re p) (start_pos (rev pre) suf) e.
Proof.
  unfold search.
  pose proof (search_from_some p code []) as H.
  destruct (search_from p [] code) as [x|].
  - split; [intros _ | reflexivity].
    destruct (proj1 H) as (pre & suf & e & Heq & Hm); [discriminate|].
    exists pre, suf, e. now rewrite app_nil_r in Hm.
  - split; [discriminate|]. intros (pre & suf & e & Heq & Hm).
    exfalso. apply (proj2 H); [|reflexivity].
    exists pre, suf, e. now rewrite app_nil_r.
Qed.

(** For a plain expression: exactly when some stretch of the text is one
    of its words. *)
Theorem search_plain (p : pattern) (code : str) :
  plain (pat_re p) = true ->
  (search p code = true
   <-> exists pre w post, code = pre ++ w ++ post /\
         Lang (pat_flags p) (pat_re p) w).
Proof.
  intros Hp. rewrite search_matches. split.
  - intros (pre & suf & e & -> & Hm).
    apply (plain_matches _ _ Hp) in Hm. destruct Hm as (w & Hw & Hr).
    destruct Hr as (Ha & _). simpl in Ha. subst suf.
    now exists pre, w, (after e).
  - intros (pre & w & post & -> & Hw).
    exists pre, (w ++ post), (Pos (rev w ++ rev pre) post None).
    split; [reflexivity|]. apply (plain_matches _ _ Hp).
    exists w. split; [exact Hw|]. unfold reads; simpl. now repeat split.
Qed.

(** ** What the matcher returns is a match *)

Section MatcherSound.

Variable fl : flags.

Lemma rep_loop_sound (body : pos -> cont -> option pos)
    (R : pos -> pos -> Prop) (lo : nat) (hi : option nat) (g : bool)
    (k : cont) :
  (forall s k' x, body s k' = Some x -> exists e, R s e /\ k' e = Some x) ->
  forall fuel i s x,
    upto hi i ->
    rep_loop body lo hi g k fuel i s = Some x ->
    exists n e, lo <= i + n /\ upto hi (i + n) /\
      iter (fun a b => R a b /\ shorter b a = true) n s e /\ k e = Some x.
Proof.
  intros Hbody.
  assert (Hstop : forall i s x, upto hi i -> (i <? lo) = false ->
            k s = Some x ->
            exists n e, lo <= i + n /\ upto hi (i + n) /\
              iter (fun a b => R a b /\ shorter b a = true) n s e /\
              k e = Some x).
  { intros i s x Hhi Hlo Hk. exists 0, s. rewrite Nat.add_0_r.
    apply Nat.ltb_ge in Hlo. split; [exact Hlo|]. split; [exact Hhi|].
    split; [reflexivity | exact Hk]. }
  induction fuel as [|fuel IH]; intros i s x Hhi H; cbn [rep_loop] in H.
  - destruct (i <? lo) eqn:Elo; [discriminate|].
    apply (Hstop i s x Hhi Elo).
    destruct g; [exact H | now destruct (k s)].
  - set (more := if allows hi i
                 then body s (fun s' =>
                        if shorter s' s
                        then rep_loop body lo hi g k fuel (S i) s'
                        else None)
                 else None) in H.
    assert (Hmore : more = Some x ->
              exists n e, lo <= i + n /\ upto hi (i + n) /\
                iter (fun a b => R a b /\ shorter b a = true) n s e /\
                k e = Some x).
    { unfold more. destruct (allows hi i) eqn:Eal; [|discriminate].
      intros Hb. apply Hbody in Hb. destruct Hb as (s1 & HR & Hb).
      destruct (shorter s1 s) eqn:Esh; [|discriminate].
      apply IH in Hb.
      - destruct Hb as (n & e & Hlo & Hup & Hit & Hk).
        exists (S n), e. rewrite Nat.add_succ_r.
        split; [exact Hlo|]. split; [exact Hup|]. split; [|exact Hk].
        simpl. exists s1. now repeat split.
      - unfold allows, upto in *. destruct hi as [h|]; [|exact I].
        apply Nat.ltb_lt in Eal. lia. }
    destruct (i <? lo) eqn:Elo; [now apply Hmore|].
    destruct g.
    + destruct more as [y|]; [apply Hmore; congruence|].
      now apply (Hstop i s x Hhi Elo).
    + destruct (k s) as [y|] eqn:Ek; [|now apply Hmore].
      apply (Hstop i s x Hhi Elo). congruence.
Qed.

Theorem m_sound (r : regex) :
  forall s k x, m fl r s k = Some x ->
                exists e, Matches fl r s e /\ k e = Some x.
Proof.
  induction r as [|cs|r1 IH1 r2 IH2|r1 IH1 r2 IH2|r1 IH1 lo hi g|r1 IH1| |];
    intros s k x H; cbn [m Matches] in *.
  - now exists s.
  - destruct (after s) as [|c t] eqn:Ea; [discriminate|].
    destruct (char_ok fl cs c) eqn:Eok; [|discriminate].
    exists (advance s). split; [now exists c, t | exact H].
  - apply IH1 in H. destruct H as (s1 & H1 & H).
    apply IH2 in H. destruct H as (e & H2 & H).
    exists e. split; [now exists s1 | exact H].
  - destruct (m fl r1 s k) as [y|] eqn:E1.
    + injection H as <-. apply IH1 in E1. destruct E1 as (e & H1 & Hk).
      exists e. tauto.
    + apply IH2 in H. destruct H as (e & H2 & Hk). exists e. tauto.
  - apply (@rep_loop_sound (m fl r1) (Matches fl r1) lo hi g k IH1) in H.
    + destruct H as (n & e & Hlo & Hup & Hit & Hk).
      exists e. split; [now exists n | exact Hk].
    + destruct hi; simpl; [lia | exact I].
  - apply IH1 in H. destruct H as (s1 & H1 & H).
    exists (capture s s1). split; [now exists s1 | exact H].
  - destruct (at_bol fl s) eqn:E; [|discriminate]. now exists s.
  - destruct (at_wordb s) eqn:E; [|discriminate]. now exists s.
Qed.

End MatcherSound.

Lemma match_at_sound (p : pattern) (b : bool) (s e : pos) :
  match_at p b s = Some e -> Matches (pat_flags p) (pat_re p) s e.
Proof.
  unfold match_at. intros H. apply m_sound in H.
  destruct H as (e' & Hm & Hk).
  destruct (b && (length (after e') =? length (after s))); [discriminate|].
  now injection Hk as <-.
Qed.

Lemma reads_text (s e : pos) (w : str) :
  reads s w e -> text_between s e = w /\ matched_len s e = length w.
Proof.
  intros (Ha & Hb & _). unfold text_between, matched_len.
  rewrite Hb, Ha, !length_app, length_rev.
  replace (length w + length (before s) - length (before s)) with (length w)
    by lia.
  replace (length w + length (after e) - length (after e)) with (length w)
    by lia.
  split; [|reflexivity].
  rewrite <- (length_rev w), firstn_app, Nat.sub_diag, firstn_all.
  simpl. now rewrite app_nil_r, rev_involutive.
Qed.

(** For a plain pattern, a match found at a position is one of its words,
    read from there. *)
Lemma match_at_word (p : pattern) (b : bool) (bef aft : list ascii)
    (e : pos) :
  plain (pat_re p) = true ->
  match_at p b (start_pos bef aft) = Some e ->
  exists w, Lang (pat_flags p) (pat_re p) w /\ aft = w ++ after e /\
            text_between (start_pos bef aft) e = w /\
            matched_len (start_pos bef aft) e = length w.
Proof.
  intros Hp H. apply match_at_sound in H.
  apply (plain_matches _ _ Hp) in H. destruct H as (w & Hw & Hr).
  exists w. split; [exact Hw|]. split; [exact (proj1 Hr)|].
  now apply reads_text.
Qed.

(** ** The scanning loop where nothing matches *)

Lemma search_from_none_inv (p : pattern) (bef : list ascii) (c : ascii)
    (t : list ascii) :
  search_from p bef (c :: t) = None ->
  match_at p false (start_pos bef (c :: t)) = None /\
  search_from p (c :: bef) t = None.
Proof.
  cbn [search_from].
  destruct (match_at p false (start_pos bef (c :: t))); [discriminate|].
  now split.
Qed.

Lemma scan_no_match (B : Type) (p : pattern) (on_match : pos -> pos -> B -> B)
    (on_char : ascii -> B -> B) (nil : B) :
  forall aft bef,
    search_from p bef aft = None ->
    scan p on_match on_char nil bef aft 0 = fold_right on_char nil aft.
Proof.
  induction aft as [|c t IH]; intros bef H.
  - cbn [search_from] in H. cbn [scan fold_right].
    destruct (match_at p false (start_pos bef [])); [discriminate | reflexivity].
  - apply search_from_none_inv in H. destruct H as [H1 H2].
    cbn [scan fold_right]. rewrite H1. now rewrite IH.
Qed.

Lemma fold_right_cons_id (l : list ascii) :
  fold_right (fun c acc => c :: acc) [] l = l.
Proof. induction l as [|c t IH]; simpl; [reflexivity | now rewrite IH]. Qed.

Lemma fold_right_skip (A : Type) (l : list ascii) (nil : A) :
  fold_right (fun _ acc => acc) nil l = nil.
Proof. induction l as [|c t IH]; simpl; [reflexivity | exact IH]. Qed.

(** Where the pattern matches nowhere, [re.sub] returns the text as it
    is. *)
Lemma sub_no_match (p : pattern) (repl code : str) :
  search p code = false -> sub p repl code = code.
Proof.
  unfold search, sub, sub_from. intros H.
  destruct (search_from p [] code) eqn:E; [discriminate|].
  rewrite scan_no_match by exact E. apply fold_right_cons_id.
Qed.

Lemma findall_scan_some (p : pattern) :
  forall aft bef,
    search_from p bef aft <> None ->
    scan p (fun s e acc => text_between s e :: acc) (fun _ acc => acc)
         [] bef aft 0 <> [].
Proof.
  induction aft as [|c t IH]; intros bef H; cbn [search_from] in H;
    cbn [scan].
  - destruct (match_at p false (start_pos bef [])); [discriminate | congruence].
  - destruct (match_at p false (start_pos bef (c :: t))) as [e|].
    + destruct (matched_len (start_pos bef (c :: t)) e); discriminate.
    + now apply IH.
Qed.

(** [re.findall] returns the empty list exactly when the pattern matches
    nowhere. *)
Lemma findall_nil (p : pattern) (code : str) :
  findall p code = [] <-> search p code = false.
Proof.
  unfold findall, findall_from, search. split.
  - intros H. destruct (search_from p [] code) eqn:E; [|reflexivity].
    exfalso. apply (@findall_scan_some p code []); [congruence | exact H].
  - intros H. destruct (search_from p [] code) eqn:E; [discriminate|].
    rewrite scan_no_match by exact E. apply fold_right_skip.
Qed.

Lemma findall_each_nil (ps : list pattern) (code : str) :
  findall_each ps code = [] <-> forall p, In p ps -> search p code = false.
Proof.
  unfold findall_each. induction ps as [|p ps IH]; simpl.
  - split; [intros _ q [] | reflexivity].
  - split.
    + intros H. apply app_eq_nil in H. destruct H as [H1 H2].
      intros q [<-|Hq]; [now apply findall_nil | now apply IH].
    + intros H. rewrite (proj2 (findall_nil p code)) by (apply H; now left).
      simpl. apply IH. intros q Hq. apply H. now right.
Qed.

(** ** Substrings *)

Lemma ceqb_eq (a b : ascii) : ceqb a b = true <-> a = b.
Proof. unfold ceqb. apply Ascii.eqb_eq. Qed.

Lemma starts_with_prefix (w s : str) :
  starts_with w s = true <-> exists post, s = w ++ post.
Proof.
  revert s. induction w as [|a w IH]; intros s; simpl.
  - split; [intros _; now exists s | reflexivity].
  - destruct s as [|b s].
    + split; [discriminate | intros (post & H); discriminate].
    + rewrite andb_true_iff, ceqb_eq, IH. split.
      * intros [-> (post & ->)]. now exists post.
      * intros (post & H). injection H as -> ->. split; [reflexivity|].
        now exists post.
Qed.

Lemma contains_infix (w s : str) :
  contains w s = true <-> exists pre post, s = pre ++ w ++ post.
Proof.
  induction s as [|b s IH]; cbn [contains]; rewrite orb_true_iff.
  - rewrite starts_with_prefix. split.
    + intros [(post & H)|H]; [|discriminate]. now exists [], post.
    + intros (pre & post & H). left.
      destruct pre; [now exists post | discriminate].
  - rewrite starts_with_prefix, IH. split.
    + intros [(post & H)|(pre & post & H)].
      * now exists [], post.
      * exists (b :: pre), post. simpl. now rewrite H.
    + intros ([|c pre] & post & H).
      * left. now exists post.
      * right. injection H as -> ->. now exists pre, post.
Qed.

Lemma str_eqb_eq (a b : str) : str_eqb a b = true <-> a = b.
Proof.
  unfold str_eqb. destruct (list_eq_dec ascii_dec a b); split; congruence.
Qed.

Lemma mem_In (x : str) (l : list str) : mem x l = true <-> In x l.
Proof.
  unfold mem. rewrite existsb_exists. split.
  - intros (y & Hy & E). apply str_eqb_eq in E. now subst.
  - intros H. exists x. split; [exact H | now apply str_eqb_eq].
Qed.

Lemma nodupb_NoDup (l : list str) : nodupb l = true -> NoDup l.
Proof.
  induction l as [|x t IH]; simpl; [constructor|].
  rewrite andb_true_iff, negb_true_iff. intros [Hx Ht].
  constructor; [|now apply IH].
  intros Hin. apply mem_In in Hin. congruence.
Qed.

(** ** The feature extractor *)

(** C10.  Keyword extraction is containment of the upper-cased keyword in
    the upper-cased snippet, not a match of whole words: a vocabulary
    entry is reported exactly when it occurs that way, each entry at most
    once; a snippet containing the word "description" reports DES, and a
    snippet containing "DESede" reports DES as well. *)
Theorem crypto_keywords_are_substrings (S k : str) :
  (In k (crypto_keywords (extract_features S))
   <-> In k _CRYPTO_KEYWORDS /\
       exists pre post, str_upper S = pre ++ str_upper k ++ post) /\
  NoDup (crypto_keywords (extract_features S)) /\
  (forall pre post,
      In (T "DES")
         (crypto_keywords (extract_features (pre ++ T "description" ++ post)))) /\
  (forall pre post,
      In (T "DES")
         (crypto_keywords (extract_features (pre ++ T "DESede" ++ post)))).
Proof.
  cbn [extract_features crypto_keywords]. unfold _extract_crypto_keywords.
  split; [|split; [|split]].
  - rewrite filter_In, contains_infix. reflexivity.
  - apply NoDup_filter. apply nodupb_NoDup. vm_compute. reflexivity.
  - intros pre post. apply filter_In. split; [vm_compute; tauto|].
    apply contains_infix. unfold str_upper. rewrite !map_app.
    exists (map upper pre), (T "CRIPTION" ++ map upper post).
    reflexivity.
  - intros pre post. apply filter_In. split; [vm_compute; tauto|].
    apply contains_infix. unfold str_upper. rewrite !map_app.
    exists (map upper pre), (T "EDE" ++ map upper post).
    reflexivity.
Qed.

(** C8.  On the empty text [predict] answers "secure" and
    [extract_features] returns empty lists and zero counts.  On every
    text [predict] answers one of its two labels, the result of
    [extract_features] is a record with its four
    fields, and a field is empty (a count is zero) exactly when nothing
    of its kind is found: no API pattern matches, no keyword is contained,
    no hard-coded pattern matches, no import line, type declaration or
    method signature matches.  Both operations are total functions. *)
Theorem empty_input_and_absent_patterns (S : str) :
  predict [] = "secure"%string /\
  (predict S = "secure"%string \/ predict S = "insecure"%string) /\
  extract_features []
  = {| api_calls := []; crypto_keywords := [];
       structural_tokens :=
         {| import_count := 0; class_count := 0; method_count := 0 |};
       hardcoded_secrets := [] |} /\
  (api_calls (extract_features S) = []
   <-> forall p, In p _API_CALL_PATTERNS -> search p S = false) /\
  (crypto_keywords (extract_features S) = []
   <-> forall k, In k _CRYPTO_KEYWORDS ->
                 contains (str_upper k) (str_upper S) = false) /\
  (hardcoded_secrets (extract_features S) = []
   <-> forall p, In p _HARDCODED_PATTERNS -> search p S = false) /\
  (import_count (structural_tokens (extract_features S)) = 0
   <-> search import_line S = false) /\
  (class_count (structural_tokens (extract_features S)) = 0
   <-> search type_decl S = false) /\
  (method_count (structural_tokens (extract_features S)) = 0
   <-> search method_sig S = false).
Proof.
  split; [vm_compute; reflexivity|].
  split.
  { unfold predict. rewrite predict_rules_existsb.
    destruct (existsb (fires S) _RULES); [now right | now left]. }
  split; [vm_compute; reflexivity|].
  cbn [extract_features api_calls crypto_keywords hardcoded_secrets
       structural_tokens _extract_structural_tokens import_count class_count
       method_count].
  split; [apply findall_each_nil|].
  split.
  { unfold _extract_crypto_keywords.
    generalize _CRYPTO_KEYWORDS as l. induction l as [|k l IH]; simpl.
    - split; [intros _ k [] | reflexivity].
    - destruct (contains (str_upper k) (str_upper S)) eqn:E.
      + split; [discriminate|]. intros H.
        specialize (H k (or_introl eq_refl)). congruence.
      + rewrite IH. split.
        * intros H k' [<-|Hk]; [exact E | now apply H].
        * intros H k' Hk. apply H. now right. }
  split; [apply findall_each_nil|].
  rewrite !length_zero_iff_nil, !findall_nil. tauto.
Qed.

(** ** Rules and the list of triggered rules *)

Lemma triggered_rules_In (S : str) (name : string) :
  In name (triggered_rules (predict_detailed S))
  <-> exists p, In (name, p) _RULES /\ search p S = true.
Proof.
  unfold predict_detailed; cbn [triggered_rules].
  rewrite triggered_by_filter. cbn [app]. rewrite in_map_iff. split.
  - intros ([n p] & <- & H). apply filter_In in H. now exists p.
  - intros (p & Hin & Hs). exists (name, p). split; [reflexivity|].
    apply filter_In. now split.
Qed.


(** ** Letter case *)

Ltac each_char c := destruct c as [[] [] [] [] [] [] [] []]; reflexivity.

Lemma upper_lower (c : ascii) : upper (lower c) = upper c.
Proof. each_char c. Qed.






Section CaseInsensitive.

Variable fl : flags.
Hypothesis Hic : IGNORECASE fl = true.










End CaseInsensitive.








(** ** Words of the usual pieces of a pattern *)

Section Words.

Variable fl : flags.

Lemma Lang_seq_nil (w : str) : Lang fl (seq []) w <-> w = [].
Proof. reflexivity. Qed.

Lemma Lang_seq_cons (r : regex) (rs : list regex) (w : str) :
  Lang fl (seq (r :: rs)) w
  <-> exists w1 w2, w = w1 ++ w2 /\ Lang fl r w1 /\ Lang fl (seq rs) w2.
Proof. reflexivity. Qed.

Lemma Lang_lits (x w : str) :
  Lang fl (lits x) w
  <-> Forall2 (fun c l => char_ok fl (CLit l) c = true) w x.
Proof.
  revert w. induction x as [|l x IH]; intros w; cbn [lits Lang].
  - split; [intros ->; constructor | intros H; now inversion H].
  - split.
    + intros (w1 & w2 & -> & (c & -> & Hc) & H2). simpl.
      constructor; [exact Hc | now apply IH].
    + intros H. inversion H as [|c l' w' x' Hc H']; subst.
      exists [c], w'. split; [reflexivity|].
      split; [now exists c | now apply IH].
Qed.

Lemma Lang_rep_chr (cs : cset) (lo : nat) (hi : option nat) (g : bool)
    (w : str) :
  Lang fl (Rep (Chr cs) lo hi g) w
  <-> lo <= length w /\ upto hi (length w) /\
      Forall (fun c => char_ok fl cs c = true) w.
Proof.
  cbn [Lang]. split.
  - intros (ws & -> & Hlo & Hup & Hall).
    assert (H : length (concat ws) = length ws /\
                Forall (fun c => char_ok fl cs c = true) (concat ws)).
    { clear Hlo Hup. induction Hall as [|x ws [(c & -> & Hc) _] _ [IH1 IH2]];
        simpl; [split; [reflexivity | constructor]|].
      split; [now rewrite IH1 | now constructor]. }
    destruct H as [-> H]. now repeat split.
  - intros (Hlo & Hup & Hall).
    exists (map (fun c => [c]) w). rewrite length_map.
    split; [|split; [exact Hlo | split; [exact Hup|]]].
    + clear. induction w as [|c w IH]; simpl; [reflexivity | now rewrite <- IH].
    + clear Hlo Hup. induction Hall as [|c w Hc _ IH]; simpl; constructor.
      * split; [now exists c | discriminate].
      * exact IH.
Qed.

End Words.

Lemma Lang_lits_ic (fl : flags) (x w : str) :
  IGNORECASE fl = true -> (Lang fl (lits x) w <-> same_letters w x).
Proof.
  intros Hic. rewrite Lang_lits. unfold same_letters. split.
  - induction 1 as [|c l w' x' Hc _ IH]; simpl; [reflexivity|].
    cbn [char_ok] in Hc. rewrite Hic in Hc. apply ceqb_eq in Hc.
    now rewrite Hc, IH.
  - revert w. induction x as [|l x IH]; intros [|c w] H; simpl in H;
      try discriminate; constructor.
    + cbn [char_ok]. rewrite Hic. apply ceqb_eq. now injection H.
    + apply IH. now injection H.
Qed.

Lemma Lang_lits_cs (fl : flags) (x w : str) :
  IGNORECASE fl = false -> (Lang fl (lits x) w <-> w = x).
Proof.
  intros Hic. rewrite Lang_lits. split.
  - induction 1 as [|c l w' x' Hc _ IH]; [reflexivity|].
    cbn [char_ok] in Hc. rewrite Hic in Hc. apply ceqb_eq in Hc.
    now rewrite Hc, IH.
  - intros ->. induction x as [|l x IH]; constructor; [|exact IH].
    cbn [char_ok]. rewrite Hic. now apply ceqb_eq.
Qed.

Lemma Forall_is_space (fl : flags) (w : str) :
  Forall (fun c => char_ok fl (CSet false [ISpace]) c = true) w
  <-> Forall (fun c => is_space c = true) w.
Proof.
  rewrite !Forall_forall.
  split; intros H c Hc; specialize (H c Hc); cbn in *;
    now rewrite orb_false_r in *.
Qed.


Lemma lower_is_dq (c : ascii) : ceqb (lower c) DQ = ceqb c DQ.
Proof. each_char c. Qed.


Lemma Lang_dq (fl : flags) (w : str) : Lang fl (chr DQ) w <-> w = [DQ].
Proof.
  unfold chr; cbn [Lang char_ok]. split.
  - intros (c & -> & H). destruct (IGNORECASE fl).
    + change (lower DQ) with DQ in H. rewrite lower_is_dq in H.
      apply ceqb_eq in H. now subst.
    + apply ceqb_eq in H. now subst.
  - intros ->. exists DQ. split; [reflexivity|]. now destruct (IGNORECASE fl).
Qed.

Lemma Lang_star_ws (fl : flags) (w : str) :
  Lang fl (star ws) w <-> Forall (fun x => is_space x = true) w.
Proof.
  unfold star, ws, oneof. rewrite Lang_rep_chr, Forall_is_space.
  simpl. split; [tauto | intros H; repeat split; [lia | exact H]].
Qed.

Lemma Lang_plus_ws (fl : flags) (w : str) :
  Lang fl (plus ws) w <-> w <> [] /\ Forall (fun x => is_space x = true) w.
Proof.
  unfold plus, ws, oneof. rewrite Lang_rep_chr, Forall_is_space.
  simpl. split.
  - intros (H & _ & Hall). split; [|exact Hall].
    destruct w; [simpl in H; lia | discriminate].
  - intros [H Hall]. split; [|split; [exact I | exact Hall]].
    destruct w; [congruence | simpl; lia].
Qed.


(** ** Words found by running the matcher *)

Lemma full_match_Lang (fl : flags) (r : regex) (w : str) :
  plain r = true -> full_match fl r w = true -> Lang fl r w.
Proof.
  unfold full_match. intros Hp H.
  destruct (m fl r (start_pos [] w) _) as [x|] eqn:E; [|discriminate].
  apply m_sound in E. destruct E as (e & Hm & Hk).
  apply (plain_matches _ _ Hp) in Hm. destruct Hm as (w' & Hw & (Ha & _)).
  destruct (after e); [|discriminate].
  cbn [after start_pos] in Ha. rewrite app_nil_r in Ha. now subst w'.
Qed.

Lemma match_at_of_word (p : pattern) (w : str) (bef post : list ascii) :
  plain (pat_re p) = true -> Lang (pat_flags p) (pat_re p) w ->
  match_at p false (start_pos bef (w ++ post)) <> None.
Proof.
  intros Hp Hw. apply match_at_some.
  exists (Pos (rev w ++ bef) post None).
  apply (plain_matches _ _ Hp). exists w. split; [exact Hw|].
  unfold reads; simpl. now repeat split.
Qed.

Lemma search_of_word (p : pattern) (w pre post : str) :
  plain (pat_re p) = true -> Lang (pat_flags p) (pat_re p) w ->
  search p (pre ++ w ++ post) = true.
Proof.
  intros Hp Hw. apply (search_plain _ _ Hp). now exists pre, w, post.
Qed.

(** ** The iteration-count rule *)

Lemma Lang_star_not_paren (w : str) :
  Lang no_flags (star (noneof [IChar ")"])) w
  <-> Forall (fun c => c <> ")"%char) w.
Proof.
  unfold star, noneof. rewrite Lang_rep_chr. simpl.
  assert (H : forall c, char_ok no_flags (CSet true [IChar ")"]) c = true
                        <-> c <> ")"%char).
  { intros c. cbn. rewrite orb_false_r. destruct (ceqb c ")") eqn:E.
    - apply ceqb_eq in E. subst. split; [discriminate | congruence].
    - split; [|reflexivity]. intros _ ->.
      unfold ceqb in E. now rewrite Ascii.eqb_refl in E. }
  rewrite !Forall_forall. split.
  - intros (_ & _ & Hall) c Hc. now apply H, Hall.
  - intros Hall. split; [lia|]. split; [exact I|].
    intros c Hc. now apply H, Hall.
Qed.

(** C3.  The pattern of [low_pbe_iterations] does not look at which
    argument of the call it reads: whatever the arguments before it, a
    last argument 256 makes it match.  On a four-argument construction
    with 65536 iterations it fires on the key length 256, so the snippet
    is reported although its iteration count is far above 1000; the same
    construction without the key length is not reported. *)
Theorem low_pbe_iterations_fires_on_key_length :
  In ("low_pbe_iterations"%string, Pattern no_flags low_pbe_iterations)
     _RULES /\
  (forall pre args post,
      Forall (fun c => c <> ")"%char) args ->
      search (Pattern no_flags low_pbe_iterations)
             (pre ++ (T "PBEKeySpec(" ++ args ++ T ", 256)") ++ post) = true) /\
  search (Pattern no_flags low_pbe_iterations)
         (T "new PBEKeySpec(password, salt, 65536, 256)") = true /\
  triggered_rules
    (predict_detailed (T "new PBEKeySpec(password, salt, 65536, 256)"))
  = ["low_pbe_iterations"%string] /\
  predict (T "new PBEKeySpec(password, salt, 65536, 256)")
  = "insecure"%string /\
  search (Pattern no_flags low_pbe_iterations)
         (T "new PBEKeySpec(password, salt, 65536)") = false /\
  search (Pattern no_flags low_pbe_iterations)
         (T "new PBEKeySpec(password, salt, 999)") = true.
Proof.
  split; [vm_compute; tauto|].
  split; [|vm_compute; repeat split].
  intros pre args post Hargs.
  apply (@search_of_word (Pattern no_flags low_pbe_iterations));
    [reflexivity|].
  cbn [pat_flags pat_re]. unfold low_pbe_iterations.
  apply Lang_seq_cons. exists (T "PBEKeySpec"), (T "(" ++ args ++ T ", 256)").
  split; [reflexivity | split; [now apply Lang_lits_cs|]].
  apply Lang_seq_cons. exists [], (T "(" ++ args ++ T ", 256)").
  split; [reflexivity | split; [apply Lang_star_ws; constructor|]].
  apply Lang_seq_cons. exists (T "("), (args ++ T ", 256)").
  split; [reflexivity | split; [now apply Lang_lits_cs|]].
  apply Lang_seq_cons. exists args, (T ", 256)").
  split; [reflexivity | split; [now apply Lang_star_not_paren|]].
  apply full_match_Lang; [reflexivity | vm_compute; reflexivity].
Qed.

(** ** Identifier anonymization *)

Lemma collect_names_not_protected (found : list (option str)) :
  forall acc,
    (forall n, In n acc -> mem n _protected = false) ->
    forall n, In n (collect_names found acc) -> mem n _protected = false.
Proof.
  induction found as [|[name|] rest IH]; intros acc Hacc; cbn [collect_names].
  - exact Hacc.
  - destruct (negb (mem name _protected) && negb (mem name acc)) eqn:E.
    + apply IH. intros n Hn. apply in_app_or in Hn.
      destruct Hn as [Hn|[<-|[]]]; [now apply Hacc|].
      apply andb_prop in E. destruct E as [E _].
      now apply negb_true_iff in E.
    + now apply IH.
  - now apply IH.
Qed.

(** What a substitution of [rename_all] replaces is the name, standing
    between two word boundaries. *)
Lemma name_pattern_match (name : str) (b : bool) (s e : pos) :
  match_at (name_pattern name) b s = Some e ->
  text_between s e = name /\ at_wordb s = true /\ at_wordb e = true.
Proof.
  intros H. apply match_at_sound in H.
  cbn [name_pattern pat_flags pat_re seq fold_right Matches] in H.
  destruct H as (s1 & [Hb1 ->] & s2 & Hl & s3 & [Hb2 ->] & ->).
  apply (plain_matches no_flags (lits name)) in Hl.
  - destruct Hl as (w & Hw & Hr). apply Lang_lits_cs in Hw; [|reflexivity].
    subst w. apply reads_text in Hr. now destruct Hr as [-> _].
  - clear. induction name as [|c t IH]; [reflexivity | exact IH].
Qed.

(** C4.  No name of the protected set is ever chosen for renaming, and
    what is replaced is always a whole-word occurrence of a chosen name.
    But a method or a class that shares its name with a declared variable
    is renamed with it: the method [count] below becomes [VAR0], and so
    does the class [Foo], whose name is taken for a variable because the
    declaration pattern ignores case. *)
Theorem normalize_variables_renames_method_and_class :
  (forall S name,
      In name (collect_names (finditer_group var_pattern S) []) ->
      ~ In name _protected) /\
  (forall name b s e,
      match_at (name_pattern name) b s = Some e ->
      text_between s e = name /\ at_wordb s = true /\ at_wordb e = true) /\
  _normalize_variables (T "int count = 0; int count() { return count; }")
  = T "int VAR0 = 0; int VAR0() { return VAR0; }" /\
  _normalize_variables (T "class Foo { Object Foo = null; }")
  = T "class VAR0 { Object VAR0 = null; }" /\
  normalize (T "int count = 0; int count() { return count; }")
            false false true
  = T "int VAR0 = 0; int VAR0() { return VAR0; }".
Proof.
  split; [|split; [exact name_pattern_match | vm_compute; repeat split]].
  intros S name Hin Hp. apply mem_In in Hp.
  rewrite (@collect_names_not_protected (finditer_group var_pattern S) [])
    in Hp; [discriminate | intros n [] | exact Hin].
Qed.

(** ** Aligning two ways of cutting the same text *)




(** ** The DES rule *)



(** ** Literals and lazy loops, step by step *)

Lemma m_lits_cs (fl : flags) (x : str) :
  IGNORECASE fl = false ->
  forall s k,
    m fl (lits x) s k
    = if starts_with x (after s) then k (jump (length x) s) else None.
Proof.
  intros Hic. induction x as [|l x IH]; intros s k; cbn [lits m].
  - simpl. unfold jump; simpl. now destruct s.
  - destruct s as [bef aft g]; cbn [after]. destruct aft as [|c t].
    + reflexivity.
    + cbn [char_ok starts_with]. rewrite Hic.
      unfold ceqb at 2. rewrite (Ascii.eqb_sym l c). fold (ceqb c l).
      destruct (ceqb c l) eqn:E; [|reflexivity].
      apply ceqb_eq in E. subst l.
      unfold advance; cbn [after before grp andb].
      rewrite IH. cbn [after]. destruct (starts_with x t); [|reflexivity].
      f_equal. unfold jump; simpl. now rewrite <- app_assoc.
Qed.

Lemma lazy_loop_first (body : pos -> cont -> option pos) (k : cont) :
  (forall bef g k', body (Pos bef [] g) k' = None) ->
  (forall bef c t g k',
      body (Pos bef (c :: t) g) k' = k' (Pos (c :: bef) t g)) ->
  forall aft bef g fuel i,
    length aft <= fuel ->
    rep_loop body 0 None false k fuel i (Pos bef aft g)
    = first_from k g bef aft.
Proof.
  intros Hnil Hcons. induction aft as [|c t IH]; intros bef g fuel i Hlen.
  - destruct fuel; cbn [rep_loop first_from Nat.ltb Nat.leb allows];
      rewrite ?Hnil; destruct (k (Pos bef [] g)); reflexivity.
  - destruct fuel as [|fuel]; [simpl in Hlen; lia|].
    cbn [rep_loop first_from Nat.ltb Nat.leb allows].
    destruct (k (Pos bef (c :: t) g)); [reflexivity|].
    rewrite Hcons. unfold shorter; cbn [after length].
    rewrite (proj2 (Nat.ltb_lt _ _) (Nat.lt_succ_diag_r _)).
    apply IH. simpl in Hlen. lia.
Qed.

Lemma lazy_any_first (fl : flags) (k : cont) :
  DOTALL fl = true ->
  forall aft bef g fuel i,
    length aft <= fuel ->
    rep_loop (m fl (Chr CAny)) 0 None false k fuel i (Pos bef aft g)
    = first_from k g bef aft.
Proof.
  intros Hd. apply lazy_loop_first.
  - reflexivity.
  - intros bef c t g k'. cbn [m after char_ok]. now rewrite Hd.
Qed.

(** ** Block comments *)

Lemma closer_first_from (g : option str) :
  forall t bef,
    first_from
      (fun s' =>
         m (pat_flags block_comment) (lits (T "*/")) s' (fun e => Some e))
      g bef t
    = option_map (fun i => jump (i + 2) (Pos bef t g)) (closer_index t).
Proof.
  induction t as [|c t IH]; intros bef.
  - reflexivity.
  - cbn [first_from]. rewrite m_lits_cs by reflexivity. cbn [after closer_index].
    destruct (starts_with (T "*/") (c :: t)) eqn:E; [reflexivity|].
    rewrite IH. destruct (closer_index t) as [i|]; [|reflexivity].
    cbn [option_map]. f_equal. unfold jump; simpl. now rewrite <- app_assoc.
Qed.

(** The block comment found at a position: from the opener to the first
    closer after it. *)
Lemma match_at_block (bef aft : list ascii) :
  match_at block_comment false (start_pos bef aft)
  = option_map (fun n => jump n (start_pos bef aft)) (block_len aft).
Proof.
  unfold match_at, block_len.
  change (m (pat_flags block_comment) (pat_re block_comment)
            (start_pos bef aft)
            (fun e => if false && (length (after e) =? length (after (start_pos bef aft)))
                      then None else Some e))
    with (m (pat_flags block_comment) (lits (T "/*")) (start_pos bef aft)
            (fun s1 =>
               rep_loop (m (pat_flags block_comment) (Chr CAny)) 0 None false
                 (fun s' =>
                    m (pat_flags block_comment) (lits (T "*/")) s'
                      (fun e => Some e))
                 (length (after s1)) 0 s1)).
  rewrite m_lits_cs by reflexivity. cbn [after start_pos].
  destruct (starts_with (T "/*") aft) eqn:E; [|reflexivity].
  destruct aft as [|a [|b t]]; simpl in E;
    try (rewrite ?andb_false_r in E; discriminate E).
  unfold jump. cbn [after before grp start_pos T list_ascii_of_string
                    length skipn firstn].
  rewrite lazy_any_first; [|reflexivity | reflexivity].
  rewrite (closer_first_from None).
  destruct (closer_index t) as [i|]; [|reflexivity].
  cbn [option_map]. f_equal. unfold jump. cbn [after before grp].
  replace (i + 4) with (S (S (i + 2))) by lia. simpl.
  now rewrite <- !app_assoc.
Qed.

Lemma closer_index_bound (t : str) (i : nat) :
  closer_index t = Some i -> i + 2 <= length t.
Proof.
  revert i. induction t as [|c t IH]; intros i; cbn [closer_index].
  - discriminate.
  - destruct (starts_with (T "*/") (c :: t)) eqn:E.
    + intros H. injection H as <-.
      apply starts_with_prefix in E. destruct E as (post & ->). simpl. lia.
    + destruct (closer_index t) as [j|]; [|discriminate].
      intros H. injection H as <-. specialize (IH j eq_refl). simpl. lia.
Qed.

Lemma block_len_bound (aft : str) (n : nat) :
  block_len aft = Some n -> 4 <= n <= length aft.
Proof.
  unfold block_len. destruct (starts_with (T "/*") aft) eqn:E; [|discriminate].
  apply starts_with_prefix in E. destruct E as (post & ->).
  cbn [skipn T list_ascii_of_string app].
  destruct (closer_index post) as [i|] eqn:Ei; [|discriminate].
  intros H. injection H as <-. apply closer_index_bound in Ei. simpl. lia.
Qed.

Lemma matched_len_jump (bef aft : list ascii) (n : nat) :
  n <= length aft ->
  matched_len (start_pos bef aft) (jump n (start_pos bef aft)) = n.
Proof.
  intros H. unfold matched_len, jump; cbn [after start_pos].
  rewrite length_skipn. lia.
Qed.

Lemma contains_tail (w : str) (c : ascii) (s : str) :
  contains w (c :: s) = false -> contains w s = false.
Proof. cbn [contains]. intros H. now apply orb_false_elim in H. Qed.

Lemma contains_head (w s : str) :
  contains w s = false -> starts_with w s = false.
Proof. destruct s; cbn [contains]; intros H; now apply orb_false_elim in H. Qed.

Lemma contains_skipn (w s : str) (n : nat) :
  contains w s = false -> contains w (skipn n s) = false.
Proof.
  revert s. induction n as [|n IH]; intros s H; [exact H|].
  destruct s as [|c s]; [exact H|]. simpl. apply IH.
  now apply contains_tail in H.
Qed.

Lemma closer_index_none (t : str) :
  contains (T "*/") t = false -> closer_index t = None.
Proof.
  induction t as [|c t IH]; intros H; cbn [closer_index]; [reflexivity|].
  rewrite (contains_head _ _ H), IH; [reflexivity|].
  now apply contains_tail in H.
Qed.

Section AfterTheLastCloser.

(** [B] is a stretch of text in which no closer ends: it contains none,
    and does not start with the slash that would end one. *)
Variable B : str.
Hypothesis no_closer : contains (T "*/") B = false.
Hypothesis no_slash : starts_with (T "/") B = false.

Lemma closer_index_app (t : str) :
  closer_index (t ++ B) = closer_index t.
Proof.
  induction t as [|c t IH].
  - simpl. now apply closer_index_none.
  - cbn [app closer_index]. rewrite IH.
    replace (starts_with (T "*/") (c :: t ++ B))
      with (starts_with (T "*/") (c :: t)); [reflexivity|].
    destruct t as [|d t]; cbn [app starts_with T list_ascii_of_string].
    + cbn [starts_with T list_ascii_of_string] in no_slash.
      now rewrite no_slash, !andb_false_r.
    + reflexivity.
Qed.

Lemma block_len_app (A : str) : block_len (A ++ B) = block_len A.
Proof.
  unfold block_len. destruct A as [|a [|b A]].
  - cbn [app]. rewrite (closer_index_none _ (@contains_skipn _ _ 2 no_closer)).
    now destruct (starts_with (T "/*") B).
  - cbn [app]. change (starts_with (T "/*") [a]) with (ceqb "/" a && false).
    rewrite andb_false_r.
    change (skipn 2 (a :: B)) with (skipn 1 B).
    rewrite (closer_index_none _ (@contains_skipn _ _ 1 no_closer)).
    now destruct (starts_with (T "/*") (a :: B)).
  - change (skipn 2 ((a :: b :: A) ++ B)) with (A ++ B).
    change (skipn 2 (a :: b :: A)) with A.
    rewrite closer_index_app. reflexivity.
Qed.

Lemma sub_block_no_closer (bef : list ascii) :
  sub_from block_comment [] bef B 0 = B.
Proof.
  unfold sub_from. rewrite scan_no_match; [apply fold_right_cons_id|].
  clear no_slash. revert bef. induction B as [|c t IH]; intros bef;
    cbn [search_from]; rewrite match_at_block.
  - reflexivity.
  - replace (block_len (c :: t)) with (@None nat).
    + cbn [option_map]. apply IH. now apply contains_tail in no_closer.
    + symmetry. unfold block_len.
      destruct (starts_with (T "/*") (c :: t)); [|reflexivity].
      now rewrite closer_index_none by now apply contains_skipn.
Qed.

(** The block-comment pass leaves [B] as it is, whatever comes before. *)
Lemma sub_block_app (A : str) :
  forall bef skip,
    skip <= length A ->
    sub_from block_comment [] bef (A ++ B) skip
    = sub_from block_comment [] bef A skip ++ B.
Proof.
  induction A as [|c A IH]; intros bef skip Hskip.
  - simpl in Hskip. replace skip with 0 by lia.
    cbn [app]. rewrite sub_block_no_closer.
    unfold sub_from. cbn [scan]. now rewrite match_at_block.
  - unfold sub_from in *. destruct skip as [|n].
    + cbn [scan app]. rewrite !match_at_block.
      change (c :: A ++ B) with ((c :: A) ++ B). rewrite block_len_app.
      destruct (block_len (c :: A)) as [L|] eqn:EL; cbn [option_map].
      * pose proof (block_len_bound _ EL) as [H4 HL].
        rewrite !matched_len_jump by (rewrite ?length_app; lia).
        destruct L as [|L]; [lia|]. cbn [app]. apply IH. simpl in HL. lia.
      * cbn [app]. f_equal. apply IH. lia.
    + cbn [scan app]. apply IH. simpl in Hskip. lia.
Qed.

End AfterTheLastCloser.

(** C2, as it is written, fails: the text after an opener that is never
    closed is not removed.  On [a /* b] comment stripping returns the text
    as it is, not the [a ] that is left of the opener. *)
Lemma unterminated_block_comment_is_kept :
  contains (T "*/") (T " b") = false /\
  _remove_comments (T "a " ++ T "/*" ++ T " b") = T "a /* b" /\
  _remove_comments (T "a " ++ T "/*" ++ T " b") <> _remove_comments (T "a ") /\
  normalize (T "a " ++ T "/*" ++ T " b") true false false = T "a /* b".
Proof. vm_compute. repeat split. discriminate. Qed.

(** C2, amended.  Where no closer follows the slash of an opener, the
    block-comment pass removes nothing from the asterisk of the opener
    to the end of the text: its result is the result on the text up to
    that slash, followed by the rest as it is.  Comment stripping then
    only takes the line comments out of it.  When the text has no closer
    at all, the block-comment pass returns it unchanged. *)
Theorem unterminated_block_comment_stays (P Tl : str) :
  contains (T "*/") (T "*" ++ Tl) = false ->
  sub block_comment [] (P ++ T "/*" ++ Tl)
  = sub block_comment [] (P ++ T "/") ++ T "*" ++ Tl /\
  _remove_comments (P ++ T "/*" ++ Tl)
  = sub line_comment [] (sub block_comment [] (P ++ T "/") ++ T "*" ++ Tl) /\
  (contains (T "*/") (P ++ T "/*" ++ Tl) = false ->
   sub block_comment [] (P ++ T "/*" ++ Tl) = P ++ T "/*" ++ Tl /\
   _remove_comments (P ++ T "/*" ++ Tl)
   = sub line_comment [] (P ++ T "/*" ++ Tl)).
Proof.
  intros H.
  assert (E : sub block_comment [] (P ++ T "/*" ++ Tl)
              = sub block_comment [] (P ++ T "/") ++ T "*" ++ Tl).
  { unfold sub.
    change (P ++ T "/*" ++ Tl) with (P ++ T "/" ++ (T "*" ++ Tl)).
    rewrite app_assoc.
    apply sub_block_app; [exact H | reflexivity | lia]. }
  split; [exact E|]. split.
  - unfold _remove_comments. now rewrite E.
  - intros Hall.
    assert (E' : sub block_comment [] (P ++ T "/*" ++ Tl) = P ++ T "/*" ++ Tl)
      by (unfold sub; now apply sub_block_no_closer).
    split; [exact E'|]. unfold _remove_comments. now rewrite E'.
Qed.

Lemma unterminated_block_comment_stays_witness :
  contains (T "*/") (T "*" ++ T " b") = false /\
  sub block_comment [] (T "a " ++ T "/*" ++ T " b")
  = sub block_comment [] (T "a " ++ T "/") ++ T "*" ++ T " b".
Proof.
  split; [reflexivity|].
  exact (proj1 (unterminated_block_comment_stays (T "a ") (T " b") eq_refl)).
Defined.

(** ** Greedy loops over one character class *)

Lemma jump_0 (s : pos) : jump 0 s = s.
Proof. now destruct s. Qed.

Lemma jump_S (n : nat) (bef : list ascii) (c : ascii) (t : list ascii)
    (g : option str) :
  jump (S n) (Pos bef (c :: t) g) = jump n (Pos (c :: bef) t g).
Proof. unfold jump; simpl. now rewrite <- app_assoc. Qed.

Lemma greedy_loop_final (body : pos -> cont -> option pos)
    (p : ascii -> bool) (lo : nat) :
  (forall bef g k', body (Pos bef [] g) k' = None) ->
  (forall bef c t g k',
      body (Pos bef (c :: t) g) k'
      = if p c then k' (Pos (c :: bef) t g) else None) ->
  forall aft bef g fuel i,
    length aft <= fuel ->
    rep_loop body lo None true (fun e => Some e) fuel i (Pos bef aft g)
    = if lo <=? i + run_len p aft
      then Some (jump (run_len p aft) (Pos bef aft g)) else None.
Proof.
  intros Hnil Hcons. induction aft as [|c t IH]; intros bef g fuel i Hlen.
  - cbn [run_len]. rewrite Nat.add_0_r, jump_0.
    destruct fuel; cbn [rep_loop allows]; rewrite ?Hnil;
      rewrite Nat.ltb_antisym; now destruct (lo <=? i).
  - destruct fuel as [|fuel]; [simpl in Hlen; lia|].
    cbn [rep_loop allows run_len]. rewrite Hcons.
    destruct (p c).
    + unfold shorter; cbn [after length].
      rewrite (proj2 (Nat.ltb_lt _ _) (Nat.lt_succ_diag_r _)).
      rewrite IH by (simpl in Hlen; lia).
      rewrite jump_S, Nat.add_succ_r. cbn [Nat.add].
      destruct (lo <=? S (i + run_len p t)) eqn:E1.
      * now destruct (i <? lo).
      * apply Nat.leb_gt in E1.
        now rewrite (proj2 (Nat.ltb_lt i lo)) by lia.
    + rewrite Nat.add_0_r, jump_0, Nat.ltb_antisym.
      now destruct (lo <=? i).
Qed.

Lemma greedy_chr_final (fl : flags) (cs : cset) (lo : nat) :
  forall aft bef g fuel i,
    length aft <= fuel ->
    rep_loop (m fl (Chr cs)) lo None true (fun e => Some e) fuel i
             (Pos bef aft g)
    = if lo <=? i + run_len (char_ok fl cs) aft
      then Some (jump (run_len (char_ok fl cs) aft) (Pos bef aft g))
      else None.
Proof.
  apply greedy_loop_final; reflexivity.
Qed.

(** The scan inside a match only moves on. *)
Lemma scan_skip (B : Type) (p : pattern) (on_match : pos -> pos -> B -> B)
    (on_char : ascii -> B -> B) (nil : B) :
  forall n aft bef,
    n <= length aft ->
    scan p on_match on_char nil bef aft n
    = scan p on_match on_char nil (rev (firstn n aft) ++ bef) (skipn n aft) 0.
Proof.
  induction n as [|n IH]; intros aft bef Hn; [reflexivity|].
  destruct aft as [|c t]; [simpl in Hn; lia|].
  cbn [scan firstn skipn rev]. rewrite IH by (simpl in Hn; lia).
  now rewrite <- app_assoc.
Qed.

(** ** Runs of spaces *)

Lemma match_at_spaces (bef aft : list ascii) :
  match_at spaces false (start_pos bef aft)
  = if 2 <=? run_len is_sp aft
    then Some (jump (run_len is_sp aft) (start_pos bef aft)) else None.
Proof.
  unfold match_at.
  change (m (pat_flags spaces) (pat_re spaces) (start_pos bef aft)
            (fun e => if false && (length (after e)
                                   =? length (after (start_pos bef aft)))
                      then None else Some e))
    with (rep_loop (m no_flags (Chr (CLit SP))) 2 None true
                   (fun e => Some e) (length aft) 0 (Pos bef aft None)).
  rewrite greedy_chr_final by lia. reflexivity.
Qed.

Lemma run_len_bound (p : ascii -> bool) (s : str) : run_len p s <= length s.
Proof. induction s as [|c t IH]; simpl; [lia | destruct (p c); lia]. Qed.

Lemma squeeze_true_skip (t : str) :
  squeeze true t = squeeze false (skipn (run_len is_sp t) t).
Proof.
  induction t as [|c t IH]; [reflexivity|].
  cbn [squeeze run_len]. destruct (is_sp c) eqn:E.
  - cbn [skipn]. exact IH.
  - cbn [skipn squeeze]. now rewrite E.
Qed.

(** [re.sub(r" {2,}", " ", code)] writes one space for every run of
    spaces. *)
Lemma sub_spaces_squeeze (n : nat) :
  forall aft bef,
    length aft <= n -> sub_from spaces [SP] bef aft 0 = squeeze false aft.
Proof.
  unfold sub_from.
  induction n as [|n IH]; intros aft bef Hlen.
  - destruct aft; [|simpl in Hlen; lia].
    cbn [scan squeeze]. now rewrite match_at_spaces.
  - destruct aft as [|c t].
    + cbn [scan squeeze]. now rewrite match_at_spaces.
    + cbn [scan]. rewrite match_at_spaces. cbn [run_len squeeze].
      simpl in Hlen.
      destruct (is_sp c) eqn:Ec.
      * unfold is_sp in Ec. apply ceqb_eq in Ec. subst c.
        destruct (run_len is_sp t) as [|r] eqn:Er.
        -- cbn [Nat.leb]. rewrite IH by lia.
           rewrite squeeze_true_skip, Er. reflexivity.
        -- cbn [Nat.leb].
           pose proof (run_len_bound is_sp t) as Hb.
           rewrite matched_len_jump by (simpl; lia).
           rewrite scan_skip by lia.
           rewrite IH by (rewrite length_skipn; lia).
           rewrite squeeze_true_skip, Er. reflexivity.
      * cbn [Nat.leb]. now rewrite IH by lia.
Qed.

Lemma single_spaced_cons (c : ascii) (t : str) :
  single_spaced (c :: t)
  = negb (is_sp c && head_is is_sp t) && single_spaced t.
Proof. destruct t; reflexivity. Qed.

Lemma squeeze_head (s : str) : head_is is_sp (squeeze true s) = false.
Proof.
  induction s as [|c t IH]; [reflexivity|].
  cbn [squeeze]. destruct (is_sp c) eqn:E; [exact IH | simpl; exact E].
Qed.

Lemma squeeze_single_spaced (s : str) (b : bool) :
  single_spaced (squeeze b s) = true.
Proof.
  revert b. induction s as [|c t IH]; intros b; [reflexivity|].
  cbn [squeeze]. destruct (is_sp c) eqn:E.
  - destruct b; [apply IH|].
    now rewrite single_spaced_cons, squeeze_head, andb_false_r, IH.
  - now rewrite single_spaced_cons, E, IH.
Qed.

Lemma squeeze_fixed (s : str) (b : bool) :
  single_spaced s = true -> (b = true -> head_is is_sp s = false) ->
  squeeze b s = s.
Proof.
  revert b. induction s as [|c t IH]; intros b Hs Hb; [reflexivity|].
  rewrite single_spaced_cons in Hs. apply andb_prop in Hs.
  destruct Hs as [H1 H2]. cbn [squeeze].
  destruct (is_sp c) eqn:E.
  - destruct b; [specialize (Hb eq_refl); simpl in Hb; congruence|].
    f_equal. apply IH; [exact H2|]. intros _.
    simpl in H1. now destruct (head_is is_sp t).
  - f_equal. apply IH; [exact H2 | discriminate].
Qed.

Lemma squeeze_Forall (P : ascii -> Prop) (s : str) (b : bool) :
  Forall P s -> Forall P (squeeze b s).
Proof.
  intros H. revert b. induction H as [|c t Hc Ht IH]; intros b; [constructor|].
  cbn [squeeze]. destruct (is_sp c); [destruct b|]; auto.
Qed.

Lemma replace_tabs_no_tab (s : str) :
  Forall (fun c => ceqb c TAB = false) (replace_tabs s).
Proof.
  unfold replace_tabs. induction s as [|c t IH]; simpl; constructor; auto.
  destruct (ceqb c TAB) eqn:E; [reflexivity | exact E].
Qed.

Lemma replace_tabs_fixed (s : str) :
  Forall (fun c => ceqb c TAB = false) s -> replace_tabs s = s.
Proof.
  unfold replace_tabs. induction 1 as [|c t Hc _ IH]; simpl; [reflexivity|].
  now rewrite Hc, IH.
Qed.

(** ** Stretches of a text *)


Lemma substr_trans (a b c : str) : substr a b -> substr b c -> substr a c.
Proof.
  intros (p1 & q1 & ->) (p2 & q2 & ->).
  exists (p2 ++ p1), (q1 ++ q2). now rewrite <- !app_assoc.
Qed.

Lemma substr_cons (l : str) (c : ascii) (s : str) :
  substr l s -> substr l (c :: s).
Proof. intros (p & q & ->). now exists (c :: p), q. Qed.

Lemma substr_Forall (P : ascii -> Prop) (l s : str) :
  substr l s -> Forall P s -> Forall P l.
Proof.
  intros (p & q & ->) H. apply Forall_app in H. destruct H as [_ H].
  now apply Forall_app in H.
Qed.

Lemma single_spaced_app (a b : str) :
  single_spaced (a ++ b) = true ->
  single_spaced a = true /\ single_spaced b = true.
Proof.
  induction a as [|c a IH]; intros H; [now split|].
  cbn [app] in H. rewrite single_spaced_cons in *.
  apply andb_prop in H. destruct H as [H1 H2].
  destruct (IH H2) as [Ha Hb]. split; [|exact Hb].
  rewrite Ha, andb_true_r.
  destruct a as [|d a]; [now rewrite andb_false_r | exact H1].
Qed.

Lemma substr_single_spaced (l s : str) :
  substr l s -> single_spaced s = true -> single_spaced l = true.
Proof.
  intros (p & q & ->) H. apply single_spaced_app in H. destruct H as [_ H].
  now apply single_spaced_app in H.
Qed.

(** ** [splitlines] *)

Lemma splitlines_first_prefix (s l : str) (ls : list str) :
  splitlines s = l :: ls -> exists post, s = l ++ post.
Proof.
  revert l ls. induction s as [|c t IH]; intros l ls; cbn [splitlines].
  - discriminate.
  - destruct (is_linebreak c).
    + intros H. injection H as <- _. now exists (c :: t).
    + destruct (splitlines t) as [|l0 ls0] eqn:E.
      * intros H. injection H as <- _. now exists t.
      * intros H. injection H as <- _.
        destruct (IH _ _ eq_refl) as (post & ->). now exists post.
Qed.

Lemma splitlines_tail (c : ascii) (t : str) :
  is_linebreak c = true ->
  exists t', splitlines (c :: t) = [] :: splitlines t' /\
             (t' = t \/ exists d, t = d :: t').
Proof.
  intros H. cbn [splitlines]. rewrite H.
  destruct (ceqb c CR); [|exists t; auto].
  destruct t as [|d t']; [exists []; auto|].
  destruct (ceqb d LF); [exists t'; split; [reflexivity | right; now exists d]
                        | exists (d :: t'); auto].
Qed.

Lemma splitlines_tail_length (t t' : str) :
  t' = t \/ (exists d, t = d :: t') -> length t' <= length t.
Proof. intros [->|(d & ->)]; simpl; lia. Qed.

Lemma splitlines_tail_substr (l t t' : str) :
  t' = t \/ (exists d, t = d :: t') -> substr l t' -> substr l t.
Proof. intros [->|(d & ->)] H; [exact H | now apply substr_cons]. Qed.

Lemma splitlines_substr_n (n : nat) :
  forall s l, length s <= n -> In l (splitlines s) -> substr l s.
Proof.
  induction n as [|n IH]; intros s l Hn.
  - destruct s; [intros [] | simpl in Hn; lia].
  - destruct s as [|c t]; [intros []|]. simpl in Hn.
    destruct (is_linebreak c) eqn:E.
    + destruct (splitlines_tail c t E) as (t' & -> & Ht).
      intros [<-|H]; [now exists [], (c :: t)|].
      apply substr_cons, (splitlines_tail_substr Ht).
      apply IH; [|exact H]. apply splitlines_tail_length in Ht. lia.
    + cbn [splitlines]. rewrite E.
      destruct (splitlines t) as [|l0 ls0] eqn:Es.
      * intros [<-|[]]. now exists [], t.
      * intros [<-|H].
        -- destruct (splitlines_first_prefix _ Es) as (post & ->).
           now exists [], post.
        -- apply substr_cons, IH; [lia|]. rewrite Es. now right.
Qed.

Lemma splitlines_substr (s l : str) : In l (splitlines s) -> substr l s.
Proof. now apply (splitlines_substr_n (n := length s)). Qed.

Lemma splitlines_no_break_n (n : nat) :
  forall s l, length s <= n -> In l (splitlines s) ->
              Forall (fun c => is_linebreak c = false) l.
Proof.
  induction n as [|n IH]; intros s l Hn.
  - destruct s; [intros [] | simpl in Hn; lia].
  - destruct s as [|c t]; [intros []|]. simpl in Hn.
    destruct (is_linebreak c) eqn:E.
    + destruct (splitlines_tail c t E) as (t' & -> & Ht).
      intros [<-|H]; [constructor|].
      apply (IH t'); [|exact H]. apply splitlines_tail_length in Ht. lia.
    + cbn [splitlines]. rewrite E.
      destruct (splitlines t) as [|l0 ls0] eqn:Es.
      * intros [<-|[]]. now repeat constructor.
      * intros [<-|H].
        -- constructor; [exact E|]. apply (IH t); [lia|]. rewrite Es. now left.
        -- apply (IH t); [lia|]. rewrite Es. now right.
Qed.

Lemma splitlines_no_break (s l : str) :
  In l (splitlines s) -> Forall (fun c => is_linebreak c = false) l.
Proof. now apply (splitlines_no_break_n (n := length s)). Qed.

Lemma splitlines_line (l : str) :
  l <> [] -> Forall (fun c => is_linebreak c = false) l -> splitlines l = [l].
Proof.
  intros Hne H. induction H as [|c t Hc Ht IH]; [congruence|].
  cbn [splitlines]. rewrite Hc.
  destruct t as [|d t]; [reflexivity|].
  now rewrite IH by discriminate.
Qed.

Lemma splitlines_app_lf (l x : str) :
  Forall (fun c => is_linebreak c = false) l ->
  splitlines (l ++ LF :: x) = l :: splitlines x.
Proof.
  induction 1 as [|c t Hc Ht IH]; [reflexivity|].
  cbn [app splitlines]. now rewrite Hc, IH.
Qed.

Lemma splitlines_join (lines : list str) :
  Forall (fun l => l <> [] /\ Forall (fun c => is_linebreak c = false) l)
         lines ->
  splitlines (join [LF] lines) = lines.
Proof.
  induction 1 as [|l rest [Hne Hl] Hrest IH]; [reflexivity|].
  cbn [join]. destruct rest as [|r rs].
  - now apply splitlines_line.
  - cbn [app]. rewrite splitlines_app_lf by exact Hl. now rewrite IH.
Qed.

(** ** [strip] *)

Lemma lstrip_head (s : str) : head_is is_space (lstrip s) = false.
Proof.
  induction s as [|c t IH]; [reflexivity|].
  cbn [lstrip]. destruct (is_space c) eqn:E; [exact IH | simpl; exact E].
Qed.

Lemma lstrip_fixed (s : str) : head_is is_space s = false -> lstrip s = s.
Proof. destruct s as [|c t]; simpl; [reflexivity | now intros ->]. Qed.

Lemma lstrip_idem (s : str) : lstrip (lstrip s) = lstrip s.
Proof. apply lstrip_fixed, lstrip_head. Qed.

Lemma lstrip_suffix (s : str) : exists pre, s = pre ++ lstrip s.
Proof.
  induction s as [|c t IH]; [now exists []|].
  cbn [lstrip]. destruct (is_space c); [|now exists []].
  destruct IH as (pre & H). exists (c :: pre). simpl. now rewrite <- H.
Qed.

Lemma lstrip_app_nonspace (a : str) (c : ascii) (b : str) :
  is_space c = false -> lstrip (a ++ c :: b) = lstrip a ++ c :: b.
Proof.
  intros Hc. induction a as [|x a IH]; simpl.
  - now rewrite Hc.
  - destruct (is_space x); [exact IH | reflexivity].
Qed.

Lemma rstrip_cons_nonspace (c : ascii) (y : str) :
  is_space c = false -> rstrip (c :: y) = c :: rstrip y.
Proof.
  intros Hc. unfold rstrip. cbn [rev].
  rewrite lstrip_app_nonspace by exact Hc.
  now rewrite rev_app_distr.
Qed.

Lemma rstrip_idem (s : str) : rstrip (rstrip s) = rstrip s.
Proof. unfold rstrip. now rewrite rev_involutive, lstrip_idem. Qed.

Lemma rstrip_prefix (s : str) : exists post, s = rstrip s ++ post.
Proof.
  unfold rstrip. destruct (lstrip_suffix (rev s)) as (pre & H).
  exists (rev pre). rewrite <- rev_app_distr, <- H. now rewrite rev_involutive.
Qed.

Lemma strip_idem (s : str) : strip (strip s) = strip s.
Proof.
  unfold strip. pose proof (lstrip_head s) as H.
  destruct (lstrip s) as [|c y]; [reflexivity|]. simpl in H.
  rewrite rstrip_cons_nonspace by exact H.
  rewrite lstrip_fixed by (simpl; exact H).
  rewrite rstrip_cons_nonspace by exact H. now rewrite rstrip_idem.
Qed.

Lemma strip_substr (s : str) : substr (strip s) s.
Proof.
  unfold strip. destruct (lstrip_suffix s) as (pre & H).
  destruct (rstrip_prefix (lstrip s)) as (post & H').
  exists pre, post. now rewrite <- H'.
Qed.

(** ** [join] *)

Lemma join_Forall (P : ascii -> Prop) (lines : list str) :
  P LF -> Forall (Forall P) lines -> Forall P (join [LF] lines).
Proof.
  intros HP. induction 1 as [|l rest Hl Hrest IH]; [constructor|].
  cbn [join]. destruct rest as [|r rs]; [exact Hl|].
  apply Forall_app. split; [exact Hl|]. now constructor.
Qed.

Lemma single_spaced_join2 (a b : str) :
  single_spaced a = true -> single_spaced b = true ->
  single_spaced (a ++ LF :: b) = true.
Proof.
  intros Ha Hb. induction a as [|c a IH].
  - cbn [app]. now rewrite single_spaced_cons, Hb.
  - cbn [app]. rewrite single_spaced_cons in *.
    apply andb_prop in Ha. destruct Ha as [H1 H2].
    rewrite (IH H2), andb_true_r.
    destruct a as [|d a]; [now rewrite andb_false_r | exact H1].
Qed.

Lemma join_single_spaced (lines : list str) :
  Forall (fun l => single_spaced l = true) lines ->
  single_spaced (join [LF] lines) = true.
Proof.
  induction 1 as [|l rest Hl Hrest IH]; [reflexivity|].
  cbn [join]. destruct rest as [|r rs]; [exact Hl|].
  now apply single_spaced_join2.
Qed.

(** ** Whitespace normalization *)

Lemma sub_spaces (code : str) : sub spaces [SP] code = squeeze false code.
Proof. unfold sub. now apply (sub_spaces_squeeze (n := length code)). Qed.

Lemma normalize_whitespace_unfold (code : str) :
  _normalize_whitespace code
  = join [LF]
      (map strip
         (filter (fun line => nonempty (strip line))
            (splitlines (squeeze false (replace_tabs code))))).
Proof. unfold _normalize_whitespace. now rewrite sub_spaces. Qed.

(** The result is made of clean lines, one line feed between two. *)
Lemma normalize_whitespace_lines (code : str) :
  exists lines,
    _normalize_whitespace code = join [LF] lines /\ Forall clean lines.
Proof.
  rewrite normalize_whitespace_unfold.
  set (X := squeeze false (replace_tabs code)).
  exists (map strip (filter (fun line => nonempty (strip line)) (splitlines X))).
  split; [reflexivity|].
  apply Forall_forall. intros l Hl.
  apply in_map_iff in Hl. destruct Hl as (l0 & <- & Hl0).
  apply filter_In in Hl0. destruct Hl0 as [Hin Hne].
  assert (Hsub : substr (strip l0) X)
    by (eapply substr_trans;
        [apply strip_substr | exact (@splitlines_substr X l0 Hin)]).
  unfold clean. split; [|split; [|split; [|split]]].
  - now destruct (strip l0).
  - apply strip_idem.
  - eapply substr_Forall;
      [apply strip_substr | exact (@splitlines_no_break X l0 Hin)].
  - eapply substr_Forall; [exact Hsub|].
    apply squeeze_Forall, replace_tabs_no_tab.
  - eapply substr_single_spaced; [exact Hsub|]. apply squeeze_single_spaced.
Qed.

(** Clean lines are left as they are. *)
Lemma normalize_whitespace_clean (lines : list str) :
  Forall clean lines ->
  _normalize_whitespace (join [LF] lines) = join [LF] lines.
Proof.
  intros H. rewrite normalize_whitespace_unfold.
  rewrite replace_tabs_fixed.
  2:{ apply join_Forall; [reflexivity|].
      eapply Forall_impl; [|exact H]. now intros l (_ & _ & _ & Ht & _). }
  rewrite squeeze_fixed; [| |discriminate].
  2:{ apply join_single_spaced.
      eapply Forall_impl; [|exact H]. now intros l (_ & _ & _ & _ & Hs). }
  rewrite splitlines_join.
  2:{ eapply Forall_impl; [|exact H]. now intros l (Hne & _ & Hb & _). }
  f_equal. induction H as [|l rest (Hne & Hs & _) Hrest IH]; [reflexivity|].
  cbn [filter]. rewrite Hs.
  destruct l as [|c l]; [congruence|]. cbn [nonempty map].
  now rewrite Hs, IH.
Qed.

(** C7.  Whitespace normalization is idempotent: a second pass changes
    nothing, for [_normalize_whitespace] and for [normalize] with the
    whitespace option alone. *)
Theorem normalize_whitespace_idempotent (S : str) :
  _normalize_whitespace (_normalize_whitespace S) = _normalize_whitespace S /\
  normalize (normalize S false true false) false true false
  = normalize S false true false.
Proof.
  assert (H : _normalize_whitespace (_normalize_whitespace S)
              = _normalize_whitespace S).
  { destruct (normalize_whitespace_lines S) as (lines & -> & Hc).
    now apply normalize_whitespace_clean. }
  split; [exact H | exact H].
Qed.

(** ** The matches that [findall] reports cover every place where a
    match starts *)

Section Covering.

Variable p : pattern.
Hypothesis never_empty :
  forall s e, match_at p false s = Some e -> 0 < matched_len s e.

Lemma findall_covers (M : str) :
  forall A bef skip,
    skip <= length A ->
    match_at p false (start_pos (rev A ++ bef) M) <> None ->
    exists A1 A2 e,
      A = A1 ++ A2 /\
      match_at p false (start_pos (rev A1 ++ bef) (A2 ++ M)) = Some e /\
      length A2 < matched_len (start_pos (rev A1 ++ bef) (A2 ++ M)) e /\
      In (text_between (start_pos (rev A1 ++ bef) (A2 ++ M)) e)
         (findall_from p bef (A ++ M) skip).
Proof.
  unfold findall_from.
  induction A as [|c A IH]; intros bef skip Hskip Hm.
  - simpl in Hskip. replace skip with 0 by lia. cbn [app rev] in *.
    destruct (match_at p false (start_pos bef M)) as [e|] eqn:E;
      [|congruence].
    pose proof (never_empty _ E) as Hpos.
    exists [], [], e. cbn [app rev length].
    split; [reflexivity|]. split; [exact E|]. split; [exact Hpos|].
    destruct M as [|d t]; cbn [scan]; rewrite E.
    + unfold matched_len in Hpos; simpl in Hpos. lia.
    + destruct (matched_len (start_pos bef (d :: t)) e); [lia | now left].
  - assert (Hrec : forall n, n <= length A ->
              exists A1 A2 e,
                c :: A = A1 ++ A2 /\
                match_at p false (start_pos (rev A1 ++ bef) (A2 ++ M)) = Some e /\
                length A2 < matched_len (start_pos (rev A1 ++ bef) (A2 ++ M)) e /\
                In (text_between (start_pos (rev A1 ++ bef) (A2 ++ M)) e)
                   (scan p (fun s e acc => text_between s e :: acc)
                         (fun _ acc => acc) [] (c :: bef) (A ++ M) n)).
    { intros n Hn.
      destruct (IH (c :: bef) n Hn) as (A1 & A2 & e & -> & He & Hl & Hin).
      { cbn [rev] in Hm. now rewrite <- app_assoc in Hm. }
      exists (c :: A1), A2, e. cbn [rev].
      rewrite <- (app_assoc (rev A1) [c] bef). cbn [app].
      now repeat split. }
    destruct skip as [|n].
    + cbn [app scan].
      destruct (match_at p false (start_pos bef (c :: A ++ M))) as [e|] eqn:E.
      * pose proof (never_empty _ E) as Hpos.
        destruct (matched_len (start_pos bef (c :: A ++ M)) e) as [|n] eqn:El;
          [lia|].
        destruct (Nat.le_gt_cases n (length A)) as [Hle|Hgt].
        -- destruct (Hrec n Hle) as (A1 & A2 & e' & HA & He & Hl & Hin).
           exists A1, A2, e'. repeat split; try assumption. now right.
        -- exists [], (c :: A), e. cbn [rev app].
           split; [reflexivity|]. split; [exact E|].
           split; [rewrite El; simpl; lia | now left].
      * destruct (Hrec 0 (Nat.le_0_l _)) as (A1 & A2 & e' & HA & He & Hl & Hin).
        now exists A1, A2, e'.
    + cbn [app scan]. apply Hrec. simpl in Hskip. lia.
Qed.

End Covering.

(** ** The byte-array literal *)

Lemma Lang_plus_not_brace (w : str) :
  Lang no_flags (plus (noneof [IChar "}"])) w
  <-> w <> [] /\ Forall (fun x => negb (ceqb x "}") = true) w.
Proof.
  unfold plus, noneof. rewrite Lang_rep_chr. simpl. split.
  - intros (H & _ & Hall). split.
    + destruct w; [simpl in H; lia | discriminate].
    + eapply Forall_impl; [|exact Hall]. intros c. cbn.
      now rewrite orb_false_r.
  - intros [H Hall]. split; [destruct w; [congruence | simpl; lia]|].
    split; [exact I|].
    eapply Forall_impl; [|exact Hall]. intros c. cbn.
    now rewrite orb_false_r.
Qed.

Lemma Lang_byte_array (w : str) :
  Lang no_flags byte_array_literal w <-> byte_array_word w.
Proof.
  unfold byte_array_literal, byte_array_word. split.
  - intros H.
    apply Lang_seq_cons in H. destruct H as (a1 & x & -> & H1 & H).
    apply Lang_seq_cons in H. destruct H as (w1 & x1 & -> & Hw1 & H).
    apply Lang_seq_cons in H. destruct H as (a2 & x2 & -> & H2 & H).
    apply Lang_seq_cons in H. destruct H as (w2 & x3 & -> & Hw2 & H).
    apply Lang_seq_cons in H. destruct H as (a3 & x4 & -> & H3 & H).
    apply Lang_seq_cons in H. destruct H as (w3 & x5 & -> & Hw3 & H).
    apply Lang_seq_cons in H. destruct H as (a4 & x6 & -> & H4 & H).
    apply Lang_seq_cons in H. destruct H as (w4 & x7 & -> & Hw4 & H).
    apply Lang_seq_cons in H. destruct H as (a5 & x8 & -> & H5 & H).
    apply Lang_seq_cons in H. destruct H as (body & x9 & -> & Hb & H).
    apply Lang_seq_cons in H. destruct H as (a6 & x10 & -> & H6 & H).
    apply Lang_seq_nil in H. subst x10.
    apply Lang_lits_cs in H1, H2, H3, H4, H5, H6; try reflexivity. subst.
    apply Lang_plus_ws in Hw1. destruct Hw1 as [Hne Hw1].
    apply Lang_star_ws in Hw2, Hw3, Hw4.
    apply Lang_plus_not_brace in Hb. destruct Hb as [Hbne Hb].
    exists w1, w2, w3, w4, body. rewrite app_nil_r.
    repeat split; assumption.
  - intros (w1 & w2 & w3 & w4 & body & -> & Hne & H1 & H2 & H3 & H4 & Hbne & Hb).
    apply Lang_seq_cons. eexists (T "new"), _.
    split; [reflexivity | split; [now apply Lang_lits_cs|]].
    apply Lang_seq_cons. eexists w1, _.
    split; [reflexivity | split; [now apply Lang_plus_ws|]].
    apply Lang_seq_cons. eexists (T "byte"), _.
    split; [reflexivity | split; [now apply Lang_lits_cs|]].
    apply Lang_seq_cons. eexists w2, _.
    split; [reflexivity | split; [now apply Lang_star_ws|]].
    apply Lang_seq_cons. eexists (T "["), _.
    split; [reflexivity | split; [now apply Lang_lits_cs|]].
    apply Lang_seq_cons. eexists w3, _.
    split; [reflexivity | split; [now apply Lang_star_ws|]].
    apply Lang_seq_cons. eexists (T "]"), _.
    split; [reflexivity | split; [now apply Lang_lits_cs|]].
    apply Lang_seq_cons. eexists w4, _.
    split; [reflexivity | split; [now apply Lang_star_ws|]].
    apply Lang_seq_cons. eexists (T "{"), _.
    split; [reflexivity | split; [now apply Lang_lits_cs|]].
    apply Lang_seq_cons. eexists body, _.
    split; [reflexivity | split; [now apply Lang_plus_not_brace|]].
    apply Lang_seq_cons. exists (T "}"), [].
    split; [reflexivity | split; [now apply Lang_lits_cs | reflexivity]].
Qed.

Lemma byte_array_never_empty (s e : pos) :
  match_at byte_array_pattern false s = Some e -> 0 < matched_len s e.
Proof.
  destruct s as [bef aft g]. intros H.
  apply match_at_sound in H.
  apply (plain_matches no_flags byte_array_literal eq_refl) in H.
  destruct H as (w & Hw & Hr). apply reads_text in Hr. destruct Hr as [_ ->].
  apply Lang_byte_array in Hw.
  destruct Hw as (w1 & w2 & w3 & w4 & body & -> & _). simpl. lia.
Qed.

Lemma span_split (P : ascii -> bool) (a : str) (x : ascii) (r s : str) :
  Forall (fun c => P c = true) a -> P x = false -> s = a ++ x :: r ->
  a = firstn (run_len P s) s /\ x :: r = skipn (run_len P s) s.
Proof.
  intros Ha Hx ->. induction Ha as [|c a Hc Ha IH]; cbn [app run_len].
  - now rewrite Hx.
  - rewrite Hc. cbn [firstn skipn]. destruct IH as [IH1 IH2].
    now rewrite <- IH1, <- IH2.
Qed.

Lemma past_prefix (x : ascii) (H A X Y : str) :
  Forall (fun c => c <> x) H -> A ++ x :: X = H ++ Y ->
  exists b, A = H ++ b /\ Y = b ++ x :: X.
Proof.
  intros HH. revert A. induction HH as [|h H Hh HH IH]; intros A E.
  - now exists A.
  - destruct A as [|a A]; cbn [app] in E.
    + injection E as E _. congruence.
    + injection E as -> E. destruct (IH _ E) as (b & -> & ->). now exists b.
Qed.

Lemma app_prefix (a b c d : str) :
  a ++ b = c ++ d -> length c <= length a ->
  exists m, a = c ++ m /\ d = m ++ b.
Proof.
  revert a. induction c as [|x c IH]; intros a E Hl.
  - now exists a.
  - destruct a as [|y a]; [simpl in Hl; lia|].
    cbn [app] in E. injection E as -> E.
    destruct (IH a E) as (m' & -> & ->); [simpl in Hl; lia|]. now exists m'.
Qed.

Lemma space_not_n (w : str) :
  Forall (fun x => is_space x = true) w -> Forall (fun c => c <> "n"%char) w.
Proof.
  intros H. eapply Forall_impl; [|exact H]. intros c Hc ->. discriminate.
Qed.

(** A match of the byte-array pattern that reaches into an occurrence of
    the example literal ends with that literal; it is the literal itself
    unless it started at an earlier opening brace. *)
Lemma byte_array_overlap (w A2 post rest : str) :
  byte_array_word w ->
  A2 ++ example_literal ++ post = w ++ rest ->
  length A2 < length w ->
  w = A2 ++ example_literal /\ (A2 = [] \/ In "{"%char A2).
Proof.
  intros (w1 & w2 & w3 & w4 & body & -> & Hne & H1 & H2 & H3 & H4 & Hbne & Hb)
         E Hlen.
  rewrite <- !app_assoc in E.
  destruct A2 as [|a A2].
  - (* the match starts at the literal: it is the literal *)
    split; [|now left]. cbn [app] in E.
    unfold example_literal in E. simpl in E.
    injection E as E.
    pose proof (@span_split is_space w1 "b"%char _ _ H1 eq_refl E) as [Ew E1].
    simpl in Ew, E1. injection E1 as E1. symmetry in E1.
    pose proof (@span_split is_space w2 "["%char _ _ H2 eq_refl E1) as [Ew2 E2].
    simpl in Ew2, E2. injection E2 as E2. symmetry in E2.
    pose proof (@span_split is_space w3 "]"%char _ _ H3 eq_refl E2) as [Ew3 E3].
    simpl in Ew3, E3. injection E3 as E3. symmetry in E3.
    pose proof (@span_split is_space w4 "{"%char _ _ H4 eq_refl E3) as [Ew4 E4].
    simpl in Ew4, E4. injection E4 as E4. symmetry in E4.
    pose proof (@span_split (fun x => negb (ceqb x "}")) body "}"%char _ _
                            Hb eq_refl E4) as [Eb _].
    simpl in Eb. subst. reflexivity.
  - (* the match starts before: the literal begins inside its braces *)
    set (Hd := T "ew" ++ w1 ++ T "byte" ++ w2 ++ T "[" ++ w3 ++ T "]" ++ w4
                 ++ T "{").
    simpl in E. injection E as -> E.
    assert (E' : A2 ++ "n"%char :: (T "ew byte[] {0x01,0x02}" ++ post)
                 = Hd ++ body ++ T "}" ++ rest).
    { subst Hd. rewrite <- !app_assoc. simpl. exact E. }
    assert (Hn : Forall (fun c => c <> "n"%char) Hd).
    { subst Hd. repeat (apply Forall_app; split);
        try (now apply space_not_n); repeat constructor; discriminate. }
    destruct (past_prefix _ _ _ Hn E') as (b1 & -> & E2).
    assert (Hl : length b1 <= length body).
    { subst Hd. repeat (rewrite !length_app in Hlen; simpl in Hlen). lia. }
    destruct (app_prefix _ _ _ _ E2 Hl) as (mid & -> & E3).
    apply Forall_app in Hb. destruct Hb as [_ Hmid].
    pose proof (@span_split (fun x => negb (ceqb x "}")) mid "}"%char _ _
                            Hmid eq_refl E3) as [Em _].
    simpl in Em. subst mid. split.
    + subst Hd. unfold example_literal.
      do 4 (simpl; rewrite <- ?app_assoc). reflexivity.
    + right. right. subst Hd. rewrite <- !app_assoc.
      do 8 (apply in_or_app; right). now left.
Qed.

Lemma predict_insecure (S : str) (name : string) (p : pattern) :
  In (name, p) _RULES -> search p S = true -> predict S = "insecure"%string.
Proof.
  intros Hin Hs. unfold predict. rewrite predict_rules_existsb.
  replace (existsb (fires S) _RULES) with true; [reflexivity|].
  symmetry. apply existsb_exists. now exists (name, p).
Qed.

(** C9, as it is written, fails: when an earlier [new byte[] {] is still
    open, the entry reported for the example is a longer text that ends
    with the literal, and the literal itself is not in the list. *)
Lemma hardcoded_secrets_entry_is_longer :
  contains example_key (T "new byte[] {" ++ example_key) = true /\
  hardcoded_secrets (extract_features (T "new byte[] {" ++ example_key))
  = [T "new byte[] {new SecretKeySpec(" ++ example_literal] /\
  ~ In example_literal
       (hardcoded_secrets (extract_features (T "new byte[] {" ++ example_key))).
Proof.
  split; [vm_compute; reflexivity|].
  assert (E : hardcoded_secrets
                (extract_features (T "new byte[] {" ++ example_key))
              = [T "new byte[] {new SecretKeySpec(" ++ example_literal])
    by (vm_compute; reflexivity).
  split; [exact E|]. rewrite E. intros [H|[]]. discriminate H.
Qed.

Lemma findall_byte_array_example (A post : str) :
  exists A1 A2,
    A = A1 ++ A2 /\ (A2 = [] \/ In "{"%char A2) /\
    In (A2 ++ example_literal)
       (findall byte_array_pattern (A ++ example_literal ++ post)).
Proof.
  assert (Hw : Lang no_flags byte_array_literal example_literal)
    by (apply full_match_Lang; [reflexivity | vm_compute; reflexivity]).
  destruct (@findall_covers byte_array_pattern byte_array_never_empty
              (example_literal ++ post) A [] 0 (Nat.le_0_l _))
    as (A1 & A2 & e & HA & He & Hl & Hin).
  { now apply match_at_of_word. }
  destruct (@match_at_word byte_array_pattern false _ _ e eq_refl He)
    as (w & Hlang & Hsplit & Htext & Hlen).
  rewrite Hlen in Hl. rewrite Htext in Hin.
  apply Lang_byte_array in Hlang.
  destruct (byte_array_overlap _ _ _ Hlang Hsplit Hl) as [-> Hor].
  exists A1, A2. split; [exact HA|]. split; [exact Hor | exact Hin].
Qed.

(** C9, amended.  On every text that contains the example, [predict]
    answers "insecure" and [hardcoded_key] is among the triggered rules;
    the list of hard-coded secrets has an entry that ends with the
    byte-array literal, and the literal itself is an entry whenever no
    opening brace occurs before the example, as on the example alone. *)
Theorem hardcoded_key_example (pre post : str) :
  predict (pre ++ example_key ++ post) = "insecure"%string /\
  In "hardcoded_key"%string
     (triggered_rules (predict_detailed (pre ++ example_key ++ post))) /\
  (exists x,
      In (x ++ example_literal)
         (hardcoded_secrets (extract_features (pre ++ example_key ++ post)))) /\
  (~ In "{"%char pre ->
   In example_literal
      (hardcoded_secrets (extract_features (pre ++ example_key ++ post)))) /\
  hardcoded_secrets (extract_features example_key) = [example_literal].
Proof.
  assert (Hs : search (Pattern ignorecase hardcoded_key)
                      (pre ++ example_key ++ post) = true).
  { change example_key
      with (T "new SecretKeySpec(new byte[] {"
              ++ (T "0x01,0x02}, " ++ [DQ] ++ T "AES" ++ [DQ] ++ T ")")).
    rewrite <- app_assoc.
    apply (@search_of_word (Pattern ignorecase hardcoded_key)); [reflexivity|].
    apply full_match_Lang; [reflexivity | vm_compute; reflexivity]. }
  assert (Hrule : In ("hardcoded_key"%string, Pattern ignorecase hardcoded_key)
                     _RULES) by (vm_compute; tauto).
  split; [exact (predict_insecure _ Hrule Hs)|].
  split; [apply triggered_rules_In; now exists (Pattern ignorecase hardcoded_key)|].
  assert (Hsplit : pre ++ example_key ++ post
                   = (pre ++ T "new SecretKeySpec(") ++ example_literal
                       ++ (T ", " ++ [DQ] ++ T "AES" ++ [DQ] ++ T ")" ++ post)).
  { unfold example_key. now rewrite <- !app_assoc. }
  destruct (findall_byte_array_example (pre ++ T "new SecretKeySpec(")
              (T ", " ++ [DQ] ++ T "AES" ++ [DQ] ++ T ")" ++ post))
    as (A1 & A2 & HA & Hor & Hin).
  rewrite <- Hsplit in Hin.
  assert (Hsec : forall x,
             In x (findall byte_array_pattern (pre ++ example_key ++ post)) ->
             In x (hardcoded_secrets
                     (extract_features (pre ++ example_key ++ post)))).
  { intros x Hx. cbn [extract_features hardcoded_secrets].
    unfold _extract_hardcoded_secrets, findall_each.
    cbn [_HARDCODED_PATTERNS map flat_map]. apply in_or_app. now left. }
  split; [exists A2; now apply Hsec|].
  split; [|vm_compute; reflexivity].
  intros Hpre. destruct Hor as [->|Hbrace]; [now apply Hsec|].
  exfalso.
  assert (Hin' : In "{"%char (pre ++ T "new SecretKeySpec("))
    by (rewrite HA; apply in_or_app; now right).
  apply in_app_or in Hin'. destruct Hin' as [H|H]; [now apply Hpre|].
  vm_compute in H. repeat (destruct H as [H|H]; [discriminate H|]). exact H.
Qed.

(** * Further properties *)

(** ** The rule engine under added context *)

Lemma rules_are_plain :
  forallb (fun r => plain (pat_re (snd r))) _RULES = true.
Proof. vm_compute. reflexivity. Qed.

Lemma search_in_context (p : pattern) (S pre post : str) :
  plain (pat_re p) = true ->
  search p S = true -> search p (pre ++ S ++ post) = true.
Proof.
  intros Hp H. apply (search_plain _ _ Hp) in H.
  destruct H as (a & w & b & -> & Hw).
  apply (search_plain _ _ Hp). exists (pre ++ a), w, (b ++ post).
  split; [now rewrite <- !app_assoc | exact Hw].
Qed.

Lemma predict_two_labels (S : str) :
  predict S = "secure"%string \/ predict S = "insecure"%string.
Proof.
  unfold predict. rewrite predict_rules_existsb.
  destruct (existsb (fires S) _RULES); [now right | now left].
Qed.

(** X1.  No rule looks outside its match: a rule triggered by a snippet
    is triggered by every text that contains the snippet, so text added
    before or after never turns "insecure" into "secure". *)
Theorem rules_survive_context (S pre post : str) :
  (forall name,
      In name (triggered_rules (predict_detailed S)) ->
      In name (triggered_rules (predict_detailed (pre ++ S ++ post)))) /\
  (predict S = "insecure"%string ->
   predict (pre ++ S ++ post) = "insecure"%string) /\
  (predict (pre ++ S ++ post) = "secure"%string ->
   predict S = "secure"%string).
Proof.
  assert (Hplain : forall name p, In (name, p) _RULES -> plain (pat_re p) = true).
  { intros name p Hin. pose proof rules_are_plain as H.
    rewrite forallb_forall in H. exact (H _ Hin). }
  assert (Hins : predict S = "insecure"%string ->
                 predict (pre ++ S ++ post) = "insecure"%string).
  { unfold predict. rewrite !predict_rules_existsb.
    destruct (existsb (fires S) _RULES) eqn:E; [|discriminate].
    intros _. apply existsb_exists in E. destruct E as ([name p] & Hin & Hf).
    replace (existsb (fires (pre ++ S ++ post)) _RULES) with true;
      [reflexivity|].
    symmetry. apply existsb_exists. exists (name, p). split; [exact Hin|].
    unfold fires in *. simpl in *.
    apply search_in_context; [exact (Hplain _ _ Hin) | exact Hf]. }
  split; [|split; [exact Hins|]].
  - intros name Hin. apply triggered_rules_In in Hin.
    destruct Hin as (p & Hin & Hs). apply triggered_rules_In.
    exists p. split; [exact Hin|].
    apply search_in_context; [exact (Hplain _ _ Hin) | exact Hs].
  - intros Hsec. destruct (predict_two_labels S) as [H|H]; [exact H|].
    apply Hins in H. rewrite H in Hsec. discriminate.
Qed.

(** X2.  The list of triggered rules names each matching rule once, in
    the order of registration: it is the list of the ten names with the
    names of the rules that do not match left out. *)
Theorem triggered_rules_in_registration_order (S : str) :
  triggered_rules (predict_detailed S) = map fst (filter (fires S) _RULES) /\
  NoDup (triggered_rules (predict_detailed S)) /\
  length (triggered_rules (predict_detailed S)) <= 10 /\
  (forall name, In name (triggered_rules (predict_detailed S)) ->
                In name (map fst _RULES)).
Proof.
  assert (E : triggered_rules (predict_detailed S)
              = map fst (filter (fires S) _RULES)).
  { unfold predict_detailed; cbn [triggered_rules].
    now rewrite triggered_by_filter. }
  rewrite E. split; [reflexivity|].
  assert (Hnd : forall l : list (string * pattern),
             NoDup (map fst l) -> NoDup (map fst (filter (fires S) l))).
  { induction l as [|r l IH]; simpl; intros H; [constructor|].
    inversion H as [|x xs Hx Hxs]; subst.
    destruct (fires S r); simpl; [|now apply IH].
    constructor; [|now apply IH].
    intros Hin. apply Hx. apply in_map_iff in Hin.
    destruct Hin as (y & Hy & Hin). apply filter_In in Hin.
    apply in_map_iff. exists y. tauto. }
  split; [|split].
  - apply Hnd. vm_compute.
    repeat (constructor; [intros H; repeat (destruct H as [H|H];
                                           [discriminate H|]); exact H|]).
    constructor.
  - rewrite length_map.
    change 10 with (length _RULES). apply filter_length_le.
  - intros name Hin. apply in_map_iff in Hin.
    destruct Hin as (y & Hy & Hin). apply filter_In in Hin.
    apply in_map_iff. exists y. tauto.
Qed.

(** ** Rules and keywords *)

Lemma same_letters_upper (d x : str) :
  same_letters d x -> str_upper d = str_upper x.
Proof.
  unfold same_letters, str_upper. intros H.
  assert (E : forall l, map upper l = map upper (map lower l)).
  { intros l. rewrite map_map. apply map_ext. intros c.
    now rewrite upper_lower. }
  now rewrite (E d), (E x), H.
Qed.

Lemma Lang_seq_nth (fl : flags) (rs : list regex) :
  IGNORECASE fl = true ->
  forall i x w,
    nth_error rs i = Some (lits x) -> Lang fl (seq rs) w ->
    exists a d b, w = a ++ d ++ b /\ same_letters d x.
Proof.
  intros Hic. induction rs as [|r rs IH]; intros i x w Hi Hw.
  - destruct i; discriminate.
  - apply Lang_seq_cons in Hw. destruct Hw as (w1 & w2 & -> & H1 & H2).
    destruct i as [|i]; simpl in Hi.
    + injection Hi as ->. apply (Lang_lits_ic _ _ _ Hic) in H1.
      now exists [], w1, w2.
    + destruct (IH i x w2 Hi H2) as (a & d & b & -> & Hd).
      exists (w1 ++ a), d, b. now rewrite <- app_assoc.
Qed.

Lemma triggers_iff (name : string) (code : str) :
  triggers name code <-> exists p, In (name, p) _RULES /\ search p code = true.
Proof. apply triggered_rules_In. Qed.

Ltac only_rule Hin :=
  unfold _RULES in Hin; cbn [In] in Hin;
  repeat (destruct Hin as [Hin|Hin];
          [first [discriminate Hin | injection Hin as <-]|]);
  try contradiction.

Lemma same_letters_app (a a' b b' : str) :
  same_letters a a' -> same_letters b b' -> same_letters (a ++ b) (a' ++ b').
Proof. unfold same_letters. intros H1 H2. now rewrite !map_app, H1, H2. Qed.

Lemma keyword_found (kw : string) (S pre d post : str) :
  In (T kw) _CRYPTO_KEYWORDS ->
  S = pre ++ d ++ post -> same_letters d (T kw) -> has_keyword kw S.
Proof.
  intros Hin -> Hd. unfold has_keyword.
  cbn [extract_features crypto_keywords]. unfold _extract_crypto_keywords.
  apply filter_In. split; [exact Hin|]. apply contains_infix.
  exists (str_upper pre), (str_upper post).
  rewrite <- (same_letters_upper Hd). unfold str_upper.
  now rewrite !map_app.
Qed.

Lemma rule_keyword (rs : list regex) (i : nat) (kw : string) (S : str) :
  plain (seq rs) = true ->
  nth_error rs i = Some (lit kw) ->
  In (T kw) _CRYPTO_KEYWORDS ->
  search (Pattern ignorecase (seq rs)) S = true -> has_keyword kw S.
Proof.
  intros Hp Hi Hin Hs.
  apply (@search_plain (Pattern ignorecase (seq rs)) S Hp) in Hs.
  destruct Hs as (pre & w & post & -> & Hw). cbn [pat_flags pat_re] in Hw.
  destruct (@Lang_seq_nth ignorecase rs eq_refl i (T kw) w Hi Hw)
    as (a & d & b & -> & Hd).
  apply (@keyword_found kw _ (pre ++ a) d (b ++ post)); [exact Hin| |exact Hd].
  now rewrite <- !app_assoc.
Qed.

Lemma Lang_opt_lit (fl : flags) (x h : str) :
  IGNORECASE fl = true -> Lang fl (opt (lits x)) h ->
  h = [] \/ same_letters h x.
Proof.
  intros Hic (ws & -> & _ & Hup & Hall). simpl in Hup.
  destruct ws as [|y [|z ws]]; [now left | | simpl in Hup; lia].
  right. inversion Hall as [|? ? [Hy _] _]; subst.
  simpl. rewrite app_nil_r. now apply (Lang_lits_ic _ _ _ Hic).
Qed.

Lemma sha1_keyword (S : str) :
  search (Pattern ignorecase sha1_hash) S = true ->
  has_keyword "SHA-1" S \/ has_keyword "SHA1" S.
Proof.
  intros Hs. apply (@search_plain (Pattern ignorecase sha1_hash) S eq_refl) in Hs.
  destruct Hs as (pre & w & post & -> & H).
  cbn [pat_flags pat_re] in H. unfold sha1_hash in H.
  apply Lang_seq_cons in H. destruct H as (p1 & q1 & -> & _ & H).
  apply Lang_seq_cons in H. destruct H as (p2 & q2 & -> & _ & H).
  apply Lang_seq_cons in H. destruct H as (p3 & q3 & -> & _ & H).
  apply Lang_seq_cons in H. destruct H as (p4 & q4 & -> & _ & H).
  apply Lang_seq_cons in H. destruct H as (p5 & q5 & -> & _ & H).
  apply Lang_seq_cons in H. destruct H as (d1 & tl1 & -> & H1 & H).
  apply Lang_seq_cons in H. destruct H as (h & tl2 & -> & Hh & H).
  apply Lang_seq_cons in H. destruct H as (d2 & tl3 & -> & H2 & H).
  apply (@Lang_lits_ic ignorecase _ _ eq_refl) in H1, H2.
  apply (@Lang_opt_lit ignorecase _ _ eq_refl) in Hh.
  destruct Hh as [->|Hh].
  - right.
    apply (@keyword_found "SHA1" _ (pre ++ p1 ++ p2 ++ p3 ++ p4 ++ p5)
             (d1 ++ d2) (tl3 ++ post));
      [vm_compute; tauto | | exact (same_letters_app H1 H2)].
    rewrite <- !app_assoc. reflexivity.
  - left.
    apply (@keyword_found "SHA-1" _ (pre ++ p1 ++ p2 ++ p3 ++ p4 ++ p5)
             (d1 ++ h ++ d2) (tl3 ++ post));
      [vm_compute; tauto | |
       exact (same_letters_app H1 (same_letters_app Hh H2))].
    rewrite <- !app_assoc. reflexivity.
Qed.

(** X3.  On a text of ASCII characters the rules about an algorithm and
    the keyword list of the feature extractor agree: when [ecb_mode],
    [md5_hash], [des_usage] or [no_padding] is triggered, the keyword ECB,
    MD5, DES or NoPadding is among the extracted keywords, and when
    [sha1_hash] is triggered so is SHA-1 or SHA1.  Beyond ASCII the two
    need not agree: a rule takes the dotted capital I for an i, and
    [str.upper] does not turn it into I. *)
Theorem triggered_rules_leave_keywords (S : str) :
  ascii_text S ->
  (triggers "ecb_mode" S -> has_keyword "ECB" S) /\
  (triggers "md5_hash" S -> has_keyword "MD5" S) /\
  (triggers "sha1_hash" S -> has_keyword "SHA-1" S \/ has_keyword "SHA1" S) /\
  (triggers "des_usage" S -> has_keyword "DES" S) /\
  (triggers "no_padding" S -> has_keyword "NoPadding" S).
Proof.
  intros _.
  repeat split; intros H; apply triggers_iff in H;
    destruct H as (p & Hin & Hs); only_rule Hin.
  - unfold ecb_mode in Hs.
    apply (@rule_keyword _ 6 "ECB") in Hs;
      [exact Hs | reflexivity | reflexivity | vm_compute; tauto].
  - unfold md5_hash in Hs.
    apply (@rule_keyword _ 5 "MD5") in Hs;
      [exact Hs | reflexivity | reflexivity | vm_compute; tauto].
  - now apply sha1_keyword.
  - unfold des_usage in Hs.
    apply (@rule_keyword _ 5 "DES") in Hs;
      [exact Hs | reflexivity | reflexivity | vm_compute; tauto].
  - unfold no_padding in Hs.
    apply (@rule_keyword _ 6 "NoPadding") in Hs;
      [exact Hs | reflexivity | reflexivity | vm_compute; tauto].
Qed.

(** A call in lower case, on which three of the rules are triggered. *)
Lemma triggered_rules_leave_keywords_witness :
  ascii_text (T "c = cipher.getinstance(" ++ DQ :: T "des/ecb/nopadding"
                ++ DQ :: T ");") /\
  triggers "ecb_mode" (T "c = cipher.getinstance(" ++ DQ :: T "des/ecb/nopadding"
                         ++ DQ :: T ");") /\
  has_keyword "ECB" (T "c = cipher.getinstance(" ++ DQ :: T "des/ecb/nopadding"
                       ++ DQ :: T ");") /\
  has_keyword "DES" (T "c = cipher.getinstance(" ++ DQ :: T "des/ecb/nopadding"
                       ++ DQ :: T ");") /\
  has_keyword "NoPadding" (T "c = cipher.getinstance(" ++ DQ
                             :: T "des/ecb/nopadding" ++ DQ :: T ");").
Proof.
  assert (Ha : ascii_text (T "c = cipher.getinstance(" ++ DQ
                             :: T "des/ecb/nopadding" ++ DQ :: T ");"))
    by reflexivity.
  destruct (triggered_rules_leave_keywords Ha) as (H1 & _ & _ & H4 & H5).
  split; [exact Ha|].
  split; [unfold triggers; vm_compute; auto|].
  split; [apply H1|split; [apply H4|apply H5]];
    unfold triggers; vm_compute; auto.
Defined.

(** ** The label of a file of CryptoAPI-Bench *)

Lemma any_in_substr (patterns : list str) (name_lower : str) :
  any_in patterns name_lower = true
  <-> exists p, In p patterns /\ substr p name_lower.
Proof.
  induction patterns as [|pat rest IH]; cbn [any_in].
  - split; [discriminate | now intros (p & [] & _)].
  - destruct (contains pat name_lower) eqn:E.
    + split; [intros _|reflexivity]. exists pat. split; [now left|].
      now apply contains_infix.
    + rewrite IH. split.
      * intros (p & Hin & Hs). exists p. split; [now right | exact Hs].
      * intros (p & [<-|Hin] & Hs).
        -- apply contains_infix in Hs. congruence.
        -- now exists p.
Qed.

Lemma substr_context (w s pre post : str) :
  substr w s -> substr w (pre ++ s ++ post).
Proof.
  intros (a & b & ->). exists (pre ++ a), (b ++ post).
  now rewrite <- !app_assoc.
Qed.

Lemma str_lower_app (a b : str) : str_lower (a ++ b) = str_lower a ++ str_lower b.
Proof. apply map_app. Qed.

Lemma any_in_context (patterns : list str) (f pre post : str) :
  any_in patterns (str_lower f) = true ->
  any_in patterns (str_lower (pre ++ f ++ post)) = true.
Proof.
  rewrite !any_in_substr. intros (p & Hin & Hs). exists p. split; [exact Hin|].
  rewrite !str_lower_app. now apply substr_context.
Qed.

(** X4.  [_infer_label] of CryptoAPI-Bench looks for the insecure words
    first: a file name is labelled insecure exactly when one of the six
    insecure words occurs in its lowered form, whatever else occurs in it,
    and it gets no label exactly when none of the eleven words occurs.  An
    insecure label survives any text put before and after the name, and a
    name that has a label keeps having one. *)
Theorem infer_label_insecure_first (f pre post : str) :
  (_infer_label f = Some "insecure"%string
   <-> exists p, In p insecure_patterns /\ substr p (str_lower f)) /\
  (_infer_label f = None
   <-> forall p, In p (insecure_patterns ++ secure_patterns) ->
                 ~ substr p (str_lower f)) /\
  (_infer_label f = Some "insecure"%string ->
   _infer_label (pre ++ f ++ post) = Some "insecure"%string) /\
  (_infer_label f <> None -> _infer_label (pre ++ f ++ post) <> None).
Proof.
  unfold _infer_label.
  pose proof (any_in_substr insecure_patterns (str_lower f)) as Hi.
  pose proof (any_in_substr secure_patterns (str_lower f)) as Hs.
  pose proof (@any_in_context insecure_patterns f pre post) as Ci.
  pose proof (@any_in_context secure_patterns f pre post) as Cs.
  split; [|split; [|split]].
  - rewrite <- Hi.
    destruct (any_in insecure_patterns (str_lower f));
      [tauto|].
    destruct (any_in secure_patterns (str_lower f)); split; discriminate.
  - split.
    + intros H p Hin Hsub. apply in_app_or in Hin.
      destruct (any_in insecure_patterns (str_lower f)) eqn:E1;
        [discriminate|].
      destruct (any_in secure_patterns (str_lower f)) eqn:E2;
        [discriminate|].
      destruct Hin as [Hin|Hin].
      * assert (false = true) by (apply Hi; now exists p). discriminate.
      * assert (false = true) by (apply Hs; now exists p). discriminate.
    + intros H.
      destruct (any_in insecure_patterns (str_lower f)) eqn:E1.
      * destruct (proj1 Hi eq_refl) as (p & Hin & Hsub).
        exfalso. apply (H p); [apply in_or_app; now left | exact Hsub].
      * destruct (any_in secure_patterns (str_lower f)) eqn:E2;
          [|reflexivity].
        destruct (proj1 Hs eq_refl) as (p & Hin & Hsub).
        exfalso. apply (H p); [apply in_or_app; now right | exact Hsub].
  - destruct (any_in insecure_patterns (str_lower f)).
    + now rewrite Ci.
    + destruct (any_in secure_patterns (str_lower f)); discriminate.
  - destruct (any_in insecure_patterns (str_lower f)).
    + now rewrite Ci.
    + destruct (any_in secure_patterns (str_lower f)); [|congruence].
      rewrite Cs by reflexivity.
      now destruct (any_in insecure_patterns (str_lower (pre ++ f ++ post))).
Qed.

(** ** The two heuristics on file names *)

(** X5.  The fallback of the OWASP loader and the heuristic of the
    CryptoAPI-Bench loader never contradict each other on the insecure
    side: a name that the first calls insecure is called insecure by the
    second, a name that the first labels at all is labelled by the second,
    and the two labels differ only when the first says secure and one of
    the words incorrect, misuse, broken or weak occurs in the name. *)
Theorem filename_heuristics_agree (f : str) :
  (_infer_label_from_filename f = Some "insecure"%string ->
   _infer_label f = Some "insecure"%string) /\
  (_infer_label_from_filename f <> None -> _infer_label f <> None) /\
  (forall l, _infer_label_from_filename f = Some l ->
     _infer_label f = Some l \/
     (l = "secure"%string /\ _infer_label f = Some "insecure"%string /\
      exists p, In p (map T ["incorrect"; "misuse"; "broken"; "weak"]%string)
                /\ substr p (str_lower f))).
Proof.
  unfold _infer_label_from_filename, _infer_label,
    insecure_patterns, secure_patterns.
  cbn [map any_in].
  set (x := str_lower f).
  destruct (contains (T "insecure") x) eqn:E1,
           (contains (T "bad") x) eqn:E2,
           (contains (T "incorrect") x) eqn:E3,
           (contains (T "misuse") x) eqn:E4,
           (contains (T "broken") x) eqn:E5,
           (contains (T "weak") x) eqn:E6,
           (contains (T "secure") x) eqn:E7,
           (contains (T "good") x) eqn:E8,
           (contains (T "correct") x) eqn:E9;
    cbn [orb];
    (split; [try discriminate; try reflexivity
            |split; [try discriminate; try congruence|]]);
    intros l Hl; try discriminate Hl;
    injection Hl as <-;
    try (left; reflexivity);
    right; (split; [reflexivity|split; [reflexivity|]]).
  all: first
    [ exists (T "incorrect"); split; [cbn; tauto|];
      apply contains_infix; exact E3
    | exists (T "misuse"); split; [cbn; tauto|];
      apply contains_infix; exact E4
    | exists (T "broken"); split; [cbn; tauto|];
      apply contains_infix; exact E5
    | exists (T "weak"); split; [cbn; tauto|];
      apply contains_infix; exact E6 ].
Qed.

(** ** The test number in a name of the OWASP Benchmark *)

Lemma loops_consume_benchmark_test :
  loops_consume (pat_re benchmark_test) = true.
Proof. reflexivity. Qed.

(** A greedy loop over one character class, before a continuation that
    accepts every position. *)
Lemma greedy_loop_total (body : pos -> cont -> option pos)
    (p : ascii -> bool) (lo : nat) (k : cont) :
  (forall e, k e <> None) ->
  (forall bef g k', body (Pos bef [] g) k' = None) ->
  (forall bef c t g k',
      body (Pos bef (c :: t) g) k'
      = if p c then k' (Pos (c :: bef) t g) else None) ->
  forall aft bef g fuel i,
    length aft <= fuel ->
    rep_loop body lo None true k fuel i (Pos bef aft g)
    = if lo <=? i + run_len p aft
      then k (jump (run_len p aft) (Pos bef aft g)) else None.
Proof.
  intros Hk Hnil Hcons.
  induction aft as [|c t IH]; intros bef g fuel i Hlen.
  - cbn [run_len]. rewrite Nat.add_0_r, jump_0.
    destruct fuel; cbn [rep_loop allows]; rewrite ?Hnil;
      rewrite Nat.ltb_antisym; now destruct (lo <=? i).
  - destruct fuel as [|fuel]; [simpl in Hlen; lia|].
    cbn [rep_loop allows run_len]. rewrite Hcons.
    destruct (p c).
    + unfold shorter; cbn [after length].
      rewrite (proj2 (Nat.ltb_lt _ _) (Nat.lt_succ_diag_r _)).
      rewrite IH by (simpl in Hlen; lia).
      rewrite jump_S, Nat.add_succ_r. cbn [Nat.add].
      destruct (lo <=? S (i + run_len p t)) eqn:E1.
      * destruct (i <? lo); [reflexivity|].
        destruct (k (jump (run_len p t) (Pos (c :: bef) t g))) eqn:E2;
          [reflexivity|]. now apply Hk in E2.
      * apply Nat.leb_gt in E1.
        now rewrite (proj2 (Nat.ltb_lt i lo)) by lia.
    + rewrite Nat.add_0_r, jump_0, Nat.ltb_antisym.
      now destruct (lo <=? i).
Qed.

Lemma run_len_ext (p q : ascii -> bool) (s : str) :
  (forall c, p c = q c) -> run_len p s = run_len q s.
Proof.
  intros H. induction s as [|c t IH]; [reflexivity|].
  cbn [run_len]. now rewrite H, IH.
Qed.

Lemma run_len_Forall (p : ascii -> bool) (s : str) :
  Forall (fun c => p c = true) (firstn (run_len p s) s) /\
  head_is p (skipn (run_len p s) s) = false.
Proof.
  induction s as [|c t [IH1 IH2]]; cbn [run_len].
  - now split.
  - destruct (p c) eqn:E; cbn [firstn skipn head_is].
    + split; [now constructor | exact IH2].
    + now split.
Qed.

Lemma run_len_app (p : ascii -> bool) (a post : str) :
  Forall (fun c => p c = true) a -> head_is p post = false ->
  run_len p (a ++ post) = length a.
Proof.
  intros Ha Hp. induction Ha as [|c a Hc Ha IH]; cbn [app run_len length].
  - destruct post as [|x post]; [reflexivity|]. cbn [head_is] in Hp.
    cbn [run_len]. now rewrite Hp.
  - now rewrite Hc, IH.
Qed.

Lemma match_at_benchmark_test (bef aft : list ascii) :
  match_at benchmark_test false (start_pos bef aft)
  = if starts_with (T "BenchmarkTest") aft
    then let rest := skipn 13 aft in
         let n := run_len is_digit rest in
         if 1 <=? n
         then Some (Pos (rev (firstn n rest) ++ rev (firstn 13 aft) ++ bef)
                        (skipn n rest) (Some (firstn n rest)))
         else None
    else None.
Proof.
  unfold match_at.
  change (m (pat_flags benchmark_test) (pat_re benchmark_test)
            (start_pos bef aft)
            (fun e => if false && (length (after e)
                                   =? length (after (start_pos bef aft)))
                      then None else Some e))
    with (m no_flags (lits (T "BenchmarkTest")) (start_pos bef aft)
            (fun s' =>
               rep_loop (m no_flags (Chr (CSet false [IDigit]))) 1 None true
                        (fun s2 => Some (capture s' s2))
                        (length (after s')) 0 s')).
  rewrite m_lits_cs by reflexivity. cbn [after start_pos].
  destruct (starts_with (T "BenchmarkTest") aft) eqn:E; [|reflexivity].
  apply starts_with_prefix in E. destruct E as (rest & ->).
  unfold jump. cbn [after before grp start_pos].
  change (length (T "BenchmarkTest")) with 13.
  change (skipn 13 (T "BenchmarkTest" ++ rest)) with rest.
  change (firstn 13 (T "BenchmarkTest" ++ rest)) with (T "BenchmarkTest").
  cbv zeta.
  rewrite (@greedy_loop_total _ (char_ok no_flags (CSet false [IDigit])));
    [|discriminate|reflexivity|reflexivity|lia].
  rewrite (@run_len_ext (char_ok no_flags (CSet false [IDigit])) is_digit)
    by (intros c; cbn; apply orb_false_r).
  cbn [Nat.add]. destruct (1 <=? run_len is_digit rest); [|reflexivity].
  unfold capture, jump, text_between. cbn [after before grp].
  f_equal. f_equal.
  rewrite !length_app, Nat.add_sub.
  rewrite firstn_app, Nat.sub_diag, firstn_all. cbn [firstn].
  now rewrite app_nil_r, rev_involutive.
Qed.

Lemma test_number_at_spec (aft d : str) :
  test_number_at aft = Some d
  <-> exists post,
        aft = T "BenchmarkTest" ++ d ++ post /\ d <> [] /\
        Forall (fun c => is_digit c = true) d /\
        head_is is_digit post = false.
Proof.
  unfold test_number_at. split.
  - destruct (starts_with (T "BenchmarkTest") aft) eqn:E; [|discriminate].
    apply starts_with_prefix in E. destruct E as (rest & ->).
    change (skipn 13 (T "BenchmarkTest" ++ rest)) with rest. cbv zeta.
    destruct (run_len_Forall is_digit rest) as [H1 H2].
    destruct (1 <=? run_len is_digit rest) eqn:En; [|discriminate].
    intros [= <-]. apply Nat.leb_le in En.
    exists (skipn (run_len is_digit rest) rest).
    rewrite firstn_skipn. split; [reflexivity|]. split; [|now split].
    destruct rest as [|c rest]; [simpl in En; lia|].
    cbn [run_len] in *. destruct (is_digit c); [discriminate | lia].
  - intros (post & -> & Hne & Hd & Hp).
    rewrite (proj2 (starts_with_prefix _ _)) by now exists (d ++ post).
    change (skipn 13 (T "BenchmarkTest" ++ d ++ post)) with (d ++ post).
    cbv zeta. rewrite (@run_len_app _ _ _ Hd Hp).
    destruct d as [|c d]; [congruence|]. cbn [length Nat.leb].
    f_equal. rewrite <- (Nat.add_0_r (length (c :: d))) at 1.
    rewrite firstn_app_2. cbn [firstn]. apply app_nil_r.
Qed.

Lemma test_number_at_none (aft : str) :
  test_number_at aft = None
  <-> forall c post, aft = T "BenchmarkTest" ++ c :: post -> is_digit c = false.
Proof.
  unfold test_number_at. split.
  - intros H c post ->.
    change (starts_with (T "BenchmarkTest") (T "BenchmarkTest" ++ c :: post))
      with (starts_with [] (c :: post)) in H.
    change (skipn 13 (T "BenchmarkTest" ++ c :: post)) with (c :: post) in H.
    cbn [starts_with run_len] in H. cbv zeta in H.
    destruct (is_digit c); [discriminate H | reflexivity].
  - intros H.
    destruct (starts_with (T "BenchmarkTest") aft) eqn:E; [|reflexivity].
    apply starts_with_prefix in E. destruct E as (rest & ->).
    change (skipn 13 (T "BenchmarkTest" ++ rest)) with rest. cbv zeta.
    destruct rest as [|c rest]; [reflexivity|].
    cbn [run_len]. now rewrite (H c rest eq_refl).
Qed.

Lemma search_test_number (aft bef : list ascii) :
  match search_from benchmark_test bef aft with
  | Some (_, e) => grp e
  | None => None
  end
  = match test_number_at aft with
    | Some d => Some d
    | None =>
        match aft with
        | [] => None
        | c :: t =>
            match search_from benchmark_test (c :: bef) t with
            | Some (_, e) => grp e
            | None => None
            end
        end
    end.
Proof.
  destruct aft as [|c t]; cbn [search_from];
    rewrite match_at_benchmark_test; unfold test_number_at;
    match goal with
    | |- context [starts_with ?w ?a] => destruct (starts_with w a)
    end; try reflexivity; cbv zeta;
    match goal with
    | |- context [1 <=? ?n] => destruct (1 <=? n)
    end; reflexivity.
Qed.

Lemma search_test_number_first (aft : str) :
  forall bef d,
    match search_from benchmark_test bef aft with
    | Some (_, e) => grp e
    | None => None
    end = Some d
    <-> exists pre post,
          aft = pre ++ T "BenchmarkTest" ++ d ++ post /\ d <> [] /\
          Forall (fun c => is_digit c = true) d /\
          head_is is_digit post = false /\
          forall pre' c post',
            is_digit c = true ->
            aft = pre' ++ T "BenchmarkTest" ++ c :: post' ->
            length pre <= length pre'.
Proof.
  induction aft as [|a t IH]; intros bef d; rewrite search_test_number.
  - destruct (test_number_at []) as [d0|] eqn:E0.
    + apply test_number_at_spec in E0. destruct E0 as (post & E & _).
      discriminate E.
    + split; [discriminate|]. intros ([|x pre] & post & E & _);
        discriminate E.
  - destruct (test_number_at (a :: t)) as [d0|] eqn:E0.
    + split.
      * intros [= ->]. apply test_number_at_spec in E0.
        destruct E0 as (post & E & Hne & Hd & Hp).
        exists [], post. repeat (split; [assumption|]).
        intros pre' c post' _ _. simpl. lia.
      * intros (pre & post & E & Hne & Hd & Hp & Hfirst).
        pose proof E0 as E1. apply test_number_at_spec in E1.
        destruct E1 as (post0 & E1 & Hne0 & Hd0 & _).
        destruct d0 as [|c0 d0]; [congruence|].
        assert (Hpre : length pre <= 0).
        { apply (Hfirst [] c0 (d0 ++ post0));
            [now inversion Hd0 | exact E1]. }
        destruct pre; [|simpl in Hpre; lia].
        assert (test_number_at (a :: t) = Some d)
          by (apply test_number_at_spec; now exists post).
        congruence.
    + rewrite IH. split.
      * intros (pre & post & -> & Hne & Hd & Hp & Hfirst).
        exists (a :: pre), post. split; [reflexivity|].
        repeat (split; [assumption|]).
        intros [|x pre'] c post' Hc E.
        -- apply (proj1 (test_number_at_none _) E0) in E. congruence.
        -- injection E as _ E. simpl.
           apply le_n_S. exact (Hfirst pre' c post' Hc E).
      * intros ([|x pre] & post & E & Hne & Hd & Hp & Hfirst).
        -- assert (test_number_at (a :: t) = Some d)
             by (apply test_number_at_spec; now exists post).
           congruence.
        -- injection E as <- ->. exists pre, post. split; [reflexivity|].
           repeat (split; [assumption|]).
           intros pre' c post' Hc E.
           apply le_S_n.
           apply (Hfirst (a :: pre') c post' Hc). simpl. now rewrite E.
Qed.

Lemma search_test_number_none (aft : str) :
  forall bef,
    match search_from benchmark_test bef aft with
    | Some (_, e) => grp e
    | None => None
    end = None
    <-> forall pre c post,
          aft = pre ++ T "BenchmarkTest" ++ c :: post -> is_digit c = false.
Proof.
  induction aft as [|a t IH]; intros bef; rewrite search_test_number.
  - cbn. split; [|reflexivity]. intros _ [|x pre] c post E; discriminate E.
  - destruct (test_number_at (a :: t)) as [d0|] eqn:E0.
    + split; [discriminate|]. intros H.
      assert (test_number_at (a :: t) = None); [|congruence].
      apply test_number_at_none. intros c post E. exact (H [] c post E).
    + rewrite IH. split.
      * intros H [|x pre] c post E.
        -- exact (proj1 (test_number_at_none _) E0 c post E).
        -- injection E as _ E. exact (H pre c post E).
      * intros H pre c post ->. apply (H (a :: pre) c post). reflexivity.
Qed.

(** X6.  [_extract_test_number] returns the digits of the first place
    where BenchmarkTest is followed by a digit: all the digits that
    follow, leading zeros included, and never an empty text.  It returns
    nothing exactly when BenchmarkTest is nowhere followed by a digit. *)
Theorem extract_test_number_first (name : str) :
  (forall d,
     _extract_test_number name = Some d
     <-> exists pre post,
           name = pre ++ T "BenchmarkTest" ++ d ++ post /\ d <> [] /\
           Forall (fun c => is_digit c = true) d /\
           head_is is_digit post = false /\
           forall pre' c post',
             is_digit c = true ->
             name = pre' ++ T "BenchmarkTest" ++ c :: post' ->
             length pre <= length pre') /\
  (_extract_test_number name = None
   <-> forall pre c post,
         name = pre ++ T "BenchmarkTest" ++ c :: post -> is_digit c = false).
Proof.
  split.
  - intros d. apply search_test_number_first.
  - apply search_test_number_none.
Qed.

(** ** Digits in a file name *)



Lemma contains_nil_word (x : ascii) (w : str) : contains (x :: w) [] = false.
Proof. reflexivity. Qed.








(** ** The loader of the OWASP Benchmark *)



(** X8.  What [crypto_only] does in [load_dataset]: it passes over exactly
    the files whose test number has a CWE in the sheet that is not empty
    and is not one of 327, 328, 330 and 338.  A file that the sheet does not
    list, or lists with an empty CWE, is kept as it is without the
    option. *)
Theorem crypto_only_filter (labels_map : dict bool) (cwe_map : dict str)
    (fname : str) (l : string) :
  sample_label true labels_map cwe_map fname = Some l
  <-> sample_label false labels_map cwe_map fname = Some l /\
      forall n cwe,
        _extract_test_number fname = Some n ->
        dict_get cwe_map n = Some cwe -> cwe = [] \/ In cwe CRYPTO_CWES.
Proof.
  unfold sample_label.
  destruct (_extract_test_number fname) as [n|];
    [|split; [discriminate | now intros [H _]]].
  cbn [andb].
  destruct cwe_map as [|item cwe_map'] eqn:Ec.
  - cbn [dict_get]. split; [|now intros [H _]].
    intros H. split; [exact H|]. discriminate.
  - rewrite <- Ec. clear Ec.
    destruct (dict_get cwe_map n) as [cwe|] eqn:Eg.
    + destruct cwe as [|c cwe]; cbn [nonempty andb].
      * split; [|now intros [H _]]. intros H. split; [exact H|].
        intros n' cwe' [= <-] E. rewrite Eg in E. injection E as <-. now left.
      * destruct (mem (c :: cwe) CRYPTO_CWES) eqn:Em; cbn [negb].
        -- split; [|now intros [H _]]. intros H. split; [exact H|].
           intros n' cwe' [= <-] E. rewrite Eg in E. injection E as <-.
           right. now apply mem_In.
        -- split; [discriminate|]. intros [_ H].
           destruct (H n (c :: cwe) eq_refl Eg) as [H0|H0]; [discriminate|].
           apply mem_In in H0. congruence.
    + split; [|now intros [H _]]. intros H. split; [exact H|].
      intros n' cwe' [= <-] E. congruence.
Qed.

(** ** The sheet of expected results *)

Lemma load_row_keys (r : row) (L L' : dict bool) (C C' : dict str) :
  load_row r L C = Some (L', C') ->
  (L' = L /\ C' = C) \/
  exists n v cwe,
    n <> [] /\ Forall (fun c => is_digit c = true) n /\
    L' = (n, v) :: L /\ C' = (n, cwe) :: C.
Proof.
  unfold load_row.
  destruct (row_get r "# test name" _) as [test_name|]; [|discriminate].
  destruct (_extract_test_number test_name) as [n|] eqn:En.
  - destruct (row_get r "real vulnerability" _) as [v|]; [|discriminate].
    cbv zeta. unfold dict_set. intros [= <- <-]. right.
    apply search_test_number_first in En.
    destruct En as (pre & post & _ & Hne & Hd & _).
    now eexists n, _, _.
  - intros [= <- <-]. now left.
Qed.

Lemma load_rows_keys (rows : list row) (n : str) :
  forall (L : dict bool) (C : dict str),
    (dict_get L n = None <-> dict_get C n = None) ->
    (dict_get L n <> None ->
     n <> [] /\ Forall (fun c => is_digit c = true) n) ->
    (dict_get (fst (load_rows rows L C)) n = None
     <-> dict_get (snd (load_rows rows L C)) n = None) /\
    (dict_get (fst (load_rows rows L C)) n <> None ->
     n <> [] /\ Forall (fun c => is_digit c = true) n).
Proof.
  induction rows as [|r rows IH]; intros L C H1 H2; cbn [load_rows].
  - now split.
  - destruct (load_row r L C) as [[L' C']|] eqn:E; [|now split].
    apply load_row_keys in E.
    destruct E as [[-> ->]|(k & v & cwe & Hne & Hd & -> & ->)];
      [now apply IH|].
    apply IH; cbn [dict_get]; destruct (str_eqb k n) eqn:Ek;
      try assumption.
    + split; discriminate.
    + intros _. apply str_eqb_eq in Ek. now subst.
Qed.

(** X9.  The two maps that [_load_expected_results] builds have the same
    keys, and every key is a test number: a text of digits that is not
    empty. *)
Theorem expected_results_keys (rows : list row) (n : str) :
  (dict_get (fst (_load_expected_results rows)) n = None
   <-> dict_get (snd (_load_expected_results rows)) n = None) /\
  (dict_get (fst (_load_expected_results rows)) n <> None ->
   n <> [] /\ Forall (fun c => is_digit c = true) n).
Proof.
  unfold _load_expected_results. apply load_rows_keys.
  - now split.
  - now intros H.
Qed.

Lemma load_rows_stop (r : row) (rows rest : list row) :
  (forall L C, load_row r L C = None) ->
  forall L C, load_rows (rows ++ r :: rest) L C = load_rows rows L C.
Proof.
  intros Hr. induction rows as [|x rows IH]; intros L C; cbn [app load_rows].
  - now rewrite Hr.
  - destruct (load_row x L C) as [[L' C']|]; [apply IH | reflexivity].
Qed.

(** X10.  A row that is too short ends the reading of the sheet.  When the
    name column of a row is there without a value, or the row names a test
    and its column of real vulnerabilities is there without a value, the
    body of the loop raises, and the maps are returned as the rows before
    it left them: the rows after it are not read. *)
Theorem short_row_ends_the_sheet (r : row) (rows rest : list row) :
  row_get r "# test name" (row_get r "test name" (Some [])) = None \/
  (exists name, row_get r "# test name" (row_get r "test name" (Some []))
                = Some name /\ _extract_test_number name <> None) /\
  row_get r "real vulnerability" (Some []) = None ->
  _load_expected_results (rows ++ r :: rest) = _load_expected_results rows.
Proof.
  intros H. unfold _load_expected_results. apply load_rows_stop.
  intros L C. unfold load_row.
  destruct H as [->|[(name & -> & Hn) ->]]; [reflexivity|].
  now destruct (_extract_test_number name).
Qed.

Lemma short_row_ends_the_sheet_witness :
  _load_expected_results
    ([[(T "# test name", Some (T "BenchmarkTest00001"));
       (T "real vulnerability", Some (T "true"));
       (T "CWE", Some (T "327"))]]
     ++ [(T "# test name", Some (T "BenchmarkTest00002"));
         (T "real vulnerability", None)]
     :: [[(T "# test name", Some (T "BenchmarkTest00003"));
          (T "real vulnerability", Some (T "false"));
          (T "CWE", Some (T "22"))]])
  = ([(T "00001", true)], [(T "00001", T "327")]).
Proof.
  rewrite short_row_ends_the_sheet.
  - reflexivity.
  - right. split; [|reflexivity].
    exists (T "BenchmarkTest00002"). split; [reflexivity|].
    vm_compute. discriminate.
Defined.

(** ** White space normalization keeps what is not white space *)

Lemma visible_app (a b : str) : visible (a ++ b) = visible a ++ visible b.
Proof. apply filter_app. Qed.

Lemma visible_cons (c : ascii) (t : str) :
  visible (c :: t) = if is_space c then visible t else c :: visible t.
Proof. unfold visible. cbn [filter]. now destruct (is_space c). Qed.

Lemma visible_nil (s : str) :
  visible s = [] <-> Forall (fun c => is_space c = true) s.
Proof.
  induction s as [|c t IH].
  - split; [constructor | reflexivity].
  - rewrite visible_cons. destruct (is_space c) eqn:E.
    + rewrite IH. split; [now constructor | now inversion 1].
    + split; [discriminate | inversion 1; congruence].
Qed.

Lemma visible_replace_tabs (s : str) : visible (replace_tabs s) = visible s.
Proof.
  induction s as [|c t IH]; [reflexivity|].
  change (replace_tabs (c :: t))
    with ((if ceqb c TAB then SP else c) :: replace_tabs t).
  rewrite !visible_cons, IH. destruct (ceqb c TAB) eqn:E; [|reflexivity].
  apply ceqb_eq in E. now subst c.
Qed.

Lemma is_sp_space (c : ascii) : is_sp c = true -> is_space c = true.
Proof. unfold is_sp. intros H. apply ceqb_eq in H. now subst c. Qed.

Lemma visible_squeeze (s : str) (b : bool) : visible (squeeze b s) = visible s.
Proof.
  revert b. induction s as [|c t IH]; intros b; [reflexivity|].
  cbn [squeeze]. rewrite (visible_cons c t). destruct (is_sp c) eqn:E.
  - rewrite (is_sp_space _ E).
    destruct b; [apply IH|]. rewrite visible_cons, (is_sp_space _ E). apply IH.
  - rewrite visible_cons, IH. reflexivity.
Qed.

Lemma visible_lstrip (s : str) : visible (lstrip s) = visible s.
Proof.
  induction s as [|c t IH]; [reflexivity|].
  cbn [lstrip]. destruct (is_space c) eqn:E; [|reflexivity].
  now rewrite visible_cons, E.
Qed.

Lemma visible_rev (s : str) : visible (rev s) = rev (visible s).
Proof.
  induction s as [|c t IH]; [reflexivity|].
  cbn [rev]. rewrite visible_app, IH, !visible_cons.
  destruct (is_space c); cbn [app rev]; [now rewrite app_nil_r|reflexivity].
Qed.

Lemma visible_strip (s : str) : visible (strip s) = visible s.
Proof.
  unfold strip, rstrip.
  now rewrite visible_rev, visible_lstrip, visible_rev, rev_involutive,
    visible_lstrip.
Qed.

Lemma linebreak_space (c : ascii) : is_linebreak c = true -> is_space c = true.
Proof. destruct c as [[] [] [] [] [] [] [] []]; (discriminate || reflexivity). Qed.

(** After a line boundary the lines are those of the rest of the text, a
    line feed that closes a carriage return left out. *)
Lemma splitlines_break (c : ascii) (t : str) :
  is_linebreak c = true ->
  exists t', splitlines (c :: t) = [] :: splitlines t' /\
             (t' = t \/ t = LF :: t').
Proof.
  intros H. cbn [splitlines]. rewrite H.
  destruct (ceqb c CR); [|exists t; auto].
  destruct t as [|d t']; [exists []; auto|].
  destruct (ceqb d LF) eqn:Ed; [|exists (d :: t'); auto].
  apply ceqb_eq in Ed. subst d. exists t'. auto.
Qed.

Lemma visible_splitlines_n (n : nat) :
  forall s, length s <= n -> flat_map visible (splitlines s) = visible s.
Proof.
  induction n as [|n IH]; intros s Hn.
  - destruct s; [reflexivity | simpl in Hn; lia].
  - destruct s as [|c t]; [reflexivity|]. simpl in Hn.
    rewrite visible_cons.
    destruct (is_linebreak c) eqn:E.
    + destruct (splitlines_break c t E) as (t' & -> & Ht).
      rewrite (linebreak_space _ E). cbn [flat_map app visible filter].
      fold (visible t).
      destruct Ht as [-> | ->].
      * apply IH. lia.
      * rewrite visible_cons. cbn [is_space]. apply IH. simpl in Hn. lia.
    + cbn [splitlines]. rewrite E.
      specialize (IH t ltac:(lia)).
      destruct (splitlines t) as [|l0 ls0] eqn:Es.
      * cbn [flat_map app] in *. rewrite visible_cons, <- IH.
        now destruct (is_space c).
      * cbn [flat_map] in *. rewrite visible_cons, <- IH.
        now destruct (is_space c).
Qed.

Lemma visible_splitlines (s : str) :
  flat_map visible (splitlines s) = visible s.
Proof. now apply (visible_splitlines_n (n := length s)). Qed.

Lemma visible_join (lines : list str) :
  visible (join [LF] lines) = flat_map visible lines.
Proof.
  induction lines as [|l rest IH]; [reflexivity|].
  cbn [join flat_map]. destruct rest as [|r rs].
  - cbn [flat_map]. now rewrite app_nil_r.
  - rewrite visible_app. cbn [app]. rewrite visible_cons. cbn [is_space].
    now rewrite IH.
Qed.

Lemma visible_stripped_lines (lines : list str) :
  flat_map visible
    (map strip (filter (fun line => nonempty (strip line)) lines))
  = flat_map visible lines.
Proof.
  induction lines as [|l rest IH]; [reflexivity|].
  cbn [filter flat_map]. rewrite <- (visible_strip l), <- IH.
  destruct (strip l) eqn:E; cbn [nonempty map flat_map]; [reflexivity|].
  now rewrite E.
Qed.

Lemma clean_head (l : str) :
  clean l -> exists c l', l = c :: l' /\ is_space c = false.
Proof.
  intros (Hne & Hs & _). unfold strip in Hs.
  pose proof (lstrip_head l) as Hh.
  destruct (lstrip l) as [|c y].
  - cbn in Hs. congruence.
  - cbn [head_is] in Hh. rewrite rstrip_cons_nonspace in Hs by exact Hh.
    now exists c, (rstrip y).
Qed.

(** X11.  White space normalization only touches white space: the
    characters that are not white space come out as they went in, all of
    them and in the same order.  The result is empty exactly when the
    input has nothing but white space. *)
Theorem normalize_whitespace_keeps_visible (code : str) :
  visible (_normalize_whitespace code) = visible code /\
  (_normalize_whitespace code = []
   <-> Forall (fun c => is_space c = true) code).
Proof.
  assert (Hv : visible (_normalize_whitespace code) = visible code).
  { rewrite normalize_whitespace_unfold, visible_join, visible_stripped_lines,
      visible_splitlines, visible_squeeze. apply visible_replace_tabs. }
  split; [exact Hv|]. rewrite <- visible_nil, <- Hv. split.
  - now intros ->.
  - destruct (normalize_whitespace_lines code) as (lines & -> & Hc).
    destruct Hc as [|l rest Hl Hrest]; [reflexivity|].
    destruct (clean_head Hl) as (c & l' & -> & Hsp).
    cbn [join]. destruct rest; cbn [app]; rewrite visible_cons, Hsp;
      discriminate.
Qed.

(** ** The shape of normalized text *)

Lemma substr_pair_app (a b : ascii) (x y : str) :
  substr [a; b] (x ++ y) ->
  substr [a; b] x \/ substr [a; b] y \/
  exists x' y', x = x' ++ [a] /\ y = b :: y'.
Proof.
  intros (pre & post & E). revert pre E.
  induction x as [|c x IH]; intros pre E.
  - right. left. now exists pre, post.
  - destruct pre as [|p pre]; cbn [app] in E.
    + injection E as -> E. destruct x as [|d x]; cbn [app] in E.
      * right. right. now exists [], post.
      * injection E as -> E. left. now exists [], x.
    + injection E as -> E. destruct (IH pre E) as [H|[H|H]].
      * left. now apply substr_cons.
      * right. now left.
      * right. right. destruct H as (x' & y' & -> & ->).
        now exists (p :: x'), y'.
Qed.

Lemma substr_length (w s : str) : substr w s -> length w <= length s.
Proof. intros (pre & post & ->). rewrite !length_app. lia. Qed.

Lemma tight_clean (l : str) : clean l -> l <> [] /\ tight l.
Proof.
  intros Hc. pose proof Hc as (Hne & Hs & Hb & _).
  split; [exact Hne|]. unfold tight.
  destruct (clean_head Hc) as (c & l' & -> & Hsp).
  split; [exact Hsp|]. split.
  - unfold strip in Hs. rewrite lstrip_fixed in Hs by exact Hsp.
    rewrite <- Hs at 1. unfold rstrip. rewrite rev_involutive.
    apply lstrip_head.
  - intros x _. split; intros H;
      apply (substr_Forall H) in Hb;
      [inversion Hb as [|? ? H0 _] | inversion Hb as [|? ? _ [|? ? H0 _]]];
      discriminate.
Qed.

Lemma head_is_app (p : ascii -> bool) (a b : str) :
  a <> [] -> head_is p (a ++ b) = head_is p a.
Proof. destruct a; [congruence | reflexivity]. Qed.

Lemma tight_join2 (a b : str) :
  a <> [] -> b <> [] -> tight a -> tight b -> tight (a ++ LF :: b).
Proof.
  intros Ha Hb (Ha1 & Ha2 & Ha3) (Hb1 & Hb2 & Hb3). unfold tight.
  split; [now rewrite head_is_app|]. split.
  - rewrite rev_app_distr. cbn [rev]. rewrite <- app_assoc.
    rewrite head_is_app; [exact Hb2|].
    intros E. apply (f_equal (@rev ascii)) in E.
    rewrite rev_involutive in E. now apply Hb.
  - assert (Hlast : forall a' x, a = a' ++ [x] -> is_space x = false).
    { intros a' x ->. rewrite rev_app_distr in Ha2. exact Ha2. }
    intros c Hc. split; intros H; apply substr_pair_app in H;
      destruct H as [H|[H|(a' & y' & Ea & Ey)]].
    + now apply (proj1 (Ha3 c Hc)).
    + change (LF :: b) with ([LF] ++ b) in H. apply substr_pair_app in H.
      destruct H as [H|[H|(x' & y' & _ & ->)]].
      * apply substr_length in H. simpl in H. lia.
      * now apply (proj1 (Hb3 c Hc)).
      * cbn [head_is] in Hb1. congruence.
    + apply Hlast in Ea. discriminate.
    + now apply (proj2 (Ha3 c Hc)).
    + change (LF :: b) with ([LF] ++ b) in H. apply substr_pair_app in H.
      destruct H as [H|[H|(x' & y' & _ & ->)]].
      * apply substr_length in H. simpl in H. lia.
      * now apply (proj2 (Hb3 c Hc)).
      * cbn [head_is] in Hb1. discriminate.
    + apply Hlast in Ea. congruence.
Qed.

Lemma tight_join (lines : list str) :
  Forall clean lines ->
  tight (join [LF] lines) /\ (lines <> [] -> join [LF] lines <> []).
Proof.
  induction 1 as [|l rest Hl Hrest [IH1 IH2]].
  - split; [|congruence]. unfold tight. cbn [join rev head_is].
    repeat split; intros H0; apply substr_length in H0; simpl in H0; lia.
  - destruct (tight_clean Hl) as [Hne Ht]. cbn [join].
    destruct rest as [|r rs]; [now split|].
    split.
    + apply tight_join2; [exact Hne | apply IH2; discriminate
                         | exact Ht | exact IH1].
    + intros _. destruct l; [congruence | discriminate].
Qed.

(** X12.  What white space normalization leaves: no tab and no line
    boundary other than the line feed, no two spaces in a row, no white
    space at either end of the text, and no white space on either side of
    a line feed, so no blank line and no line that starts or ends with a
    space. *)
Theorem normalize_whitespace_shape (code : str) :
  Forall (fun c => c <> TAB /\ (is_linebreak c = true -> c = LF))
         (_normalize_whitespace code) /\
  single_spaced (_normalize_whitespace code) = true /\
  strip (_normalize_whitespace code) = _normalize_whitespace code /\
  (forall c, is_space c = true ->
     ~ substr [LF; c] (_normalize_whitespace code) /\
     ~ substr [c; LF] (_normalize_whitespace code)).
Proof.
  destruct (normalize_whitespace_lines code) as (lines & -> & Hc).
  destruct (tight_join Hc) as [(H1 & H2 & H3) _].
  split; [|split; [|split]].
  - apply join_Forall.
    + split; [discriminate | reflexivity].
    + eapply Forall_impl; [|exact Hc].
      intros l (_ & _ & Hb & Ht & _).
      apply Forall_forall. intros c Hin.
      rewrite Forall_forall in Hb, Ht. split.
      * intros ->. now apply Ht in Hin.
      * intros E. apply Hb in Hin. congruence.
    - apply join_single_spaced.
      eapply Forall_impl; [|exact Hc]. now intros l (_ & _ & _ & _ & Hs).
    - unfold strip, rstrip. rewrite (lstrip_fixed _ H1).
      now rewrite (lstrip_fixed _ H2), rev_involutive.
    - exact H3.
Qed.

(** ** Line comments *)

Lemma match_at_line_comment (bef aft : list ascii) :
  match_at line_comment false (start_pos bef aft)
  = if starts_with (T "//") aft
    then Some (jump (2 + run_len not_lf (skipn 2 aft)) (start_pos bef aft))
    else None.
Proof.
  unfold match_at.
  change (m (pat_flags line_comment) (pat_re line_comment)
            (start_pos bef aft)
            (fun e => if false && (length (after e)
                                   =? length (after (start_pos bef aft)))
                      then None else Some e))
    with (m no_flags (lits (T "//")) (start_pos bef aft)
            (fun s' =>
               rep_loop (m no_flags (Chr (CSet true [IChar LF]))) 0 None true
                        (fun e => Some e) (length (after s')) 0 s')).
  rewrite m_lits_cs by reflexivity. cbn [after start_pos].
  destruct (starts_with (T "//") aft) eqn:E; [|reflexivity].
  apply starts_with_prefix in E. destruct E as (rest & ->).
  change (T "//" ++ rest) with ("/"%char :: "/"%char :: rest).
  change (length (T "//")) with 2. unfold start_pos. rewrite !jump_S, jump_0.
  rewrite greedy_chr_final by (cbn [after]; lia).
  cbn [Nat.leb skipn Nat.add]. rewrite !jump_S.
  rewrite (@run_len_ext (char_ok no_flags (CSet true [IChar LF])) not_lf);
    [reflexivity|].
  intros c. unfold not_lf. cbn. now rewrite orb_false_r.
Qed.

Lemma strip_line_comments_skip (t : str) :
  strip_line_comments true t
  = strip_line_comments false (skipn (run_len not_lf t) t).
Proof.
  induction t as [|c t IH]; [reflexivity|].
  cbn [strip_line_comments run_len]. unfold not_lf at 1.
  destruct (ceqb c LF) eqn:E; cbn [negb skipn].
  - apply ceqb_eq in E. subst c. reflexivity.
  - exact IH.
Qed.

(** [re.sub(r"//[^\n]*", "", code)] cuts every line at its first two
    slashes. *)
Lemma sub_line_comment_n (n : nat) :
  forall aft bef,
    length aft <= n ->
    sub_from line_comment [] bef aft 0 = strip_line_comments false aft.
Proof.
  unfold sub_from.
  induction n as [|n IH]; intros aft bef Hlen.
  - destruct aft; [|simpl in Hlen; lia].
    cbn [scan]. now rewrite match_at_line_comment.
  - destruct aft as [|c t].
    + cbn [scan]. now rewrite match_at_line_comment.
    + cbn [scan]. rewrite match_at_line_comment.
      cbn [strip_line_comments]. simpl in Hlen.
      destruct (starts_with (T "//") (c :: t)) eqn:E.
      * apply starts_with_prefix in E. destruct E as (rest & E).
        change (T "//" ++ rest) with ("/"%char :: "/"%char :: rest) in E.
        injection E as -> ->. cbn [skipn].
        pose proof (run_len_bound not_lf rest) as Hb.
        rewrite matched_len_jump by (simpl; lia).
        cbn [Nat.add]. simpl in Hlen.
        rewrite scan_skip by (simpl; lia).
        rewrite IH by (rewrite length_skipn; simpl; lia).
        rewrite strip_line_comments_skip. reflexivity.
      * now rewrite IH by lia.
Qed.

Lemma sub_line_comment (code : str) :
  sub line_comment [] code = strip_line_comments false code.
Proof. unfold sub. now apply (sub_line_comment_n (n := length code)). Qed.

Lemma strip_line_comments_head_in (t : str) :
  starts_with (T "/") (strip_line_comments true t) = false.
Proof.
  induction t as [|c t IH]; [reflexivity|].
  cbn [strip_line_comments]. destruct (ceqb c LF) eqn:E; [|exact IH].
  apply ceqb_eq in E. now subst c.
Qed.

Lemma strip_line_comments_head_out (t : str) :
  starts_with (T "/") (strip_line_comments false t) = true ->
  starts_with (T "/") t = true.
Proof.
  destruct t as [|c t]; [discriminate|].
  cbn [strip_line_comments].
  destruct (starts_with (T "//") (c :: t)); [|exact (fun H => H)].
  now rewrite strip_line_comments_head_in.
Qed.

Lemma strip_line_comments_no_slashes (s : str) :
  forall b, contains (T "//") (strip_line_comments b s) = false.
Proof.
  induction s as [|c t IH]; intros b; [now destruct b|].
  cbn [strip_line_comments]. destruct b.
  - destruct (ceqb c LF) eqn:E; [|apply IH].
    apply ceqb_eq in E. subst c. cbn [contains]. now rewrite IH.
  - destruct (starts_with (T "//") (c :: t)) eqn:E; [apply IH|].
    cbn [contains]. rewrite IH, orb_false_r.
    destruct (starts_with (T "//") (c :: strip_line_comments false t)) eqn:E2;
      [|reflexivity].
    change (T "//") with ("/"%char :: T "/") in E, E2.
    cbn [starts_with] in E, E2.
    apply andb_prop in E2. destruct E2 as [E2 E3].
    apply strip_line_comments_head_out in E3. now rewrite E2, E3 in E.
Qed.

Lemma strip_line_comments_line_feeds (s : str) :
  forall b,
    count_occ ascii_dec (strip_line_comments b s) LF = count_occ ascii_dec s LF.
Proof.
  induction s as [|c t IH]; intros b; [now destruct b|].
  cbn [strip_line_comments]. destruct b.
  - destruct (ceqb c LF) eqn:E.
    + apply ceqb_eq in E. subst c. cbn [count_occ].
      destruct (ascii_dec LF LF); [now rewrite IH | congruence].
    + rewrite IH. cbn [count_occ]. destruct (ascii_dec c LF) as [->|];
        [discriminate E | reflexivity].
  - destruct (starts_with (T "//") (c :: t)) eqn:E.
    + rewrite IH. cbn [count_occ]. destruct (ascii_dec c LF) as [->|];
        [discriminate E | reflexivity].
    + cbn [count_occ]. now rewrite IH.
Qed.

(** X13.  After [_remove_comments] no two slashes in a row are left in the
    text, and the pass over the line comments removes no line feed: the
    result has as many line feeds as the text had after the block comments
    were taken out. *)
Theorem remove_comments_leaves_no_slashes (code : str) :
  ~ substr (T "//") (_remove_comments code) /\
  count_occ ascii_dec (_remove_comments code) LF
  = count_occ ascii_dec (sub block_comment [] code) LF.
Proof.
  unfold _remove_comments. rewrite sub_line_comment. split.
  - intros H. apply contains_infix in H.
    now rewrite strip_line_comments_no_slashes in H.
  - apply strip_line_comments_line_feeds.
Qed.

(** ** Substitution by the empty text *)

Lemma subseq_length (a b : str) : subseq a b -> length a <= length b.
Proof. induction 1; simpl; lia. Qed.

Lemma subseq_refl (a : str) : subseq a a.
Proof. induction a; now constructor. Qed.

Lemma subseq_trans (a b c : str) : subseq a b -> subseq b c -> subseq a c.
Proof.
  intros Hab Hbc. revert a Hab.
  induction Hbc as [|x b c Hbc IH|x b c Hbc IH]; intros a Hab.
  - exact Hab.
  - constructor. now apply IH.
  - inversion Hab as [|y a' b' Hab'|y a' b' Hab']; subst.
    + constructor. now apply IH.
    + apply subseq_keep. now apply IH.
Qed.

Lemma subseq_full (a b : str) : subseq a b -> length b <= length a -> a = b.
Proof.
  induction 1 as [|c a b H IH|c a b H IH]; simpl; intros Hl.
  - reflexivity.
  - apply subseq_length in H. lia.
  - f_equal. apply IH. lia.
Qed.

Lemma sub_from_subseq (p : pattern) (aft : str) :
  forall bef skip, subseq (sub_from p [] bef aft skip) aft.
Proof.
  unfold sub_from. induction aft as [|c t IH]; intros bef skip.
  - cbn [scan]. destruct skip; [|constructor].
    destruct (match_at p false (start_pos bef [])); constructor.
  - cbn [scan]. destruct skip as [|n]; [|constructor; apply IH].
    destruct (match_at p false (start_pos bef (c :: t))) as [e|].
    + destruct (matched_len (start_pos bef (c :: t)) e).
      * cbn [app].
        destruct (match_at p true (start_pos bef (c :: t)));
          [apply subseq_drop | apply subseq_keep]; apply IH.
      * cbn [app]. apply subseq_drop, IH.
    + apply subseq_keep, IH.
Qed.

Lemma sub_subseq (p : pattern) (code : str) : subseq (sub p [] code) code.
Proof. apply sub_from_subseq. Qed.

Section MatchesAreNotEmpty.

Variable p : pattern.
Hypothesis never_empty :
  forall bef aft e,
    match_at p false (start_pos bef aft) = Some e ->
    0 < matched_len (start_pos bef aft) e.

Lemma sub_from_fixed (aft : str) :
  forall bef, sub_from p [] bef aft 0 = aft -> search_from p bef aft = None.
Proof.
  induction aft as [|c t IH]; intros bef; cbn [search_from].
  - destruct (match_at p false (start_pos bef [])) as [e|] eqn:E;
      [|reflexivity].
    apply never_empty in E. unfold matched_len in E. simpl in E. lia.
  - unfold sub_from. cbn [scan].
    destruct (match_at p false (start_pos bef (c :: t))) as [e|] eqn:E.
    + pose proof (never_empty _ _ E) as Hlen.
      destruct (matched_len (start_pos bef (c :: t)) e) as [|n]; [lia|].
      intros H.
      pose proof (sub_from_subseq p t (c :: bef) n) as Hs.
      unfold sub_from in Hs. rewrite app_nil_l in H. rewrite H in Hs.
      apply subseq_length in Hs. simpl in Hs. lia.
    + intros H. injection H as H. now apply IH.
Qed.

Lemma sub_fixed (code : str) :
  sub p [] code = code <-> search p code = false.
Proof.
  split.
  - intros H. apply sub_from_fixed in H. unfold search. now rewrite H.
  - apply sub_no_match.
Qed.

End MatchesAreNotEmpty.

Lemma block_comment_never_empty (bef aft : list ascii) (e : pos) :
  match_at block_comment false (start_pos bef aft) = Some e ->
  0 < matched_len (start_pos bef aft) e.
Proof.
  rewrite match_at_block.
  destruct (block_len aft) as [n|] eqn:E; [|discriminate].
  intros [= <-]. apply block_len_bound in E.
  rewrite matched_len_jump; lia.
Qed.

Lemma line_comment_never_empty (bef aft : list ascii) (e : pos) :
  match_at line_comment false (start_pos bef aft) = Some e ->
  0 < matched_len (start_pos bef aft) e.
Proof.
  rewrite match_at_line_comment.
  destruct (starts_with (T "//") aft) eqn:E; [|discriminate].
  intros [= <-]. apply starts_with_prefix in E. destruct E as (rest & ->).
  pose proof (run_len_bound not_lf rest).
  rewrite matched_len_jump; simpl; lia.
Qed.

Lemma search_line_comment (code : str) :
  search line_comment code = true <-> substr (T "//") code.
Proof.
  rewrite (@search_plain line_comment code eq_refl). split.
  - intros (pre & w & post & -> & Hw). cbn [pat_flags pat_re] in Hw.
    apply Lang_seq_cons in Hw. destruct Hw as (w1 & w2 & -> & H1 & _).
    apply Lang_lits_cs in H1; [|reflexivity].
    subst w1. exists pre, (w2 ++ post). now rewrite <- !app_assoc.
  - intros (pre & post & ->). exists pre, (T "//"), post.
    split; [reflexivity|]. cbn [pat_flags pat_re].
    apply Lang_seq_cons. exists (T "//"), []. split; [reflexivity|].
    split; [now apply Lang_lits_cs|].
    apply Lang_seq_cons. exists [], []. split; [reflexivity|].
    split; [|reflexivity]. apply Lang_rep_chr. cbn. repeat split; constructor.
Qed.

Lemma search_block_comment (code : str) :
  search block_comment code = true
  <-> exists body, substr (T "/*" ++ body ++ T "*/") code.
Proof.
  rewrite (@search_plain block_comment code eq_refl). split.
  - intros (pre & w & post & -> & Hw). cbn [pat_flags pat_re] in Hw.
    apply Lang_seq_cons in Hw. destruct Hw as (w1 & w2 & -> & H1 & Hw).
    apply Lang_seq_cons in Hw. destruct Hw as (body & w3 & -> & _ & Hw).
    apply Lang_seq_cons in Hw. destruct Hw as (w4 & w5 & -> & H4 & ->).
    apply Lang_lits_cs in H1; [|reflexivity].
    apply Lang_lits_cs in H4; [|reflexivity]. subst w1 w4.
    exists body, pre, post. now rewrite app_nil_r, <- !app_assoc.
  - intros (body & pre & post & ->). exists pre, (T "/*" ++ body ++ T "*/"), post.
    split; [reflexivity|]. cbn [pat_flags pat_re].
    apply Lang_seq_cons. exists (T "/*"), (body ++ T "*/").
    split; [reflexivity|]. split; [now apply Lang_lits_cs|].
    apply Lang_seq_cons. exists body, (T "*/"). split; [reflexivity|].
    split.
    + apply Lang_rep_chr. split; [lia|]. split; [exact I|].
      apply Forall_forall. intros c _. reflexivity.
    + apply Lang_seq_cons. exists (T "*/"), []. split; [reflexivity|].
      split; [now apply Lang_lits_cs | reflexivity].
Qed.

(** X14.  [_remove_comments] only deletes: what it returns is the text
    with some characters left out, the others in their order.  It returns
    the text unchanged exactly when the text has no two slashes in a row
    and no block comment, that is no opener with a closer after it. *)
Theorem remove_comments_only_deletes (code : str) :
  subseq (_remove_comments code) code /\
  (_remove_comments code = code
   <-> ~ substr (T "//") code /\
       forall body, ~ substr (T "/*" ++ body ++ T "*/") code).
Proof.
  unfold _remove_comments.
  pose proof (sub_subseq block_comment code) as H1.
  pose proof (sub_subseq line_comment (sub block_comment [] code)) as H2.
  split; [exact (subseq_trans H2 H1)|]. split.
  - intros E.
    assert (Eb : sub block_comment [] code = code).
    { apply subseq_full; [exact H1|]. rewrite <- E at 1.
      now apply subseq_length. }
    rewrite Eb in E.
    apply (sub_fixed line_comment line_comment_never_empty) in E.
    apply (sub_fixed block_comment block_comment_never_empty) in Eb.
    split.
    + intros H. apply search_line_comment in H. congruence.
    + intros body H.
      assert (search block_comment code = true)
        by (apply search_block_comment; now exists body).
      congruence.
  - intros [Hl Hb].
    assert (Eb : search block_comment code = false).
    { destruct (search block_comment code) eqn:E; [|reflexivity].
      apply search_block_comment in E. destruct E as (body & H).
      now apply Hb in H. }
    assert (El : search line_comment code = false).
    { destruct (search line_comment code) eqn:E; [|reflexivity].
      apply search_line_comment in E. contradiction. }
    rewrite (sub_no_match _ _ _ Eb). now apply sub_no_match.
Qed.

(** ** White space normalization keeps the words *)

Lemma words_space (c : ascii) (t : str) :
  is_space c = true -> words (c :: t) = words t.
Proof. intros H. cbn [words]. now rewrite H. Qed.

Lemma words_head (c : ascii) (t : str) :
  is_space c = false -> words (c :: t) <> [].
Proof.
  intros H. cbn [words]. rewrite H.
  destruct (head_is is_space t); [discriminate|].
  destruct (words t); discriminate.
Qed.

Lemma words_spaces (s : str) :
  Forall (fun c => is_space c = true) s -> words s = [].
Proof.
  induction 1 as [|c t Hc Ht IH]; [reflexivity|]. now rewrite words_space.
Qed.

(** White space between two texts keeps their words apart. *)
Lemma words_app_space (a : str) (c : ascii) (b : str) :
  is_space c = true -> words (a ++ c :: b) = words a ++ words b.
Proof.
  intros Hc. induction a as [|x a IH].
  - cbn [app]. now rewrite words_space.
  - cbn [app words]. destruct (is_space x) eqn:Ex; [exact IH|].
    destruct a as [|d a].
    + cbn [app head_is]. rewrite Hc. now rewrite words_space.
    + cbn [app head_is] in *. destruct (is_space d) eqn:Ed.
      * now rewrite IH.
      * rewrite IH. pose proof (@words_head d a Ed) as Hne.
        destruct (words (d :: a)); [congruence | reflexivity].
Qed.

Lemma words_app_spaces (a post : str) :
  Forall (fun c => is_space c = true) post -> words (a ++ post) = words a.
Proof.
  intros H. destruct H as [|c post Hc Hpost]; [now rewrite app_nil_r|].
  rewrite words_app_space by exact Hc.
  rewrite (words_spaces Hpost). apply app_nil_r.
Qed.

Lemma words_replace_tabs (s : str) : words (replace_tabs s) = words s.
Proof.
  induction s as [|c t IH]; [reflexivity|].
  change (replace_tabs (c :: t))
    with ((if ceqb c TAB then SP else c) :: replace_tabs t).
  destruct (ceqb c TAB) eqn:E.
  - apply ceqb_eq in E. subst c. now rewrite !words_space.
  - cbn [words]. rewrite IH.
    replace (head_is is_space (replace_tabs t)) with (head_is is_space t);
      [reflexivity|].
    destruct t as [|d t]; [reflexivity|].
    change (replace_tabs (d :: t))
      with ((if ceqb d TAB then SP else d) :: replace_tabs t).
    cbn [head_is]. destruct (ceqb d TAB) eqn:Ed; [|reflexivity].
    apply ceqb_eq in Ed. now subst d.
Qed.

Lemma squeeze_head_space (t : str) :
  head_is is_space (squeeze false t) = head_is is_space t.
Proof.
  destruct t as [|d t]; [reflexivity|]. cbn [squeeze].
  now destruct (is_sp d).
Qed.

Lemma words_squeeze (s : str) : forall b, words (squeeze b s) = words s.
Proof.
  induction s as [|c t IH]; intros b; [reflexivity|].
  cbn [squeeze]. destruct (is_sp c) eqn:E.
  - pose proof (is_sp_space _ E) as Hs. rewrite (words_space c t Hs).
    destruct b; [apply IH|]. rewrite words_space by exact Hs. apply IH.
  - cbn [words]. now rewrite IH, squeeze_head_space.
Qed.

Lemma lstrip_split (s : str) :
  exists pre, s = pre ++ lstrip s /\ Forall (fun c => is_space c = true) pre.
Proof.
  induction s as [|c t (pre & IH1 & IH2)]; [now exists []|].
  cbn [lstrip]. destruct (is_space c) eqn:E; [|now exists []].
  exists (c :: pre). split; [simpl; now rewrite <- IH1 | now constructor].
Qed.

Lemma rstrip_split (s : str) :
  exists post, s = rstrip s ++ post /\ Forall (fun c => is_space c = true) post.
Proof.
  unfold rstrip. destruct (lstrip_split (rev s)) as (pre & H1 & H2).
  exists (rev pre). split.
  - rewrite <- rev_app_distr, <- H1. now rewrite rev_involutive.
  - now apply Forall_rev.
Qed.

Lemma words_lstrip (s : str) : words (lstrip s) = words s.
Proof.
  induction s as [|c t IH]; [reflexivity|].
  cbn [lstrip]. destruct (is_space c) eqn:E; [|reflexivity].
  now rewrite words_space.
Qed.

Lemma words_strip (s : str) : words (strip s) = words s.
Proof.
  unfold strip. destruct (rstrip_split (lstrip s)) as (post & H1 & H2).
  rewrite <- (words_lstrip s). rewrite H1 at 2.
  now rewrite words_app_spaces.
Qed.

Lemma splitlines_first (t l : str) (ls : list str) :
  splitlines t = l :: ls ->
  exists post, t = l ++ post /\
               match post with [] => True | b :: _ => is_linebreak b = true end.
Proof.
  revert l ls. induction t as [|c t IH]; intros l ls; cbn [splitlines].
  - discriminate.
  - destruct (is_linebreak c) eqn:E.
    + intros H. injection H as <- _. now exists (c :: t).
    + destruct (splitlines t) as [|l0 ls0] eqn:Es.
      * intros H. injection H as <- _. exists t. split; [reflexivity|].
        destruct t as [|d t']; [exact I|].
        cbn [splitlines] in Es. destruct (is_linebreak d); [discriminate|].
        destruct (splitlines t'); discriminate.
      * intros H. injection H as <- _.
        destruct (IH _ _ eq_refl) as (post & -> & Hp). now exists post.
Qed.

Lemma splitlines_nil (t : str) : splitlines t = [] -> t = [].
Proof.
  destruct t as [|c t]; [reflexivity|]. cbn [splitlines].
  destruct (is_linebreak c); [discriminate|].
  destruct (splitlines t); discriminate.
Qed.

Lemma words_splitlines_n (n : nat) :
  forall s, length s <= n -> flat_map words (splitlines s) = words s.
Proof.
  induction n as [|n IH]; intros s Hn.
  - destruct s; [reflexivity | simpl in Hn; lia].
  - destruct s as [|c t]; [reflexivity|]. simpl in Hn.
    destruct (is_linebreak c) eqn:E.
    + destruct (splitlines_break c t E) as (t' & -> & Ht).
      rewrite (words_space c t (linebreak_space _ E)).
      cbn [flat_map words app].
      destruct Ht as [-> | ->].
      * apply IH. lia.
      * rewrite words_space by reflexivity. apply IH. simpl in Hn. lia.
    + cbn [splitlines]. rewrite E.
      pose proof (IH t ltac:(lia)) as Ht.
      destruct (splitlines t) as [|l ls] eqn:Es.
      * apply splitlines_nil in Es. subst t. cbn [flat_map].
        apply app_nil_r.
      * destruct (splitlines_first _ Es) as (post & -> & Hp).
        cbn [flat_map] in *. destruct post as [|b post].
        -- rewrite app_nil_r in *.
           assert (Hls : flat_map words ls = []).
           { apply (app_inv_head (words l)). now rewrite app_nil_r. }
           now rewrite Hls, app_nil_r.
        -- pose proof (linebreak_space _ Hp) as Hb.
           rewrite words_app_space in Ht by exact Hb.
           apply app_inv_head in Ht. rewrite Ht.
           change (c :: l ++ b :: post) with ((c :: l) ++ b :: post).
           now rewrite words_app_space.
Qed.

Lemma words_join (lines : list str) :
  words (join [LF] lines) = flat_map words lines.
Proof.
  induction lines as [|l rest IH]; [reflexivity|].
  cbn [join flat_map]. destruct rest as [|r rs].
  - cbn [flat_map]. now rewrite app_nil_r.
  - cbn [app]. rewrite words_app_space by reflexivity. now rewrite IH.
Qed.

Lemma words_stripped_lines (lines : list str) :
  flat_map words
    (map strip (filter (fun line => nonempty (strip line)) lines))
  = flat_map words lines.
Proof.
  induction lines as [|l rest IH]; [reflexivity|].
  cbn [filter flat_map]. rewrite <- (words_strip l), <- IH.
  destruct (strip l) eqn:E; cbn [nonempty map flat_map]; [reflexivity|].
  now rewrite E.
Qed.

(** X15.  White space normalization keeps the words of the text: split at
    white space, the text has the same words in the same order before and
    after.  No two words are joined and no word is cut. *)
Theorem normalize_whitespace_keeps_words (code : str) :
  words (_normalize_whitespace code) = words code.
Proof.
  rewrite normalize_whitespace_unfold, words_join, words_stripped_lines.
  rewrite (@words_splitlines_n (length (squeeze false (replace_tabs code))))
    by lia.
  rewrite words_squeeze. apply words_replace_tabs.
Qed.

(** ** Normalization with its default options *)

Lemma starts_with_squeeze (u s : str) :
  Forall (fun c => is_space c = false) u ->
  starts_with u (squeeze false s) = starts_with u s.
Proof.
  intros Hu. revert s. induction Hu as [|x u Hx Hu IH]; intros s.
  - now destruct (squeeze false s), s.
  - destruct s as [|c t]; [reflexivity|]. cbn [squeeze].
    destruct (is_sp c) eqn:E.
    + cbn [starts_with]. destruct (ceqb x c) eqn:Ex; [|reflexivity].
      apply ceqb_eq in Ex. subst c. apply is_sp_space in E. congruence.
    + cbn [starts_with]. now rewrite IH.
Qed.

Lemma contains_squeeze (x : ascii) (u s : str) :
  Forall (fun c => is_space c = false) (x :: u) ->
  forall b, contains (x :: u) (squeeze b s) = contains (x :: u) s.
Proof.
  intros Hu. induction s as [|c t IH]; intros b; [reflexivity|].
  cbn [squeeze]. destruct (is_sp c) eqn:E.
  - assert (Hc : ceqb x c = false).
    { destruct (ceqb x c) eqn:Ex; [|reflexivity].
      apply ceqb_eq in Ex. subst c. apply is_sp_space in E.
      inversion Hu; congruence. }
    transitivity (contains (x :: u) t).
    + destruct b; [apply IH|]. cbn [contains starts_with]. rewrite Hc.
      apply IH.
    + cbn [contains starts_with]. now rewrite Hc.
  - change (contains (x :: u) (c :: squeeze false t))
      with (starts_with (x :: u) (c :: squeeze false t)
            || contains (x :: u) (squeeze false t)).
    change (contains (x :: u) (c :: t))
      with (starts_with (x :: u) (c :: t) || contains (x :: u) t).
    rewrite IH. f_equal.
    pose proof (@starts_with_squeeze (x :: u) (c :: t) Hu) as H.
    cbn [squeeze] in H. now rewrite E in H.
Qed.

Lemma contains_replace_tabs (x : ascii) (u s : str) :
  Forall (fun c => is_space c = false) (x :: u) ->
  contains (x :: u) (replace_tabs s) = true -> contains (x :: u) s = true.
Proof.
  intros Hu H. apply contains_infix in H. destruct H as (pre & post & H).
  apply contains_infix. unfold replace_tabs in H.
  apply map_eq_app in H. destruct H as (pre' & rest & -> & <- & H).
  apply map_eq_app in H. destruct H as (u' & post' & -> & H & <-).
  exists pre', post'. do 2 f_equal.
  clear - Hu H. revert u' H.
  generalize (x :: u) Hu. clear. intros w Hw.
  induction Hw as [|c w Hc Hw IH]; intros [|d u'] H; try discriminate H.
  - reflexivity.
  - cbn [map] in H. injection H as H1 H2. f_equal; [|now apply IH].
    destruct (ceqb d TAB); [|exact H1].
    subst c. discriminate Hc.
Qed.

(** A stretch without the character [c] lies on one side of it. *)
Lemma substr_sep (w a : str) (c : ascii) (b : str) :
  Forall (fun x => x <> c) w -> w <> [] ->
  substr w (a ++ c :: b) -> substr w a \/ substr w b.
Proof.
  intros Hw Hne (pre & post & E).
  destruct (Nat.le_gt_cases (length pre) (length a)) as [Hle|Hgt].
  - destruct (app_prefix _ _ _ _ E Hle) as (m' & -> & E2).
    symmetry in E2. apply (@past_prefix c w m' b post Hw) in E2.
    destruct E2 as (b' & -> & _). left. now exists pre, b'.
  - symmetry in E.
    destruct (app_prefix pre (w ++ post) a (c :: b) E) as (m' & -> & E2);
      [lia|].
    destruct m' as [|y m']; [rewrite length_app in Hgt; simpl in Hgt; lia|].
    injection E2 as <- ->. right. now exists m', post.
Qed.

Lemma substr_join (w : str) (lines : list str) :
  Forall (fun c => is_space c = false) w -> w <> [] ->
  substr w (join [LF] lines) -> exists l, In l lines /\ substr w l.
Proof.
  intros Hw Hne. induction lines as [|l rest IH]; cbn [join].
  - intros H. apply substr_length in H. destruct w; [congruence|].
    simpl in H. lia.
  - destruct rest as [|r rs].
    + intros H. exists l. split; [now left | exact H].
    + cbn [app]. intros H. apply substr_sep in H; [|  |exact Hne].
      * destruct H as [H|H]; [exists l; split; [now left | exact H]|].
        destruct (IH H) as (l' & Hin & Hl'). exists l'. split; [now right|].
        exact Hl'.
      * eapply Forall_impl; [|exact Hw]. intros c Hc ->. discriminate Hc.
Qed.

(** A stretch of visible characters of the normalized text is a stretch
    of the text. *)
Lemma normalize_whitespace_substr (x : ascii) (u code : str) :
  Forall (fun c => is_space c = false) (x :: u) ->
  substr (x :: u) (_normalize_whitespace code) -> substr (x :: u) code.
Proof.
  intros Hu H. rewrite normalize_whitespace_unfold in H.
  apply substr_join in H; [|exact Hu|discriminate].
  destruct H as (l & Hin & Hl).
  apply in_map_iff in Hin. destruct Hin as (l0 & <- & Hin).
  apply filter_In in Hin. destruct Hin as [Hin _].
  apply splitlines_substr in Hin.
  pose proof (substr_trans Hl (substr_trans (strip_substr l0) Hin)) as H.
  apply contains_infix in H. rewrite (contains_squeeze _ Hu) in H.
  apply contains_infix. now apply contains_replace_tabs.
Qed.

(** X16.  [normalize] with its default options, comments out and white
    space normalized: the result has no two slashes in a row, and every
    stretch of visible characters in it is a stretch of the text as
    [_remove_comments] left it, so the white space pass brings back no
    comment and makes no new word. *)
Theorem normalize_default (code : str) :
  ~ substr (T "//") (normalize code true true false) /\
  (forall x u,
     Forall (fun c => is_space c = false) (x :: u) ->
     substr (x :: u) (normalize code true true false) ->
     substr (x :: u) (_remove_comments code)).
Proof.
  unfold normalize. split.
  - intros H. apply normalize_whitespace_substr in H.
    + unfold _remove_comments in H. rewrite sub_line_comment in H.
      apply contains_infix in H.
      now rewrite strip_line_comments_no_slashes in H.
    + repeat constructor.
  - intros x u. apply normalize_whitespace_substr.
Qed.

(** ** Identifier anonymization without a name to rename *)

Lemma collect_names_NoDup (found : list (option str)) :
  forall acc, NoDup acc -> NoDup (collect_names found acc).
Proof.
  induction found as [|[name|] rest IH]; intros acc Hacc; cbn [collect_names].
  - exact Hacc.
  - destruct (negb (mem name _protected) && negb (mem name acc)) eqn:E;
      [|now apply IH].
    apply IH. apply andb_prop in E. destruct E as [_ E].
    apply negb_true_iff in E.
    apply NoDup_app; [exact Hacc | repeat constructor; intros [] |].
    intros n Hn [<-|[]]. apply mem_In in Hn. congruence.
  - now apply IH.
Qed.

Lemma collect_names_protected (found : list (option str)) :
  (forall name, In (Some name) found -> In name _protected) ->
  forall acc, collect_names found acc = acc.
Proof.
  induction found as [|[name|] rest IH]; intros H acc; cbn [collect_names].
  - reflexivity.
  - rewrite (proj2 (mem_In name _protected)) by (apply H; now left).
    cbn [negb andb]. apply IH. intros n Hn. apply H. now right.
  - apply IH. intros n Hn. apply H. now right.
Qed.

Lemma finditer_group_nil (p : pattern) (code : str) :
  search p code = false -> finditer_group p code = [].
Proof.
  unfold search, finditer_group. intros H.
  destruct (search_from p [] code) eqn:E; [discriminate|].
  rewrite scan_no_match by exact E. apply fold_right_skip.
Qed.

(** X17.  [_normalize_variables] collects every name once, and it returns
    the text as it is when there is nothing to rename: when the
    declaration pattern matches nowhere, and also when every name that a
    declaration captures is a protected name. *)
Theorem normalize_variables_without_names (code : str) :
  NoDup (collect_names (finditer_group var_pattern code) []) /\
  (search var_pattern code = false -> _normalize_variables code = code) /\
  ((forall name, In (Some name) (finditer_group var_pattern code) ->
                 In name _protected) ->
   _normalize_variables code = code).
Proof.
  split; [apply collect_names_NoDup; constructor|].
  unfold _normalize_variables. split.
  - intros H. now rewrite (finditer_group_nil _ _ H).
  - intros H. now rewrite (collect_names_protected _ H).
Qed.

Lemma normalize_variables_without_names_witness :
  _normalize_variables (T "String key = args[0]; byte[] out;")
  = T "String key = args[0]; byte[] out;".
Proof.
  apply normalize_variables_without_names.
  intros name H. vm_compute in H.
  destruct H as [H|[H|[]]]; injection H as <-; vm_compute; tauto.
Defined.

(** ** The keyword list under context and nesting *)

Lemma keyword_In (S k : str) :
  In k (crypto_keywords (extract_features S))
  <-> In k _CRYPTO_KEYWORDS /\ substr (str_upper k) (str_upper S).
Proof.
  cbn [extract_features crypto_keywords]. unfold _extract_crypto_keywords.
  now rewrite filter_In, contains_infix.
Qed.

(** X18.  The keyword list grows with the text: a keyword reported for a
    snippet is reported for every text that contains the snippet.  A
    vocabulary entry whose upper-case form occurs inside that of another
    is reported whenever the other is: DES with DESede and 3DES, DSA with
    ECDSA, TLS and TLSv1 with TLSv1.2. *)
Theorem crypto_keywords_grow (S pre post k k' : str) :
  (In k (crypto_keywords (extract_features S)) ->
   In k (crypto_keywords (extract_features (pre ++ S ++ post)))) /\
  (In k _CRYPTO_KEYWORDS -> substr (str_upper k) (str_upper k') ->
   In k' (crypto_keywords (extract_features S)) ->
   In k (crypto_keywords (extract_features S))) /\
  (In (T "TLSv1.2") (crypto_keywords (extract_features S)) ->
   In (T "TLSv1") (crypto_keywords (extract_features S)) /\
   In (T "TLS") (crypto_keywords (extract_features S))) /\
  (In (T "DESede") (crypto_keywords (extract_features S)) \/
   In (T "3DES") (crypto_keywords (extract_features S)) ->
   In (T "DES") (crypto_keywords (extract_features S))) /\
  (In (T "ECDSA") (crypto_keywords (extract_features S)) ->
   In (T "DSA") (crypto_keywords (extract_features S))).
Proof.
  assert (Hnest : forall a b : str,
             In a _CRYPTO_KEYWORDS -> substr (str_upper a) (str_upper b) ->
             In b (crypto_keywords (extract_features S)) ->
             In a (crypto_keywords (extract_features S))).
  { intros a b Ha Hab Hb. apply keyword_In in Hb. apply keyword_In.
    split; [exact Ha|]. exact (substr_trans Hab (proj2 Hb)). }
  split; [|split; [|split; [|split]]].
  - rewrite !keyword_In. intros [Hk Hs]. split; [exact Hk|].
    unfold str_upper in *. rewrite !map_app. now apply substr_context.
  - apply Hnest.
  - intros H. split.
    + apply (Hnest (T "TLSv1") (T "TLSv1.2")); [vm_compute; tauto| |exact H].
      now exists [], (T ".2").
    + apply (Hnest (T "TLS") (T "TLSv1.2")); [vm_compute; tauto| |exact H].
      now exists [], (T "V1.2").
  - intros [H|H].
    + apply (Hnest (T "DES") (T "DESede")); [vm_compute; tauto| |exact H].
      now exists [], (T "EDE").
    + apply (Hnest (T "DES") (T "3DES")); [vm_compute; tauto| |exact H].
      now exists (T "3"), [].
  - intros H.
    apply (Hnest (T "DSA") (T "ECDSA")); [vm_compute; tauto| |exact H].
    now exists (T "EC"), [].
Qed.

(** ** What [re.findall] reports *)

(** Every entry is the text of a match found somewhere in the text. *)
Lemma findall_from_sound (p : pattern) (x : str) :
  forall aft bef skip,
    In x (findall_from p bef aft skip) ->
    exists A1 A2 b e,
      aft = A1 ++ A2 /\
      match_at p b (start_pos (rev A1 ++ bef) A2) = Some e /\
      x = text_between (start_pos (rev A1 ++ bef) A2) e.
Proof.
  unfold findall_from.
  induction aft as [|c t IH]; intros bef skip.
  - cbn [scan]. destruct skip; [|intros []].
    destruct (match_at p false (start_pos bef [])) as [e|] eqn:E;
      [|intros []].
    intros [<-|[]]. now exists [], [], false, e.
  - assert (Hrec : forall n,
              In x (scan p (fun s e acc => text_between s e :: acc)
                         (fun _ acc => acc) [] (c :: bef) t n) ->
              exists A1 A2 b e,
                c :: t = A1 ++ A2 /\
                match_at p b (start_pos (rev A1 ++ bef) A2) = Some e /\
                x = text_between (start_pos (rev A1 ++ bef) A2) e).
    { intros n H. destruct (IH _ _ H) as (A1 & A2 & b & e & -> & He & Hx).
      exists (c :: A1), A2, b, e. cbn [rev].
      rewrite <- (app_assoc (rev A1) [c] bef). now repeat split. }
    cbn [scan]. destruct skip as [|n]; [|apply Hrec].
    destruct (match_at p false (start_pos bef (c :: t))) as [e|] eqn:E;
      [|apply Hrec].
    destruct (matched_len (start_pos bef (c :: t)) e).
    + intros [<-|H]; [now exists [], (c :: t), false, e|].
      destruct (match_at p true (start_pos bef (c :: t))) as [e2|] eqn:E2;
        [|now apply Hrec in H].
      destruct H as [<-|H]; [now exists [], (c :: t), true, e2|].
      now apply Hrec in H.
    + intros [<-|H]; [now exists [], (c :: t), false, e|].
      now apply Hrec in H.
Qed.

(** For a plain pattern every entry is a word of the pattern and a stretch
    of the text. *)
Lemma findall_plain (p : pattern) (S x : str) :
  plain (pat_re p) = true -> In x (findall p S) ->
  Lang (pat_flags p) (pat_re p) x /\ substr x S.
Proof.
  intros Hp H. apply findall_from_sound in H.
  destruct H as (A1 & A2 & b & e & -> & He & ->).
  apply (@match_at_word p b _ A2 e Hp) in He.
  destruct He as (w & Hw & -> & -> & _).
  split; [exact Hw|]. now exists A1, (after e).
Qed.

Lemma plain_lits (x : str) : plain (lits x) = true.
Proof. induction x as [|c t IH]; [reflexivity | exact IH]. Qed.

(** X19.  Every entry of [api_calls] is a stretch of the text, and it is
    one of the fifteen API names, as it is written in the list, followed by
    white space, if any, and an opening parenthesis. *)
Theorem api_calls_are_calls (S x : str) :
  In x (api_calls (extract_features S)) ->
  substr x S /\
  exists name w,
    In (call name) _API_CALL_PATTERNS /\
    Forall (fun c => is_space c = true) w /\
    x = T name ++ w ++ T "(".
Proof.
  cbn [extract_features api_calls].
  unfold _extract_api_calls, findall_each. intros H.
  apply in_flat_map in H. destruct H as (p & Hp & Hx).
  pose proof Hp as Hp'. unfold _API_CALL_PATTERNS in Hp'.
  apply in_map_iff in Hp'. destruct Hp' as (name & <- & _).
  apply findall_plain in Hx.
  2:{ cbn [call pat_re seq fold_right plain]. unfold lit.
      now rewrite !plain_lits. }
  destruct Hx as [Hl Hs]. split; [exact Hs|].
  cbn [call pat_flags pat_re] in Hl.
  apply Lang_seq_cons in Hl. destruct Hl as (n & r1 & -> & Hn & Hl).
  apply Lang_seq_cons in Hl. destruct Hl as (w & r2 & -> & Hw & Hl).
  apply Lang_seq_cons in Hl. destruct Hl as (o & r3 & -> & Ho & Hl).
  apply Lang_seq_nil in Hl. subst r3.
  apply Lang_lits_cs in Hn, Ho; try reflexivity. subst n o.
  apply Lang_star_ws in Hw.
  exists name, w. rewrite app_nil_r. now repeat split.
Qed.

Lemma api_calls_are_calls_witness :
  substr (T "Cipher.getInstance (")
         (T "c = Cipher.getInstance (x); SecureRandom r;").
Proof.
  apply api_calls_are_calls. vm_compute. tauto.
Defined.

Lemma key_char_ok (c : ascii) :
  char_ok no_flags
    (CSet false [IRange "A" "Z"; IRange "a" "z"; IRange "0" "9";
                 IChar "/"; IChar "+"; IChar "="]) c
  = key_char c.
Proof. destruct c as [[] [] [] [] [] [] [] []]; reflexivity. Qed.

Lemma hex_char_ok (c : ascii) :
  char_ok no_flags
    (CSet false [IRange "0" "9"; IRange "a" "f"; IRange "A" "F"]) c
  = hex_char c.
Proof. destruct c as [[] [] [] [] [] [] [] []]; reflexivity. Qed.

(** X20.  Every entry of [hardcoded_secrets] is a stretch of the text of
    one of three shapes: a byte array literal, from [new] to the first
    closing brace; a quoted text of eight or more characters of the key
    alphabet, with the [.getBytes] that follows it; or a quoted text of
    sixteen or more hexadecimal digits, quotes included. *)
Theorem hardcoded_secrets_shapes (S x : str) :
  In x (hardcoded_secrets (extract_features S)) ->
  substr x S /\
  (byte_array_word x \/
   (exists body, x = DQ :: body ++ DQ :: T ".getBytes" /\
                 8 <= length body /\
                 Forall (fun c => key_char c = true) body) \/
   (exists body, x = DQ :: body ++ [DQ] /\
                 16 <= length body /\
                 Forall (fun c => hex_char c = true) body)).
Proof.
  cbn [extract_features hardcoded_secrets].
  unfold _extract_hardcoded_secrets, findall_each. intros H.
  apply in_flat_map in H. destruct H as (p & Hp & Hx).
  unfold _HARDCODED_PATTERNS in Hp. cbn [map In] in Hp.
  destruct Hp as [<-|[<-|[<-|[]]]];
    apply findall_plain in Hx; try reflexivity;
    destruct Hx as [Hl Hs]; (split; [exact Hs|]);
    cbn [pat_flags pat_re] in Hl.
  - left. now apply Lang_byte_array.
  - right. left. unfold string_key in Hl.
    apply Lang_seq_cons in Hl. destruct Hl as (q1 & r1 & -> & Hq1 & Hl).
    apply Lang_seq_cons in Hl. destruct Hl as (body & r2 & -> & Hb & Hl).
    apply Lang_seq_cons in Hl. destruct Hl as (q2 & r3 & -> & Hq2 & Hl).
    apply Lang_seq_cons in Hl. destruct Hl as (g & r4 & -> & Hg & Hl).
    apply Lang_seq_nil in Hl. subst r4.
    apply Lang_dq in Hq1, Hq2. subst q1 q2.
    apply Lang_lits_cs in Hg; [|reflexivity]. subst g.
    apply Lang_rep_chr in Hb. destruct Hb as (Hlen & _ & Hb).
    exists body. rewrite app_nil_r. split; [reflexivity|].
    split; [exact Hlen|].
    eapply Forall_impl; [|exact Hb]. intros c Hc.
    now rewrite <- key_char_ok.
  - right. right. unfold hex_literal in Hl.
    apply Lang_seq_cons in Hl. destruct Hl as (q1 & r1 & -> & Hq1 & Hl).
    apply Lang_seq_cons in Hl. destruct Hl as (body & r2 & -> & Hb & Hl).
    apply Lang_seq_cons in Hl. destruct Hl as (q2 & r3 & -> & Hq2 & Hl).
    apply Lang_seq_nil in Hl. subst r3.
    apply Lang_dq in Hq1, Hq2. subst q1 q2.
    apply Lang_rep_chr in Hb. destruct Hb as (Hlen & _ & Hb).
    exists body. rewrite app_nil_r. split; [reflexivity|].
    split; [exact Hlen|].
    eapply Forall_impl; [|exact Hb]. intros c Hc.
    now rewrite <- hex_char_ok.
Qed.

Lemma hardcoded_secrets_shapes_witness :
  substr (DQ :: T "0123456789abcdef" ++ [DQ])
         (T "k = " ++ DQ :: T "0123456789abcdef" ++ DQ :: T ".getBytes();").
Proof.
  apply hardcoded_secrets_shapes. vm_compute. tauto.
Defined.

(** ** The two digest rules *)











(** ** Bounds on the counts *)

Lemma count_occ_In_pos (c : ascii) (w : str) :
  In c w -> 1 <= count_occ ascii_dec w c.
Proof. intros H. now apply (count_occ_In ascii_dec). Qed.

(** A plain pattern whose words all contain the character [c] is found at
    most as many times as [c] occurs. *)
Lemma findall_count (p : pattern) (c : ascii) :
  plain (pat_re p) = true ->
  (forall w, Lang (pat_flags p) (pat_re p) w -> In c w) ->
  forall n aft bef,
    length aft <= n ->
    length (findall_from p bef aft 0) <= count_occ ascii_dec aft c.
Proof.
  intros Hp Hc. unfold findall_from.
  induction n as [|n IH]; intros aft bef Hlen.
  - destruct aft; [|simpl in Hlen; lia]. cbn [scan].
    destruct (match_at p false (start_pos bef [])) as [e|] eqn:E;
      [|simpl; lia].
    apply (@match_at_word p false bef [] e Hp) in E.
    destruct E as (w & Hw & E & _). apply Hc in Hw.
    destruct w; [contradiction | discriminate].
  - destruct aft as [|ch t].
    + cbn [scan].
      destruct (match_at p false (start_pos bef [])) as [e|] eqn:E;
        [|simpl; lia].
      apply (@match_at_word p false bef [] e Hp) in E.
      destruct E as (w & Hw & E & _). apply Hc in Hw.
      destruct w; [contradiction | discriminate].
    + cbn [scan]. simpl in Hlen.
      destruct (match_at p false (start_pos bef (ch :: t))) as [e|] eqn:E.
      * apply (@match_at_word p false bef (ch :: t) e Hp) in E.
        destruct E as (w & Hw & E & _ & ->). apply Hc in Hw.
        destruct w as [|x w]; [contradiction|].
        cbn [length]. cbn [app] in E. injection E as <- ->.
        rewrite scan_skip by (rewrite length_app; lia).
        cbn [length]. rewrite skipn_app, Nat.sub_diag, skipn_all.
        cbn [skipn app].
        change (ch :: w ++ after e) with ((ch :: w) ++ after e).
        rewrite count_occ_app.
        pose proof (count_occ_In_pos _ _ Hw).
        specialize (IH (after e) (rev (firstn (length w) (w ++ after e))
                                   ++ ch :: bef)).
        rewrite length_app in Hlen.
        specialize (IH ltac:(lia)). lia.
      * specialize (IH t (ch :: bef) ltac:(lia)).
        cbn [count_occ]. destruct (ascii_dec ch c); lia.
Qed.

Lemma import_line_match (bef aft : list ascii) (e : pos) :
  match_at import_line false (start_pos bef aft) = Some e ->
  at_bol (pat_flags import_line) (start_pos bef aft) = true /\
  exists w, w <> [] /\ aft = w ++ after e /\
            matched_len (start_pos bef aft) e = length w.
Proof.
  intros H. apply match_at_sound in H.
  cbn [import_line pat_flags pat_re seq fold_right Matches] in H.
  destruct H as (s1 & [Hb ->] & H). split; [exact Hb|].
  change (exists s2, Matches (Flags false false true) (star ws)
                             (start_pos bef aft) s2 /\
            exists s3, Matches (Flags false false true) (lit "import") s2 s3 /\
              exists s4, Matches (Flags false false true) (plus ws) s3 s4 /\
                         e = s4)
    with (Matches (Flags false false true)
                  (seq [star ws; lit "import"; plus ws])
                  (start_pos bef aft) e) in H.
  apply (plain_matches (Flags false false true)
           (seq [star ws; lit "import"; plus ws]) eq_refl) in H.
  destruct H as (w & Hw & Hr). exists w.
  pose proof (reads_text Hr) as [_ Hlen].
  destruct Hr as (Ha & _). cbn [after start_pos] in Ha.
  split; [|now split].
  apply Lang_seq_cons in Hw. destruct Hw as (a & x & -> & _ & Hw).
  apply Lang_seq_cons in Hw. destruct Hw as (i & y & -> & Hi & _).
  apply Lang_lits_cs in Hi; [|reflexivity]. subst i.
  destruct a; discriminate.
Qed.

Lemma count_occ_last (w : str) (bef : list ascii) :
  w <> [] ->
  (if at_bol (pat_flags import_line) (start_pos (rev w ++ bef) [])
   then 1 else 0) <= count_occ ascii_dec w LF.
Proof.
  intros Hne. destruct (rev w) as [|l r] eqn:E.
  - apply (f_equal (@rev ascii)) in E. rewrite rev_involutive in E.
    now subst w.
  - apply (f_equal (@rev ascii)) in E. rewrite rev_involutive in E.
    subst w. cbn [rev app at_bol before start_pos pat_flags import_line
                  MULTILINE andb].
    rewrite count_occ_app. cbn [count_occ].
    destruct (ceqb l LF) eqn:El; [|lia].
    apply ceqb_eq in El. subst l.
    destruct (ascii_dec LF LF); [lia | congruence].
Qed.

Lemma import_count_n (n : nat) :
  forall aft bef,
    length aft <= n ->
    length (findall_from import_line bef aft 0)
    <= (if at_bol (pat_flags import_line) (start_pos bef aft) then 1 else 0)
       + count_occ ascii_dec aft LF.
Proof.
  unfold findall_from.
  induction n as [|n IH]; intros aft bef Hlen.
  - destruct aft; [|simpl in Hlen; lia]. cbn [scan].
    destruct (match_at import_line false (start_pos bef [])) as [e|] eqn:E;
      [|simpl; lia].
    apply import_line_match in E. destruct E as (_ & w & Hne & E & _).
    destruct w; [congruence | discriminate].
  - destruct aft as [|ch t].
    + cbn [scan].
      destruct (match_at import_line false (start_pos bef [])) as [e|] eqn:E;
        [|simpl; lia].
      apply import_line_match in E. destruct E as (_ & w & Hne & E & _).
      destruct w; [congruence | discriminate].
    + cbn [scan]. simpl in Hlen.
      assert (Hstep : forall b' : list ascii,
                 (if at_bol (pat_flags import_line) (start_pos (ch :: b') t)
                  then 1 else 0) + count_occ ascii_dec t LF
                 = count_occ ascii_dec (ch :: t) LF).
      { intros b'. cbn [at_bol before start_pos pat_flags import_line
                         MULTILINE andb count_occ].
        destruct (ascii_dec ch LF) as [->|Hn].
        - reflexivity.
        - destruct (ceqb ch LF) eqn:El; [|reflexivity].
          apply ceqb_eq in El. contradiction. }
      destruct (match_at import_line false (start_pos bef (ch :: t)))
        as [e|] eqn:E.
      * apply import_line_match in E.
        destruct E as (Hb & w & Hne & E & ->). rewrite Hb.
        destruct w as [|x w]; [congruence|].
        cbn [length]. cbn [app] in E. injection E as <- ->.
        rewrite scan_skip by (rewrite length_app; lia).
        cbn [length]. rewrite skipn_app, Nat.sub_diag, skipn_all.
        cbn [skipn app].
        rewrite firstn_app, Nat.sub_diag, firstn_all. cbn [firstn].
        rewrite app_nil_r.
        change (ch :: w ++ after e) with ((ch :: w) ++ after e).
        rewrite count_occ_app.
        rewrite length_app in Hlen.
        specialize (IH (after e) (rev w ++ ch :: bef) ltac:(lia)).
        pose proof (@count_occ_last (ch :: w) bef ltac:(discriminate)) as Hl.
        cbn [rev] in Hl. rewrite <- app_assoc in Hl. cbn [app] in Hl.
        assert (Hsame :
          at_bol (pat_flags import_line)
                 (start_pos (rev w ++ ch :: bef) (after e))
          = at_bol (pat_flags import_line)
                   (start_pos (rev w ++ ch :: bef) [])) by reflexivity.
        rewrite Hsame in IH. lia.
      * specialize (IH t (ch :: bef) ltac:(lia)).
        rewrite (Hstep bef) in IH. lia.
Qed.

(** X22.  The counts cannot exceed what the text has room for:
    [import_count] is at most the number of lines, one more than the
    number of line feeds; [method_count] is at most the number of opening
    parentheses, and so is the number of entries that each pattern of API
    calls contributes to [api_calls]. *)
Theorem counts_are_bounded (S : str) :
  import_count (structural_tokens (extract_features S))
  <= 1 + count_occ ascii_dec S LF /\
  method_count (structural_tokens (extract_features S))
  <= count_occ ascii_dec S "("%char /\
  (forall p, In p _API_CALL_PATTERNS ->
             length (findall p S) <= count_occ ascii_dec S "("%char) /\
  length (api_calls (extract_features S))
  <= 15 * count_occ ascii_dec S "("%char.
Proof.
  assert (Hapi : forall p, In p _API_CALL_PATTERNS ->
                   length (findall p S) <= count_occ ascii_dec S "("%char).
  { intros p Hp. unfold _API_CALL_PATTERNS in Hp.
    apply in_map_iff in Hp. destruct Hp as (name & <- & _).
    apply (@findall_count (call name) "("%char) with (n := length S);
      [|  |lia].
    - cbn [call pat_re seq fold_right plain]. unfold lit.
      now rewrite !plain_lits.
    - intros w Hw. cbn [call pat_flags pat_re] in Hw.
      apply Lang_seq_cons in Hw. destruct Hw as (a & x & -> & _ & Hw).
      apply Lang_seq_cons in Hw. destruct Hw as (b & y & -> & _ & Hw).
      apply Lang_seq_cons in Hw. destruct Hw as (o & z & -> & Ho & _).
      apply Lang_lits_cs in Ho; [|reflexivity]. subst o.
      rewrite !in_app_iff. right. right. left. now left. }
  cbn [extract_features structural_tokens _extract_structural_tokens
       import_count method_count api_calls].
  split; [|split; [|split; [exact Hapi|]]].
  - exact (@import_count_n (length S) S [] (le_n _)).
  - apply (@findall_count method_sig "("%char) with (n := length S);
      [reflexivity|  |lia].
    intros w Hw. cbn [method_sig pat_flags pat_re] in Hw.
    apply Lang_seq_cons in Hw. destruct Hw as (a & x & -> & _ & Hw).
    apply Lang_seq_cons in Hw. destruct Hw as (b & y & -> & _ & Hw).
    apply Lang_seq_cons in Hw. destruct Hw as (c & z & -> & _ & Hw).
    apply Lang_seq_cons in Hw. destruct Hw as (d & u & -> & _ & Hw).
    apply Lang_seq_cons in Hw. destruct Hw as (f & v & -> & _ & Hw).
    apply Lang_seq_cons in Hw. destruct Hw as (o & t & -> & Ho & _).
    apply Lang_lits_cs in Ho; [|reflexivity]. subst o.
    rewrite !in_app_iff. do 5 right. left. now left.
  - unfold _extract_api_calls, findall_each.
    assert (Hsum : forall ps : list pattern,
               (forall p, In p ps ->
                  length (findall p S) <= count_occ ascii_dec S "("%char) ->
               length (flat_map (fun p => findall p S) ps)
               <= length ps * count_occ ascii_dec S "("%char).
    { induction ps as [|p ps IH]; intros H; [simpl; lia|].
      cbn [flat_map length]. rewrite length_app.
      specialize (IH (fun q Hq => H q (or_intror Hq))).
      specialize (H p (or_introl eq_refl)). simpl. lia. }
    exact (Hsum _ Hapi).
Qed.
